(** * ACL manager of the NetBird client: a shallow embedding

    Source: [client/internal/acl/manager.go].  The manager turns a network
    map into calls on the firewall backend and keeps the map of installed
    rule pairs.  Go maps are [gmap]s, Go [int] is a 64-bit integer written
    as [Z] with its wrap-around, strings are byte strings ([string]), and
    every call on the backend is recorded in a log so that statements about
    "which calls were made" can be read off the result. *)

From Stdlib Require Import ZArith NArith List String Ascii Lia Bool.
From Stdlib.Strings Require Import Byte.
From Stdlib Require Import Decimal DecimalFacts DecimalString DecimalN DecimalPos DecimalZ.
From stdpp Require Import gmap strings list fin_maps.

#[local] Set Warnings "-clear-no-such-hyp".

Local Open Scope Z_scope.

(* ===================================================================== *)
(** ** Go library functions used by the manager *)
(* ===================================================================== *)

(** Go's [int] on the 64-bit targets: additions wrap around. *)
Module goint.
Definition MaxInt : Z := 2 ^ 63 - 1.
Definition MinInt : Z := - 2 ^ 63.
Definition wrap (z : Z) : Z := (z + 2 ^ 63) mod 2 ^ 64 - 2 ^ 63.
Definition in_range (z : Z) : bool := (MinInt <=? z) && (z <=? MaxInt).
(** [x++] *)
Definition incr (z : Z) : Z := wrap (z + 1).
End goint.

Module strconv.

(** [strconv.Itoa]: the decimal rendering, ["-"] in front of negatives. *)
Definition Itoa (z : Z) : string := NilZero.string_of_int (Z.to_int z).

Definition digit_of_ascii (a : ascii) : option Z :=
  let n := Z.of_N (N_of_ascii a) in
  if (48 <=? n) && (n <=? 57) then Some (n - 48) else None.

(** The digits of [s] read from the left onto the accumulator [acc];
    [None] as soon as a byte is not a decimal digit. *)
Fixpoint parse_digits (s : string) (acc : Z) : option Z :=
  match s with
  | EmptyString => Some acc
  | String a s' =>
      match digit_of_ascii a with
      | Some d => parse_digits s' (10 * acc + d)
      | None => None
      end
  end.

Definition parse_unsigned (s : string) : option Z :=
  match s with
  | EmptyString => None
  | _ => parse_digits s 0
  end.

(** [strconv.Atoi]: an optional sign, then one or more decimal digits;
    a value outside [int] is an error. *)
Definition Atoi (s : string) : option Z :=
  let signed :=
    match s with
    | String "+" s' => parse_unsigned s'
    | String "-" s' => Z.opp <$> parse_unsigned s'
    | _ => parse_unsigned s
    end in
  match signed with
  | Some v => if goint.in_range v then Some v else None
  | None => None
  end.

End strconv.

Module fmt.

Fixpoint zeros (n : nat) : string :=
  match n with
  | O => EmptyString
  | S n' => String "0" (zeros n')
  end.

(** Left padding with ['0'] up to [w] bytes; longer strings are kept. *)
Definition pad0 (w : nat) (s : string) : string :=
  zeros (w - String.length s) +:+ s.

(** The verb [%07d]: the zero flag pads the digits to the width, the sign
    counts in the width. *)
Definition Sprintf_07d (z : Z) : string :=
  match Z.to_int z with
  | Decimal.Pos d => pad0 7 (NilZero.string_of_uint d)
  | Decimal.Neg d => String "-" (pad0 6 (NilZero.string_of_uint d))
  end.

(** [fmt.Sprintf("nb%07d", n)] *)
Definition Sprintf_nb07d (z : Z) : string := "nb" +:+ Sprintf_07d z.

End fmt.

Module hex.

Definition hextable : list ascii :=
  list_ascii_of_string "0123456789abcdef".

Definition nibble (n : N) : ascii := nth (N.to_nat n) hextable "0"%char.

(** [hex.EncodeToString]: two lower-case digits per byte. *)
Fixpoint EncodeToString (src : list byte) : string :=
  match src with
  | [] => EmptyString
  | b :: rest =>
      let v := Byte.to_N b in
      String (nibble (N.shiftr v 4))
        (String (nibble (N.land v 15)) (EncodeToString rest))
  end.

Definition unnibble (a : ascii) : option N :=
  let n := N_of_ascii a in
  if (48 <=? n)%N && (n <=? 57)%N then Some (n - 48)%N
  else if (97 <=? n)%N && (n <=? 102)%N then Some (n - 87)%N
  else None.

(** The decoder of the lower-case alphabet, used to invert the encoder. *)
Fixpoint DecodeString (s : string) : option (list byte) :=
  match s with
  | EmptyString => Some []
  | String _ EmptyString => None
  | String hi (String lo rest) =>
      match unnibble hi, unnibble lo, DecodeString rest with
      | Some h, Some l, Some bs =>
          match Byte.of_N (16 * h + l) with
          | Some b => Some (b :: bs)
          | None => None
          end
      | _, _, _ => None
      end
  end.

End hex.

(** [crypto/md5], after RFC 1321; 32-bit words are [N] reduced mod 2^32. *)
Module md5.

Definition Size : nat := 16.

Definition mask32 (x : N) : N := (x mod 2 ^ 32)%N.
Definition add32 (x y : N) : N := mask32 (x + y).
Definition not32 (x : N) : N := N.lxor x 0xffffffff.
Definition rotl32 (x : N) (c : N) : N :=
  N.lor (mask32 (N.shiftl x c)) (N.shiftr x (32 - c)).

Definition shifts : list N :=
  [7; 12; 17; 22; 7; 12; 17; 22; 7; 12; 17; 22; 7; 12; 17; 22;
   5; 9; 14; 20; 5; 9; 14; 20; 5; 9; 14; 20; 5; 9; 14; 20;
   4; 11; 16; 23; 4; 11; 16; 23; 4; 11; 16; 23; 4; 11; 16; 23;
   6; 10; 15; 21; 6; 10; 15; 21; 6; 10; 15; 21; 6; 10; 15; 21]%N.

Definition table : list N :=
  [0xd76aa478; 0xe8c7b756; 0x242070db; 0xc1bdceee;
   0xf57c0faf; 0x4787c62a; 0xa8304613; 0xfd469501;
   0x698098d8; 0x8b44f7af; 0xffff5bb1; 0x895cd7be;
   0x6b901122; 0xfd987193; 0xa679438e; 0x49b40821;
   0xf61e2562; 0xc040b340; 0x265e5a51; 0xe9b6c7aa;
   0xd62f105d; 0x02441453; 0xd8a1e681; 0xe7d3fbc8;
   0x21e1cde6; 0xc33707d6; 0xf4d50d87; 0x455a14ed;
   0xa9e3e905; 0xfcefa3f8; 0x676f02d9; 0x8d2a4c8a;
   0xfffa3942; 0x8771f681; 0x6d9d6122; 0xfde5380c;
   0xa4beea44; 0x4bdecfa9; 0xf6bb4b60; 0xbebfbc70;
   0x289b7ec6; 0xeaa127fa; 0xd4ef3085; 0x04881d05;
   0xd9d4d039; 0xe6db99e5; 0x1fa27cf8; 0xc4ac5665;
   0xf4292244; 0x432aff97; 0xab9423a7; 0xfc93a039;
   0x655b59c3; 0x8f0ccc92; 0xffeff47d; 0x85845dd1;
   0x6fa87e4f; 0xfe2ce6e0; 0xa3014314; 0x4e0811a1;
   0xf7537e82; 0xbd3af235; 0x2ad7d2bb; 0xeb86d391]%N.

Record digest := { dA : N; dB : N; dC : N; dD : N }.

Definition init : digest :=
  {| dA := 0x67452301; dB := 0xefcdab89; dC := 0x98badcfe; dD := 0x10325476 |}%N.

(** A little-endian 32-bit word from four bytes. *)
Definition word_of_bytes (bs : list byte) : N :=
  fold_right (fun b acc => Byte.to_N b + 256 * acc)%N 0%N bs.

Fixpoint words_of_block (n : nat) (bs : list byte) : list N :=
  match n with
  | O => []
  | S n' => word_of_bytes (firstn 4 bs) :: words_of_block n' (skipn 4 bs)
  end.

Definition step (M : list N) (i : nat) (s : digest) : digest :=
  let '(Build_digest a b c d) := s in
  let '(f, g) :=
    if (i <? 16)%nat then
      (N.lor (N.land b c) (N.land (not32 b) d), i)
    else if (i <? 32)%nat then
      (N.lor (N.land d b) (N.land (not32 d) c), ((5 * i + 1) mod 16)%nat)
    else if (i <? 48)%nat then
      (N.lxor (N.lxor b c) d, ((3 * i + 5) mod 16)%nat)
    else
      (N.lxor c (N.lor b (not32 d)), ((7 * i) mod 16)%nat) in
  let f' := add32 (add32 (add32 f a) (nth i table 0%N)) (nth g M 0%N) in
  {| dA := d; dB := add32 b (rotl32 f' (nth i shifts 0%N)); dC := b; dD := c |}.

Definition block (s : digest) (bs : list byte) : digest :=
  let M := words_of_block 16 bs in
  let s' := fold_left (fun acc i => step M i acc) (seq 0 64) s in
  {| dA := add32 (dA s) (dA s'); dB := add32 (dB s) (dB s');
     dC := add32 (dC s) (dC s'); dD := add32 (dD s) (dD s') |}.

Fixpoint blocks (n : nat) (s : digest) (bs : list byte) : digest :=
  match n with
  | O => s
  | S n' => blocks n' (block s (firstn 64 bs)) (skipn 64 bs)
  end.

Definition byte_of_N (n : N) : byte :=
  match Byte.of_N (n mod 256)%N with Some b => b | None => x00 end.

Fixpoint le_bytes (k : nat) (n : N) : list byte :=
  match k with
  | O => []
  | S k' => byte_of_N n :: le_bytes k' (n / 256)%N
  end.

(** The message, the byte 0x80, zero bytes up to 56 mod 64, and the bit
    length on eight bytes. *)
Definition padded (msg : list byte) : list byte :=
  let len := length msg in
  let fill := ((119 - len mod 64) mod 64)%nat in
  msg ++ x80 :: (repeat x00 fill ++ le_bytes 8 (8 * N.of_nat len)).

Definition checkSum (msg : list byte) : list byte :=
  let p := padded msg in
  let s := blocks (length p / 64) init p in
  le_bytes 4 (dA s) ++ le_bytes 4 (dB s) ++ le_bytes 4 (dC s) ++ le_bytes 4 (dD s).

(** A hash under construction is the bytes written to it so far. *)
Definition hash := list byte.

(** [md5.New()] *)
Definition New : hash := [].

(** [h.Sum(b)]: the digest of what was written to [h], appended to [b]. *)
Definition Sum (h : hash) (b : list byte) : list byte := b ++ checkSum h.

End md5.

Global Arguments md5.checkSum : simpl never.

(* ===================================================================== *)
(** ** Declarations of the repository outside [acl] *)
(* ===================================================================== *)

(** The messages of [management/proto]: enumerations are 32-bit integers
    with named values, and a field can hold a number that has no name. *)
Module mgmProto.

(** Modelled from the spec: the generated enumeration [FirewallRule.direction]
    (IN | OUT), whose declaration is not part of the sources at hand. *)
Definition FirewallRule_IN : Z := 0.
Definition FirewallRule_OUT : Z := 1.

(** Modelled from the spec: the generated enumeration [FirewallRule.action]
    (ACCEPT | DROP), whose declaration is not part of the sources at hand. *)
Definition FirewallRule_ACCEPT : Z := 0.
Definition FirewallRule_DROP : Z := 1.

(** Modelled from the spec: the generated enumeration [FirewallRule.protocol]
    (ALL | TCP | UDP | ICMP, and the zero value UNKNOWN), whose declaration
    is not part of the sources at hand. *)
Definition FirewallRule_UNKNOWN : Z := 0.
Definition FirewallRule_ALL : Z := 1.
Definition FirewallRule_TCP : Z := 2.
Definition FirewallRule_UDP : Z := 3.
Definition FirewallRule_ICMP : Z := 4.

(** [String()] of an enumeration: the name of the value, or its number. *)
Definition FirewallRuleAction_String (a : Z) : string :=
  if a =? FirewallRule_ACCEPT then "ACCEPT"
  else if a =? FirewallRule_DROP then "DROP"
  else strconv.Itoa a.

Definition FirewallRuleProtocol_String (p : Z) : string :=
  if p =? FirewallRule_UNKNOWN then "UNKNOWN"
  else if p =? FirewallRule_ALL then "ALL"
  else if p =? FirewallRule_TCP then "TCP"
  else if p =? FirewallRule_UDP then "UDP"
  else if p =? FirewallRule_ICMP then "ICMP"
  else strconv.Itoa p.

Record FirewallRule := {
  PeerIP : string;
  Direction : Z;
  Action : Z;
  Protocol : Z;
  Port : string
}.

Record RemotePeerConfig := { AllowedIps : list string }.

Record SSHConfig := { SshEnabled : bool }.

Record PeerConfigT := { SshConfig : option SSHConfig }.

Record NetworkMap := {
  PeerConfig : option PeerConfigT;
  RemotePeers : list RemotePeerConfig;
  OfflinePeers : list RemotePeerConfig;
  FirewallRules : list FirewallRule;
  FirewallRulesIsEmpty : bool
}.

End mgmProto.

Module ssh.
(** Modelled from the spec: the constant [ssh.DefaultSSHPort] (port 22),
    declared in [client/ssh], which is not part of the sources at hand. *)
Definition DefaultSSHPort : Z := 22.
End ssh.

(** [net.IP]: the parser and the printer of the Go library are parameters. *)
Module net.
Class IPOps (IP : Type) := {
  ParseIP : string -> option IP;
  IP_String : IP -> string
}.
End net.

(** The package [client/firewall/manager]. *)
Module firewall.

(** Modelled from the spec: the backend enumerations of
    [client/firewall/manager] (protocol names, actions, directions), whose
    declarations are not part of the sources at hand. *)
Definition ProtocolTCP : string := "tcp".
Definition ProtocolUDP : string := "udp".
Definition ProtocolICMP : string := "icmp".
Definition ProtocolALL : string := "all".

Definition ActionAccept : Z := 0.
Definition ActionDrop : Z := 1.

Definition RuleDirectionIN : Z := 0.
Definition RuleDirectionOUT : Z := 1.

Record Port := { IsRange : bool; Values : list Z }.

(** Modelled from the spec: [Port.String()], the port values in decimal
    separated by commas; its code is not part of the sources at hand. *)
Definition Port_String (p : Port) : string :=
  fold_left
    (fun ports port =>
       (if String.eqb ports "" then ports else ports +:+ ",")
         +:+ strconv.Itoa port)
    (Values p) ""%string.

(** The arguments of one [AddFiltering] call. *)
Record AddArgs (IP : Type) := {
  a_ip : IP;
  a_protocol : string;
  a_sPort : option Port;
  a_dPort : option Port;
  a_direction : Z;
  a_action : Z;
  a_ipsetName : string;
  a_comment : string
}.
Arguments Build_AddArgs {IP}.
Arguments a_ip {IP}. Arguments a_protocol {IP}. Arguments a_sPort {IP}.
Arguments a_dPort {IP}. Arguments a_direction {IP}. Arguments a_action {IP}.
Arguments a_ipsetName {IP}. Arguments a_comment {IP}.

(** The interface [firewall.Manager] as far as the ACL manager uses it.
    [B] is the state of the backend, [Rule] its rule handles; an error is
    its message. *)
Class Manager (IP Rule B : Type) := {
  AddFiltering : B -> AddArgs IP -> B * (list Rule + string);
  DeleteRule : B -> Rule -> B * option string;
  Flush : B -> B * option string
}.

End firewall.

(** Concrete collaborators for closed examples: dotted-quad addresses and a
    scripted backend whose handles are numbers. *)
Module testenv.

(** The text before the first ['.'] and the text after it. *)
Fixpoint cut_dot (s : string) : string * option string :=
  match s with
  | EmptyString => (EmptyString, None)
  | String "." rest => (EmptyString, Some rest)
  | String c rest =>
      let '(h, t) := cut_dot rest in (String c h, t)
  end.

(** One field of a dotted quad: at most three digits, no leading zero,
    at most 255. *)
Definition octet (s : string) : option Z :=
  match s with
  | String "0" (String _ _) => None
  | _ =>
      if (3 <? String.length s)%nat then None
      else match strconv.parse_unsigned s with
           | Some v => if v <=? 255 then Some v else None
           | None => None
           end
  end.

Fixpoint fields (n : nat) (s : string) : option (list Z) :=
  match n with
  | O => None
  | S n' =>
      let '(h, t) := cut_dot s in
      match octet h, t with
      | Some v, None => if (n' =? 0)%nat then Some [v] else None
      | Some v, Some rest => (fun vs => v :: vs) <$> fields n' rest
      | None, _ => None
      end
  end.

Definition ParseIPv4 (s : string) : option (list Z) := fields 4 s.

Fixpoint dotted (l : list Z) : string :=
  match l with
  | [] => ""
  | [v] => strconv.Itoa v
  | v :: rest => strconv.Itoa v +:+ "." +:+ dotted rest
  end.

#[export] Instance ipv4 : net.IPOps (list Z) :=
  {| net.ParseIP := ParseIPv4; net.IP_String := dotted |}.

(** A backend that follows a script: the n-th [AddFiltering] call fails
    when the n-th entry of the script is [false], and succeeds with one
    fresh handle otherwise (also when the script is exhausted).  [live]
    are the handles added and not yet deleted. *)
Record backend := { next : nat; script : list bool; live : list nat }.

Definition add (b : backend) (a : firewall.AddArgs (list Z))
  : backend * (list nat + string) :=
  match script b with
  | false :: rest =>
      ({| next := next b; script := rest; live := live b |},
       inr "backend refused the rule"%string)
  | _ =>
      ({| next := S (next b); script := tl (script b);
          live := live b ++ [next b] |},
       inl [next b])
  end.

Definition del (b : backend) (r : nat) : backend * option string :=
  ({| next := next b; script := script b;
      live := filter (fun h => negb (h =? r)%nat) (live b) |}, None).

#[export] Instance scripted : firewall.Manager (list Z) nat backend :=
  {| firewall.AddFiltering := add;
     firewall.DeleteRule := del;
     firewall.Flush := fun b => (b, None) |}.

Definition fresh (sc : list bool) : backend :=
  {| next := 0; script := sc; live := [] |}.

End testenv.

(* ===================================================================== *)
(** ** [client/internal/acl/manager.go] *)
(* ===================================================================== *)

Module acl.
Import mgmProto.

(** Why a [DeleteRule] call was made: by [rollBack], or by the loop of
    [ApplyFiltering] that removes the pairs absent from the new map. *)
Inductive deleteOrigin := Rollback | Stale.

(** The errors [protoRuleToFirewallRule] returns. *)
Inductive aclError :=
| InvalidPeerIP
| InvalidProtocol
| InvalidAction
| InvalidPort
| InvalidDirection
| BackendAddFailed (msg : string).

Definition isBackendError (e : aclError) : bool :=
  match e with BackendAddFailed _ => true | _ => false end.

(** What a run leaves behind: the calls on the backend, and the error line
    [ApplyFiltering] logs for the rule it could not apply. *)
Inductive event (IP Rule : Type) :=
| EvAdd (a : firewall.AddArgs IP) (res : list Rule + string)
| EvDelete (o : deleteOrigin) (r : Rule) (err : option string)
| EvFlush (err : option string)
| EvApplyFailed (r : FirewallRule) (e : aclError).
Arguments EvAdd {IP Rule}. Arguments EvDelete {IP Rule}.
Arguments EvFlush {IP Rule}. Arguments EvApplyFailed {IP Rule}.

(** The backend together with the log of what was asked of it. *)
Record Fw (IP Rule B : Type) := {
  fw_state : B;
  fw_log : list (event IP Rule)
}.
Arguments Build_Fw {IP Rule B}. Arguments fw_state {IP Rule B}.
Arguments fw_log {IP Rule B}.

(** [DefaultManager]; the mutex only serialises the calls. *)
Record DefaultManager (Rule B : Type) := {
  d_firewall : option B;
  ipsetCounter : Z;
  rulesPairs : gmap string (list Rule)
}.
Arguments Build_DefaultManager {Rule B}. Arguments d_firewall {Rule B}.
Arguments ipsetCounter {Rule B}. Arguments rulesPairs {Rule B}.

(** The variables of the loop over the rules in [ApplyFiltering]. *)
Record loopState (IP Rule B : Type) := {
  ls_fw : Fw IP Rule B;
  ls_counter : Z;
  ls_rulesPairs : gmap string (list Rule);
  ls_newRulePairs : gmap string (list Rule);
  ls_ipsets : gmap string string;
  (** each rule the loop reached, with the IP-set name it was given *)
  ls_named : list (FirewallRule * string)
}.
Arguments Build_loopState {IP Rule B}. Arguments ls_fw {IP Rule B}.
Arguments ls_counter {IP Rule B}. Arguments ls_rulesPairs {IP Rule B}.
Arguments ls_newRulePairs {IP Rule B}. Arguments ls_ipsets {IP Rule B}.
Arguments ls_named {IP Rule B}.

(** What one [ApplyFiltering] call did. *)
Record run (IP Rule B : Type) := {
  r_manager : DefaultManager Rule B;
  r_events : list (event IP Rule);
  r_ipsets : gmap string string;
  r_named : list (FirewallRule * string)
}.
Arguments Build_run {IP Rule B}. Arguments r_manager {IP Rule B}.
Arguments r_events {IP Rule B}. Arguments r_ipsets {IP Rule B}.
Arguments r_named {IP Rule B}.

Definition NewDefaultManager {Rule B : Type} (fm : option B)
  : DefaultManager Rule B :=
  {| d_firewall := fm; ipsetCounter := 0; rulesPairs := ∅ |}.

(** *** Pure helpers *)

Definition convertToFirewallProtocol (protocol : Z) : string * option aclError :=
  if protocol =? FirewallRule_TCP then (firewall.ProtocolTCP, None)
  else if protocol =? FirewallRule_UDP then (firewall.ProtocolUDP, None)
  else if protocol =? FirewallRule_ICMP then (firewall.ProtocolICMP, None)
  else if protocol =? FirewallRule_ALL then (firewall.ProtocolALL, None)
  else (firewall.ProtocolALL, Some InvalidProtocol).

Definition shouldSkipInvertedRule (protocol : string) (port : option firewall.Port) : bool :=
  String.eqb protocol firewall.ProtocolALL
  || String.eqb protocol firewall.ProtocolICMP
  || match port with None => true | Some _ => false end.

Definition convertFirewallAction (action : Z) : Z * option aclError :=
  if action =? FirewallRule_ACCEPT then (firewall.ActionAccept, None)
  else if action =? FirewallRule_DROP then (firewall.ActionDrop, None)
  else (firewall.ActionDrop, Some InvalidAction).

(** No byte of the text is a colon. *)
Fixpoint no_colon (s : string) : bool :=
  match s with
  | EmptyString => true
  | String c s' => negb (Ascii.eqb c ":") && no_colon s'
  end.

(** [getRuleGroupingSelector]: ["%v:%v:%v:%s"] of the direction in decimal,
    the action, the protocol and the port. *)
Definition getRuleGroupingSelector (rule : FirewallRule) : string :=
  strconv.Itoa (Direction rule) +:+ ":"
    +:+ FirewallRuleAction_String (Action rule) +:+ ":"
    +:+ FirewallRuleProtocol_String (Protocol rule) +:+ ":"
    +:+ Port rule.

(** *** The squasher *)

(** [m[k]] on a map of integers: zero when the key is absent. *)
Definition index_of (m : gmap string nat) (k : string) : nat :=
  default 0%nat (m !! k).

(** The variables the closures of [squashAcceptRules] share. *)
Record squashed := {
  squashedRules : list FirewallRule;
  squashedProtocols : gset Z
}.

Definition isDrop (r : FirewallRule) : bool :=
  (Action r =? FirewallRule_DROP) || negb (String.eqb (Port r) "").

Definition addRuleToCalculationMap (i : nat) (r : FirewallRule)
    (protocols : gmap Z (gmap string nat)) (sq : squashed)
  : gmap Z (gmap string nat) * squashed :=
  if isDrop r then (<[Protocol r := ∅]> protocols, sq)
  else
    let protocols :=
      match protocols !! Protocol r with
      | Some _ => protocols
      | None => <[Protocol r := ∅]> protocols
      end in
    if String.eqb (PeerIP r) "0.0.0.0" then
      (protocols,
       {| squashedRules := squashedRules sq ++ [r];
          squashedProtocols := {[Protocol r]} ∪ squashedProtocols sq |})
    else
      let ipset := default ∅ (protocols !! Protocol r) in
      match ipset !! PeerIP r with
      | Some _ => (protocols, sq)
      | None => (<[Protocol r := <[PeerIP r := i]> ipset]> protocols, sq)
      end.

(** The maps [in] and [out] and the shared variables of the squasher. *)
Record calc := {
  c_in : gmap Z (gmap string nat);
  c_out : gmap Z (gmap string nat);
  c_sq : squashed
}.

(** The first loop over [networkMap.FirewallRules], from index [i]. *)
Fixpoint calculate (i : nat) (rules : list FirewallRule) (c : calc) : calc :=
  match rules with
  | [] => c
  | r :: rest =>
      let c' :=
        if Direction r =? FirewallRule_IN then
          let '(m, sq) := addRuleToCalculationMap i r (c_in c) (c_sq c) in
          {| c_in := m; c_out := c_out c; c_sq := sq |}
        else
          let '(m, sq) := addRuleToCalculationMap i r (c_out c) (c_sq c) in
          {| c_in := c_in c; c_out := m; c_sq := sq |} in
      calculate (S i) rest c'
  end.

Definition protocolOrders : list Z :=
  [FirewallRule_ALL; FirewallRule_ICMP; FirewallRule_TCP; FirewallRule_UDP].

Definition wildcard (direction protocol : Z) : FirewallRule :=
  {| PeerIP := "0.0.0.0"; Direction := direction;
     Action := FirewallRule_ACCEPT; Protocol := protocol; Port := "" |}.

(** The closure [squash], as a loop over the protocols left to visit. *)
Fixpoint squash (totalIPs : nat) (matches : gmap Z (gmap string nat))
    (direction : Z) (protocols : list Z) (sq : squashed) : squashed :=
  match protocols with
  | [] => sq
  | protocol :: rest =>
      match matches !! protocol with
      | Some ipset =>
          if negb (size ipset =? totalIPs)%nat || (size ipset <? 2)%nat then
            squash totalIPs matches direction rest sq
          else
            let sq' :=
              {| squashedRules := squashedRules sq ++ [wildcard direction protocol];
                 squashedProtocols := {[protocol]} ∪ squashedProtocols sq |} in
            if protocol =? FirewallRule_ALL then sq'
            else squash totalIPs matches direction rest sq'
      | None => squash totalIPs matches direction rest sq
      end
  end.

(** The test of the last loop: is the rule at index [i] left out? *)
Definition isSquashed (c_in c_out : gmap Z (gmap string nat))
    (sp : gset Z) (i : nat) (r : FirewallRule) : bool :=
  if bool_decide (Protocol r ∈ sp) then
    if match c_in !! Protocol r with
       | Some m => (index_of m (PeerIP r) =? i)%nat
       | None => false
       end
    then true
    else match c_out !! Protocol r with
         | Some m => (index_of m (PeerIP r) =? i)%nat
         | None => false
         end
  else false.

Fixpoint filterSquashed (c_in c_out : gmap Z (gmap string nat))
    (sp : gset Z) (i : nat) (rules : list FirewallRule) : list FirewallRule :=
  match rules with
  | [] => []
  | r :: rest =>
      if isSquashed c_in c_out sp i r
      then filterSquashed c_in c_out sp (S i) rest
      else r :: filterSquashed c_in c_out sp (S i) rest
  end.

Definition totalIPs (networkMap : NetworkMap) : nat :=
  fold_left (fun n p => fold_left (fun n _ => S n) (AllowedIps p) n)
    (RemotePeers networkMap ++ OfflinePeers networkMap) 0%nat.

(** The state of the squasher after both calls of [squash]. *)
Definition squashPass (networkMap : NetworkMap) : calc :=
  let c := calculate 0 (FirewallRules networkMap)
             {| c_in := ∅; c_out := ∅;
                c_sq := {| squashedRules := []; squashedProtocols := ∅ |} |} in
  let sq1 := squash (totalIPs networkMap) (c_in c) FirewallRule_IN protocolOrders (c_sq c) in
  let sq2 := squash (totalIPs networkMap) (c_out c) FirewallRule_OUT protocolOrders sq1 in
  {| c_in := c_in c; c_out := c_out c; c_sq := sq2 |}.

Definition squashAcceptRules (networkMap : NetworkMap)
  : list FirewallRule * gset Z :=
  let c := squashPass networkMap in
  let sq := c_sq c in
  if bool_decide (FirewallRule_ALL ∈ squashedProtocols sq) then
    (squashedRules sq, squashedProtocols sq)
  else if (length (squashedRules sq) =? 0)%nat then
    (FirewallRules networkMap, squashedProtocols sq)
  else
    (filterSquashed (c_in c) (c_out c) (squashedProtocols sq) 0
       (FirewallRules networkMap) ++ squashedRules sq,
     squashedProtocols sq).

(** *** The rules [ApplyFiltering] adds to the squasher's list *)

Definition sshRule : FirewallRule :=
  {| PeerIP := "0.0.0.0"; Direction := FirewallRule_IN;
     Action := FirewallRule_ACCEPT; Protocol := FirewallRule_TCP;
     Port := strconv.Itoa ssh.DefaultSSHPort |}.

(** [networkMap.PeerConfig != nil && networkMap.PeerConfig.SshConfig != nil
    && networkMap.PeerConfig.SshConfig.SshEnabled] *)
Definition sshDeclared (networkMap : NetworkMap) : bool :=
  match PeerConfig networkMap with
  | Some pc =>
      match SshConfig pc with
      | Some sc => SshEnabled sc
      | None => false
      end
  | None => false
  end.

Definition enableSSH (networkMap : NetworkMap) (squashedProtocols : gset Z) : bool :=
  let enableSSH := sshDeclared networkMap in
  let enableSSH :=
    if bool_decide (FirewallRule_ALL ∈ squashedProtocols)
    then enableSSH && negb true else enableSSH in
  let enableSSH :=
    if bool_decide (FirewallRule_TCP ∈ squashedProtocols)
    then enableSSH && negb true else enableSSH in
  enableSSH.

Definition allowAll : list FirewallRule :=
  [ {| PeerIP := "0.0.0.0"; Direction := FirewallRule_IN;
       Action := FirewallRule_ACCEPT; Protocol := FirewallRule_ALL; Port := "" |};
    {| PeerIP := "0.0.0.0"; Direction := FirewallRule_OUT;
       Action := FirewallRule_ACCEPT; Protocol := FirewallRule_ALL; Port := "" |} ].

(** The list [rules] of [ApplyFiltering] when its loop starts. *)
Definition effectiveRules (networkMap : NetworkMap) : list FirewallRule :=
  let '(rules, squashedProtocols) := squashAcceptRules networkMap in
  let rules :=
    if enableSSH networkMap squashedProtocols then rules ++ [sshRule] else rules in
  let rules :=
    if (length (FirewallRules networkMap) =? 0)%nat
       && negb (FirewallRulesIsEmpty networkMap)
    then rules ++ allowAll else rules in
  rules.

Definition isError {A E : Type} (res : A + E) : bool :=
  match res with inl _ => false | inr _ => true end.

(** *** The part that talks to the backend *)

Section Manager.
Context {IP Rule B : Type} {ipOps : net.IPOps IP}
  {fwOps : firewall.Manager IP Rule B}.

Definition callAdd (a : firewall.AddArgs IP) (w : Fw IP Rule B)
  : Fw IP Rule B * (list Rule + string) :=
  let '(b, res) := firewall.AddFiltering (fw_state w) a in
  ({| fw_state := b; fw_log := fw_log w ++ [EvAdd a res] |}, res).

Definition callDelete (o : deleteOrigin) (w : Fw IP Rule B) (r : Rule)
  : Fw IP Rule B :=
  let '(b, err) := firewall.DeleteRule (fw_state w) r in
  {| fw_state := b; fw_log := fw_log w ++ [EvDelete o r err] |}.

Definition callFlush (w : Fw IP Rule B) : Fw IP Rule B :=
  let '(b, err) := firewall.Flush (fw_state w) in
  {| fw_state := b; fw_log := fw_log w ++ [EvFlush err] |}.

Definition logApplyFailed (r : FirewallRule) (e : aclError)
    (w : Fw IP Rule B) : Fw IP Rule B :=
  {| fw_state := fw_state w; fw_log := fw_log w ++ [EvApplyFailed r e] |}.

(** [getRuleID]: the identifier string, and its encoding. *)
Definition ruleIDString (ip : IP) (proto : string) (direction : Z)
    (port : option firewall.Port) (action : Z) (comment : string) : string :=
  let idStr :=
    net.IP_String ip +:+ proto +:+ strconv.Itoa direction
      +:+ strconv.Itoa action +:+ comment in
  match port with
  | Some p => idStr +:+ firewall.Port_String p
  | None => idStr
  end.

Definition getRuleID (ip : IP) (proto : string) (direction : Z)
    (port : option firewall.Port) (action : Z) (comment : string) : string :=
  hex.EncodeToString
    (md5.Sum md5.New
       (list_byte_of_string (ruleIDString ip proto direction port action comment))).

Definition addInRules (ip : IP) (protocol : string)
    (port : option firewall.Port) (action : Z) (ipsetName comment : string)
    (w : Fw IP Rule B) : Fw IP Rule B * (list Rule + aclError) :=
  let rules : list Rule := [] in
  let '(w, res) :=
    callAdd (firewall.Build_AddArgs ip protocol None port
               firewall.RuleDirectionIN action ipsetName comment) w in
  match res with
  | inr e => (w, inr (BackendAddFailed e))
  | inl rule =>
      let rules := rules ++ rule in
      if shouldSkipInvertedRule protocol port then (w, inl rules)
      else
        let '(w, res) :=
          callAdd (firewall.Build_AddArgs ip protocol port None
                     firewall.RuleDirectionOUT action ipsetName comment) w in
        match res with
        | inr e => (w, inr (BackendAddFailed e))
        | inl rule => (w, inl (rules ++ rule))
        end
  end.

Definition addOutRules (ip : IP) (protocol : string)
    (port : option firewall.Port) (action : Z) (ipsetName comment : string)
    (w : Fw IP Rule B) : Fw IP Rule B * (list Rule + aclError) :=
  let rules : list Rule := [] in
  let '(w, res) :=
    callAdd (firewall.Build_AddArgs ip protocol None port
               firewall.RuleDirectionOUT action ipsetName comment) w in
  match res with
  | inr e => (w, inr (BackendAddFailed e))
  | inl rule =>
      let rules := rules ++ rule in
      if shouldSkipInvertedRule protocol port then (w, inl rules)
      else
        let '(w, res) :=
          callAdd (firewall.Build_AddArgs ip protocol port None
                     firewall.RuleDirectionIN action ipsetName comment) w in
        match res with
        | inr e => (w, inr (BackendAddFailed e))
        | inl rule => (w, inl (rules ++ rule))
        end
  end.

(** The front of [protoRuleToFirewallRule], up to and including the
    computation of the rule ID; it reads nothing but the rule. *)
Definition translate (r : FirewallRule)
  : (IP * string * Z * option firewall.Port * string) + aclError :=
  match net.ParseIP (PeerIP r) with
  | None => inr InvalidPeerIP
  | Some ip =>
      match convertToFirewallProtocol (Protocol r) with
      | (_, Some e) => inr e
      | (protocol, None) =>
          match convertFirewallAction (Action r) with
          | (_, Some e) => inr e
          | (action, None) =>
              let port :=
                if negb (String.eqb (Port r) "") then
                  match strconv.Atoi (Port r) with
                  | None => inr InvalidPort
                  | Some value =>
                      inl (Some {| firewall.IsRange := false;
                                   firewall.Values := [value] |})
                  end
                else inl None in
              match port with
              | inr e => inr e
              | inl port =>
                  inl (ip, protocol, action, port,
                       getRuleID ip protocol (Direction r) port action "")
              end
          end
      end
  end.

Definition protoRuleToFirewallRule (rulesPairs : gmap string (list Rule))
    (r : FirewallRule) (ipsetName : string) (w : Fw IP Rule B)
  : Fw IP Rule B * ((string * list Rule) + aclError) :=
  match translate r with
  | inr e => (w, inr e)
  | inl (ip, protocol, action, port, ruleID) =>
      match rulesPairs !! ruleID with
      | Some rulesPair => (w, inl (ruleID, rulesPair))
      | None =>
          if Direction r =? FirewallRule_IN then
            let '(w, res) := addInRules ip protocol port action ipsetName "" w in
            match res with
            | inr e => (w, inr e)
            | inl rules => (w, inl (ruleID, rules))
            end
          else if Direction r =? FirewallRule_OUT then
            let '(w, res) := addOutRules ip protocol port action ipsetName "" w in
            match res with
            | inr e => (w, inr e)
            | inl rules => (w, inl (ruleID, rules))
            end
          else (w, inr InvalidDirection)
      end
  end.

Definition deleteRules (o : deleteOrigin) (w : Fw IP Rule B)
    (rules : list Rule) : Fw IP Rule B :=
  fold_left (callDelete o) rules w.

(** [rollBack]; a Go map is visited in an order the language leaves open,
    here in the order of [map_to_list]. *)
Definition rollBack (newRulePairs : gmap string (list Rule))
    (w : Fw IP Rule B) : Fw IP Rule B :=
  fold_left (fun w kv => deleteRules Rollback w kv.2)
    (map_to_list newRulePairs) w.

(** The IP-set name for a selector: the one of the map, or a new one. *)
Definition ipsetNameFor (selector : string) (s : loopState IP Rule B)
  : string * loopState IP Rule B :=
  match ls_ipsets s !! selector with
  | Some ipsetName => (ipsetName, s)
  | None =>
      let counter := goint.incr (ls_counter s) in
      let ipsetName := fmt.Sprintf_nb07d counter in
      (ipsetName,
       {| ls_fw := ls_fw s; ls_counter := counter;
          ls_rulesPairs := ls_rulesPairs s;
          ls_newRulePairs := ls_newRulePairs s;
          ls_ipsets := <[selector := ipsetName]> (ls_ipsets s);
          ls_named := ls_named s |})
  end.

(** The loop [for _, r := range rules] of [ApplyFiltering] over the rules
    left to visit; [all] is the whole list, whose length the body tests. *)
Fixpoint installRules (all rules : list FirewallRule)
    (s : loopState IP Rule B) : loopState IP Rule B :=
  match rules with
  | [] => s
  | r :: rest =>
      let selector := getRuleGroupingSelector r in
      let '(ipsetName, s) := ipsetNameFor selector s in
      let named := ls_named s ++ [(r, ipsetName)] in
      let '(w, res) :=
        protoRuleToFirewallRule (ls_rulesPairs s) r ipsetName (ls_fw s) in
      match res with
      | inr err =>
          (* log, roll back, break *)
          {| ls_fw := rollBack (ls_newRulePairs s) (logApplyFailed r err w);
             ls_counter := ls_counter s;
             ls_rulesPairs := ls_rulesPairs s;
             ls_newRulePairs := ls_newRulePairs s;
             ls_ipsets := ls_ipsets s;
             ls_named := named |}
      | inl (pairID, rulePair) =>
          let s' :=
            if (0 <? length all)%nat then
              {| ls_fw := w; ls_counter := ls_counter s;
                 ls_rulesPairs := <[pairID := rulePair]> (ls_rulesPairs s);
                 ls_newRulePairs := <[pairID := rulePair]> (ls_newRulePairs s);
                 ls_ipsets := ls_ipsets s;
                 ls_named := named |}
            else
              {| ls_fw := w; ls_counter := ls_counter s;
                 ls_rulesPairs := ls_rulesPairs s;
                 ls_newRulePairs := ls_newRulePairs s;
                 ls_ipsets := ls_ipsets s;
                 ls_named := named |} in
          installRules all rest s'
      end
  end.

(** The loop [for pairID, rules := range d.rulesPairs] that deletes the
    pairs absent from [newRulePairs]. *)
Definition removeStale (newRulePairs rulesPairs : gmap string (list Rule))
    (w : Fw IP Rule B) : Fw IP Rule B * gmap string (list Rule) :=
  fold_left
    (fun acc kv =>
       match newRulePairs !! kv.1 with
       | Some _ => acc
       | None => (deleteRules Stale acc.1 kv.2, delete kv.1 acc.2)
       end)
    (map_to_list rulesPairs) (w, rulesPairs).

(** The variables when the loop starts: [newRulePairs] and
    [ipsetByRuleSelectors] are fresh maps. *)
Definition loopStart (d : DefaultManager Rule B) (b : B)
  : loopState IP Rule B :=
  {| ls_fw := {| fw_state := b; fw_log := [] |};
     ls_counter := ipsetCounter d;
     ls_rulesPairs := rulesPairs d;
     ls_newRulePairs := ∅;
     ls_ipsets := ∅;
     ls_named := [] |}.

(** [ApplyFiltering] from the point where the rule list is known. *)
Definition applyRules (d : DefaultManager Rule B) (b : B)
    (rules : list FirewallRule) : run IP Rule B :=
  let s := installRules rules rules (loopStart d b) in
  let '(w, _) := removeStale (ls_newRulePairs s) (ls_rulesPairs s) (ls_fw s) in
  (* d.rulesPairs = newRulePairs, then the deferred Flush *)
  let w := callFlush w in
  {| r_manager :=
       {| d_firewall := Some (fw_state w);
          ipsetCounter := ls_counter s;
          rulesPairs := ls_newRulePairs s |};
     r_events := fw_log w;
     r_ipsets := ls_ipsets s;
     r_named := ls_named s |}.

(** [ApplyFiltering], with the locals a statement may need. *)
Definition ApplyFiltering_run (d : DefaultManager Rule B)
    (networkMap : NetworkMap) : run IP Rule B :=
  match d_firewall d with
  | None =>
      {| r_manager := d; r_events := []; r_ipsets := ∅; r_named := [] |}
  | Some b => applyRules d b (effectiveRules networkMap)
  end.

(** [ApplyFiltering]: the manager afterwards and the events of the call. *)
Definition ApplyFiltering (d : DefaultManager Rule B)
    (networkMap : NetworkMap)
  : DefaultManager Rule B * list (event IP Rule) :=
  let r := ApplyFiltering_run d networkMap in
  (r_manager r, r_events r).

(** Successive calls on one manager: each call with the manager it
    started from. *)
Fixpoint calls (d : DefaultManager Rule B) (nms : list NetworkMap)
  : list (DefaultManager Rule B * run IP Rule B) :=
  match nms with
  | [] => []
  | nm :: rest =>
      let r := ApplyFiltering_run d nm in
      (d, r) :: calls (r_manager r) rest
  end.

(** How the loop runs on [rules] when the pairs it needs are in [R] and
    no call on the backend is needed: each rule is found in [R], up to a
    rule that fails without a call.  [hits] are the IDs found. *)
Fixpoint hits (R : gmap string (list Rule)) (rules : list FirewallRule)
  : list string :=
  match rules with
  | [] => []
  | r :: rest =>
      match translate r with
      | inl (_, _, _, _, ruleID) =>
          match R !! ruleID with
          | Some _ => ruleID :: hits R rest
          | None => []
          end
      | inr _ => []
      end
  end.

Fixpoint quiet (R : gmap string (list Rule)) (rules : list FirewallRule)
  : Prop :=
  match rules with
  | [] => True
  | r :: rest =>
      match translate r with
      | inl (_, _, _, _, ruleID) =>
          match R !! ruleID with
          | Some _ => quiet R rest
          | None =>
              Direction r <> FirewallRule_IN /\ Direction r <> FirewallRule_OUT
          end
      | inr _ => True
      end
  end.

End Manager.

(** *** Reading the log *)

Definition isAddCall {IP Rule : Type} (ev : event IP Rule) : bool :=
  match ev with EvAdd _ _ => true | _ => false end.

Definition isFailedAdd {IP Rule : Type} (ev : event IP Rule) : bool :=
  match ev with EvAdd _ (inr _) => true | _ => false end.

Definition isStaleDelete {IP Rule : Type} (ev : event IP Rule) : bool :=
  match ev with EvDelete Stale _ _ => true | _ => false end.

Definition isApplyFailed {IP Rule : Type} (ev : event IP Rule) : bool :=
  match ev with EvApplyFailed _ _ => true | _ => false end.

(** The log of [w'] is the log of [w] followed by events that satisfy [P]. *)
Definition extends {IP Rule B : Type} (w w' : Fw IP Rule B)
    (P : event IP Rule -> Prop) : Prop :=
  exists evs, fw_log w' = fw_log w ++ evs /\ Forall P evs.

(** *** The bookkeeping of IP-set names

    [c0] is the counter when the call started, [c] the counter now. *)
Definition names_ok (c0 c : Z) (ipsets : gmap string string)
    (named : list (FirewallRule * string)) : Prop :=
  c = c0 + Z.of_nat (size ipsets)
  /\ (forall sel n, ipsets !! sel = Some n ->
        exists k, c0 < k <= c /\ n = fmt.Sprintf_nb07d k)
  /\ (forall s1 s2 n, ipsets !! s1 = Some n -> ipsets !! s2 = Some n -> s1 = s2)
  /\ (forall r n, In (r, n) named -> ipsets !! getRuleGroupingSelector r = Some n)
  /\ (forall sel, is_Some (ipsets !! sel) ->
        exists r n, In (r, n) named /\ getRuleGroupingSelector r = sel).

(** The calls of a sequence, one after the other: each starts from a
    counter at least [c], keeps the books of its names, and hands its
    counter to the next. *)
Fixpoint chain {IP Rule B : Type} (c : Z)
    (cs : list (DefaultManager Rule B * run IP Rule B)) : Prop :=
  match cs with
  | [] => True
  | (before, r) :: rest =>
      c <= ipsetCounter before
      /\ names_ok (ipsetCounter before) (ipsetCounter (r_manager r))
           (r_ipsets r) (r_named r)
      /\ chain (ipsetCounter (r_manager r)) rest
  end.

(** *** The entries of the squasher's maps

    Every entry [ip -> i] under a protocol comes from the rule at index [i],
    an ACCEPT rule without port for that protocol and that peer, inbound for
    the map [in] and not inbound for the map [out]. *)
Definition recorded (all : list FirewallRule) (m : gmap Z (gmap string nat))
    (inbound : bool) : Prop :=
  forall P ips ip i, m !! P = Some ips -> ips !! ip = Some i ->
    exists r, all !! i = Some r /\ Protocol r = P /\ PeerIP r = ip
      /\ (Direction r =? FirewallRule_IN) = inbound
      /\ isDrop r = false /\ PeerIP r <> "0.0.0.0"%string.

(** *** Reading the squasher *)

(** The test [squash] makes for one protocol: its record has as many peers
    as there are allowed IPs, and two at least. *)
Definition covers (total : nat) (m : gmap Z (gmap string nat)) (protocol : Z) : bool :=
  match m !! protocol with
  | Some ipset => (size ipset =? total)%nat && negb (size ipset <? 2)%nat
  | None => false
  end.

(** The protocols that pass the test: ALL alone when it passes, otherwise
    those of ICMP, TCP and UDP that pass, in the order [squash] visits them. *)
Definition squashable (total : nat) (m : gmap Z (gmap string nat)) : list Z :=
  if covers total m FirewallRule_ALL then [FirewallRule_ALL]
  else List.filter (covers total m) [FirewallRule_ICMP; FirewallRule_TCP; FirewallRule_UDP].

(** A rule for the wildcard address that [addRuleToCalculationMap] takes
    as squashed already: no DROP action, no port, peer IP 0.0.0.0. *)
Definition isWildcardAccept (r : FirewallRule) : bool :=
  negb (isDrop r) && String.eqb (PeerIP r) "0.0.0.0".

(** The map [in] or the map [out] of the squasher. *)
Definition mapOf (c : calc) (inbound : bool) : gmap Z (gmap string nat) :=
  if inbound then c_in c else c_out c.

(** The direction [squash] is called with for the map [in] or [out]. *)
Definition directionOf (inbound : bool) : Z :=
  if inbound then FirewallRule_IN else FirewallRule_OUT.

(** The allowed IPs that [totalIPs] counts, one entry per occurrence. *)
Definition allowedIPs (networkMap : NetworkMap) : list string :=
  concat (map AllowedIps (RemotePeers networkMap ++ OfflinePeers networkMap)).

(** A wildcard rule for [protocol] is backed by the rules of the network
    map: as many different peer IPs as there are allowed IPs, two at least,
    each with a rule of this protocol without DROP and without port,
    inbound for [inbound = true] and not inbound otherwise. *)
Definition backed (networkMap : NetworkMap) (inbound : bool) (protocol : Z) : Prop :=
  (2 <= length (allowedIPs networkMap))%nat
  /\ exists ips : list string,
       NoDup ips /\ length ips = length (allowedIPs networkMap)
       /\ forall ip, In ip ips ->
            exists r, In r (FirewallRules networkMap)
              /\ Protocol r = protocol /\ PeerIP r = ip
              /\ (Direction r =? FirewallRule_IN) = inbound
              /\ isDrop r = false /\ ip <> "0.0.0.0"%string.


(** *** Reading the calls of a run *)

Definition isFlush {IP Rule : Type} (ev : event IP Rule) : bool :=
  match ev with EvFlush _ => true | _ => false end.

(** The handles passed to [DeleteRule] for the reason [o], in the order of
    the calls. *)
Definition deleted {IP Rule : Type} (o : deleteOrigin)
    (evs : list (event IP Rule)) : list Rule :=
  flat_map (fun ev => match ev, o with
                      | EvDelete Rollback h _, Rollback => [h]
                      | EvDelete Stale h _, Stale => [h]
                      | _, _ => []
                      end) evs.

(** [evs] are [DeleteRule] calls for the reason [o], one for each handle
    of [hs], in this order. *)
Definition deletes {IP Rule : Type} (o : deleteOrigin) (hs : list Rule)
    (evs : list (event IP Rule)) : Prop :=
  Forall2 (fun h ev => exists err, ev = EvDelete o h err) hs evs.

(** The handles [hs] are what one successful [AddFiltering] call of [evs]
    returned, or what two of them returned, one list after the other. *)
Definition fromBackend {IP Rule : Type} (evs : list (event IP Rule))
    (hs : list Rule) : Prop :=
  exists a1 h1, In (EvAdd a1 (inl h1)) evs
    /\ (hs = h1 \/ exists a2 h2, In (EvAdd a2 (inl h2)) evs /\ hs = h1 ++ h2).

(** The arguments of the two calls [addInRules] ([inbound = true]) and
    [addOutRules] ([inbound = false]) can make with an empty comment. *)
Definition primaryCall {IP : Type} (inbound : bool) (ip : IP) (protocol : string)
    (port : option firewall.Port) (action : Z) (ipsetName : string)
  : firewall.AddArgs IP :=
  firewall.Build_AddArgs ip protocol None port
    (if inbound then firewall.RuleDirectionIN else firewall.RuleDirectionOUT)
    action ipsetName "".

Definition companionCall {IP : Type} (inbound : bool) (ip : IP) (protocol : string)
    (port : option firewall.Port) (action : Z) (ipsetName : string)
  : firewall.AddArgs IP :=
  firewall.Build_AddArgs ip protocol port None
    (if inbound then firewall.RuleDirectionOUT else firewall.RuleDirectionIN)
    action ipsetName "".


(** The call [a] is one that [protoRuleToFirewallRule] makes for [rule]
    with the IP-set name [n]: the rule translates, with the rule ID
    [ruleID], its direction is IN or OUT, and [a] is the primary call of
    [addInRules] or [addOutRules] for the translated fields or, when the
    companion is not skipped, the companion call. *)
Definition callFor {IP : Type} {ipOps : net.IPOps IP} (rule : FirewallRule)
    (n ruleID : string) (a : firewall.AddArgs IP) : Prop :=
  exists ip protocol action port (inbound : bool),
    translate rule = inl (ip, protocol, action, port, ruleID)
    /\ Direction rule = directionOf inbound
    /\ (a = primaryCall inbound ip protocol port action n
        \/ (shouldSkipInvertedRule protocol port = false
            /\ a = companionCall inbound ip protocol port action n)).


(** *** Reading a rule identifier *)

(** The characters of the text of an IP address: hexadecimal digits, dots
    and colons. *)
Definition isIPChar (c : ascii) : bool :=
  existsb (Ascii.eqb c) (list_ascii_of_string "0123456789abcdefABCDEF.:").

Fixpoint isIPText (s : string) : bool :=
  match s with
  | EmptyString => true
  | String c s' => isIPChar c && isIPText s'
  end.

(** The text of a port as [getRuleID] appends it. *)
Definition portText (port : option firewall.Port) : string :=
  match port with
  | Some p => firewall.Port_String p
  | None => ""
  end.

(** A text cut at its first letter p or l: what comes before, and the
    rest from that letter on. *)
Definition is_pl (c : ascii) : bool := Ascii.eqb c "p" || Ascii.eqb c "l".

Fixpoint before_pl (s : string) : string :=
  match s with
  | EmptyString => EmptyString
  | String c s' => if is_pl c then EmptyString else String c (before_pl s')
  end.

Fixpoint from_pl (s : string) : string :=
  match s with
  | EmptyString => EmptyString
  | String c s' => if is_pl c then s else from_pl s'
  end.


End acl.

(** Network maps and managers for the closed examples. *)
Module examples.
Import mgmProto acl testenv.

Definition rule (ip : string) (direction action protocol : Z) (port : string)
  : FirewallRule :=
  {| PeerIP := ip; Direction := direction; Action := action;
     Protocol := protocol; Port := port |}.

Definition peer (ip : string) : RemotePeerConfig := {| AllowedIps := [ip] |}.

Definition twoPeers : list RemotePeerConfig := [peer "10.0.0.1"; peer "10.0.0.2"].

Definition networkMap (peers : list RemotePeerConfig)
    (rules : list FirewallRule) : NetworkMap :=
  {| PeerConfig := None; RemotePeers := peers; OfflinePeers := [];
     FirewallRules := rules; FirewallRulesIsEmpty := false |}.

(** A network map with its SSH flag and its "rules are empty" flag. *)
Definition networkMapWith (sshEnabled : bool) (peers : list RemotePeerConfig)
    (rules : list FirewallRule) (rulesIsEmpty : bool) : NetworkMap :=
  {| PeerConfig := Some {| SshConfig := Some {| SshEnabled := sshEnabled |} |};
     RemotePeers := peers; OfflinePeers := [];
     FirewallRules := rules; FirewallRulesIsEmpty := rulesIsEmpty |}.

(** A manager on a scripted backend, as [NewDefaultManager] returns it. *)
Definition manager (sc : list bool) : DefaultManager nat backend :=
  NewDefaultManager (Some (fresh sc)).

Definition apply (d : DefaultManager nat backend) (nm : NetworkMap)
  : run (list Z) nat backend :=
  ApplyFiltering_run d nm.

(** Three accept-all rules for three peers. *)
Definition ruleA : FirewallRule :=
  rule "10.0.0.1" FirewallRule_IN FirewallRule_ACCEPT FirewallRule_ALL "".
Definition ruleB : FirewallRule :=
  rule "10.0.0.3" FirewallRule_IN FirewallRule_ACCEPT FirewallRule_ALL "".
Definition ruleC : FirewallRule :=
  rule "10.0.0.2" FirewallRule_IN FirewallRule_ACCEPT FirewallRule_ALL "".

Definition idA : string :=
  "31302e302e302e31616c6c3030d41d8cd98f00b204e9800998ecf8427e".
Definition idC : string :=
  "31302e302e302e32616c6c3030d41d8cd98f00b204e9800998ecf8427e".

Definition argsB : firewall.AddArgs (list Z) :=
  firewall.Build_AddArgs [10; 0; 0; 3] "all" None None
    firewall.RuleDirectionIN firewall.ActionAccept "nb0000002" "".

(** TCP rules for the squasher. *)
Definition tcpIn (ip : string) (action : Z) : FirewallRule :=
  rule ip FirewallRule_IN action FirewallRule_TCP "".
Definition tcpOut (ip : string) (action : Z) : FirewallRule :=
  rule ip FirewallRule_OUT action FirewallRule_TCP "".

Definition port80 : firewall.Port :=
  {| firewall.IsRange := false; firewall.Values := [80] |}.

End examples.

(* ===================================================================== *)
(** * Properties *)
(* ===================================================================== *)

(** ** The library functions on samples *)

Example md5_abc :
  hex.EncodeToString (md5.checkSum (list_byte_of_string "abc"))
  = "900150983cd24fb0d6963f7d28e17f72"%string.
Proof. vm_compute. reflexivity. Qed.

Example md5_two_blocks :
  hex.EncodeToString (md5.checkSum (repeat "a"%byte 70))
  = "0f5c6c4e740bfcc08c3c26ccb2673d46"%string.
Proof. vm_compute. reflexivity. Qed.

Example Itoa_samples :
  strconv.Itoa 0 = "0"%string /\ strconv.Itoa 22 = "22"%string
  /\ strconv.Itoa (-5) = "-5"%string.
Proof. repeat split. Qed.

Example Atoi_samples :
  strconv.Atoi "80" = Some 80 /\ strconv.Atoi "+080" = Some 80
  /\ strconv.Atoi "-1" = Some (-1) /\ strconv.Atoi "" = None
  /\ strconv.Atoi "8o" = None /\ strconv.Atoi "-" = None
  /\ strconv.Atoi "9223372036854775808" = None.
Proof. repeat split. Qed.

Example Sprintf_samples :
  fmt.Sprintf_nb07d 1 = "nb0000001"%string
  /\ fmt.Sprintf_nb07d 9999999 = "nb9999999"%string
  /\ fmt.Sprintf_nb07d 10000000 = "nb10000000"%string
  /\ fmt.Sprintf_nb07d (-5) = "nb-000005"%string.
Proof. repeat split. Qed.

Example ParseIPv4_samples :
  testenv.ParseIPv4 "10.0.0.1" = Some [10; 0; 0; 1]
  /\ testenv.ParseIPv4 "0.0.0.0" = Some [0; 0; 0; 0]
  /\ testenv.ParseIPv4 "10.0.0" = None
  /\ testenv.ParseIPv4 "10.0.0.256" = None
  /\ testenv.ParseIPv4 "peer-a" = None
  /\ testenv.dotted [10; 0; 0; 1] = "10.0.0.1"%string.
Proof. repeat split. Qed.

Import mgmProto acl.

(* ===================================================================== *)
(** ** Rule identifiers *)
(* ===================================================================== *)

Lemma hex_byte_roundtrip (b : byte) :
  hex.unnibble (hex.nibble (N.shiftr (Byte.to_N b) 4)) = Some (N.shiftr (Byte.to_N b) 4)
  /\ hex.unnibble (hex.nibble (N.land (Byte.to_N b) 15)) = Some (N.land (Byte.to_N b) 15)
  /\ Byte.of_N (16 * N.shiftr (Byte.to_N b) 4 + N.land (Byte.to_N b) 15) = Some b.
Proof. destruct b; vm_compute; repeat split. Qed.

Lemma hex_decode_encode (bs : list byte) :
  hex.DecodeString (hex.EncodeToString bs) = Some bs.
Proof.
  induction bs as [|b bs IH]; [reflexivity|].
  destruct (hex_byte_roundtrip b) as (Hhi & Hlo & Hb).
  cbn [hex.EncodeToString hex.DecodeString].
  rewrite Hhi, Hlo, IH, Hb. reflexivity.
Qed.

Lemma hex_encode_inj (xs ys : list byte) :
  hex.EncodeToString xs = hex.EncodeToString ys -> xs = ys.
Proof.
  intros E. apply (f_equal hex.DecodeString) in E.
  rewrite !hex_decode_encode in E. congruence.
Qed.

Lemma list_byte_of_string_inj (s t : string) :
  list_byte_of_string s = list_byte_of_string t -> s = t.
Proof.
  intros E. apply (f_equal string_of_list_byte) in E.
  now rewrite !string_of_list_byte_of_string in E.
Qed.

Lemma append_empty_r (s : string) : s +:+ "" = s.
Proof.
  induction s as [|a s IH]; [reflexivity|].
  change (String a (s +:+ "") = String a s). now f_equal.
Qed.

Lemma md5_empty :
  md5.checkSum [] =
  [xd4; x1d; x8c; xd9; x8f; x00; xb2; x04; xe9; x80; x09; x98; xec; xf8; x42; x7e].
Proof. vm_compute. reflexivity. Qed.

Section RuleID.
Context {IP : Type} {ipOps : net.IPOps IP}.

(** C9. [getRuleID] is the hex encoding of the bytes of the identifier
    string (the peer IP text, the protocol, the direction, the action, the
    comment, and the port text when there is a port) followed by the
    16-byte MD5 digest of the empty input; hence two calls return the same
    ID exactly when their identifier strings are equal. *)
Theorem getRuleID_is_hex_of_id_and_empty_digest
    (ip : IP) (proto : string) (direction : Z)
    (port : option firewall.Port) (action : Z) (comment : string) :
  let idStr :=
    (net.IP_String ip +:+ proto +:+ strconv.Itoa direction
       +:+ strconv.Itoa action +:+ comment)
      +:+ match port with Some p => firewall.Port_String p | None => "" end in
  getRuleID ip proto direction port action comment
  = hex.EncodeToString (list_byte_of_string idStr ++ md5.checkSum [])
  /\ length (md5.checkSum []) = 16%nat
  /\ hex.EncodeToString (md5.checkSum []) = "d41d8cd98f00b204e9800998ecf8427e"%string
  /\ ruleIDString ip proto direction port action comment = idStr
  /\ forall (ip' : IP) proto' direction' port' action' comment',
       getRuleID ip proto direction port action comment
       = getRuleID ip' proto' direction' port' action' comment'
       <-> ruleIDString ip proto direction port action comment
           = ruleIDString ip' proto' direction' port' action' comment'.
Proof.
  intros idStr.
  assert (Hid : ruleIDString ip proto direction port action comment = idStr).
  { unfold ruleIDString, idStr. destruct port; [reflexivity|].
    symmetry. apply append_empty_r. }
  split; [|split; [|split; [|split]]].
  - unfold getRuleID, md5.Sum, md5.New. now rewrite Hid.
  - now rewrite md5_empty.
  - now rewrite md5_empty.
  - exact Hid.
  - intros ip' proto' direction' port' action' comment'.
    unfold getRuleID, md5.Sum, md5.New. split.
    + intros E. apply hex_encode_inj, app_inv_tail in E.
      now apply list_byte_of_string_inj.
    + now intros ->.
Qed.

End RuleID.

(* ===================================================================== *)
(** ** The rules added to the squasher's list *)
(* ===================================================================== *)

(** C7. The rule list of [ApplyFiltering] is the squasher's list, then the
    rule (0.0.0.0, IN, ACCEPT, TCP, port 22) exactly when the peer config
    declares SSH enabled and neither ALL nor TCP is among the squashed
    protocols, then the two allow-all rules of the legacy case. *)
Theorem ssh_rule_appended_iff_enabled_and_not_squashed (networkMap : NetworkMap) :
  let rules := (squashAcceptRules networkMap).1 in
  let squashedProtocols := (squashAcceptRules networkMap).2 in
  let legacy :=
    if (length (FirewallRules networkMap) =? 0)%nat
       && negb (FirewallRulesIsEmpty networkMap)
    then allowAll else [] in
  effectiveRules networkMap
  = rules
      ++ (if sshDeclared networkMap
             && negb (bool_decide (FirewallRule_ALL ∈ squashedProtocols))
             && negb (bool_decide (FirewallRule_TCP ∈ squashedProtocols))
          then [sshRule] else [])
      ++ legacy
  /\ sshRule = {| PeerIP := "0.0.0.0"; Direction := FirewallRule_IN;
                  Action := FirewallRule_ACCEPT; Protocol := FirewallRule_TCP;
                  Port := "22" |}.
Proof.
  split; [|reflexivity].
  unfold effectiveRules, enableSSH.
  destruct (squashAcceptRules networkMap) as [rules sp]; cbn [fst snd].
  destruct (sshDeclared networkMap);
    destruct (bool_decide (FirewallRule_ALL ∈ sp));
    destruct (bool_decide (FirewallRule_TCP ∈ sp));
    destruct ((length (FirewallRules networkMap) =? 0)%nat
              && negb (FirewallRulesIsEmpty networkMap));
    cbn; rewrite ?app_nil_r, <- ?app_assoc; reflexivity.
Qed.

(* ===================================================================== *)
(** ** Calls on the backend *)
(* ===================================================================== *)

Section Backend.
Context {IP Rule B : Type} {ipOps : net.IPOps IP}
  {fwOps : firewall.Manager IP Rule B}.

(** C10. Without a backend [ApplyFiltering] returns at once: no
    [AddFiltering], [DeleteRule] or [Flush] call is made, and the manager,
    with its map of rule pairs and its counter, is the one it was. *)
Theorem ApplyFiltering_without_backend
    (d : DefaultManager Rule B) (networkMap : NetworkMap) :
  d_firewall d = None ->
  ApplyFiltering (IP := IP) d networkMap = (d, [])
  /\ rulesPairs (ApplyFiltering (IP := IP) d networkMap).1 = rulesPairs d
  /\ ipsetCounter (ApplyFiltering (IP := IP) d networkMap).1 = ipsetCounter d.
Proof.
  intros Hnil. unfold ApplyFiltering, ApplyFiltering_run.
  rewrite Hnil. cbn. auto.
Qed.

(** C6 (as amended). [addInRules] and [addOutRules] first make the primary
    call.  That is the only call when the protocol is ALL or ICMP, when
    the rule has no port, or when the primary call fails; otherwise a
    second call follows, in the opposite direction, with the port moved
    from the destination to the source, and the same peer IP, protocol,
    action, IP-set name and comment. *)
Theorem add_rules_calls
    (ip : IP) (protocol : string) (port : option firewall.Port)
    (action : Z) (ipsetName comment : string) (w : Fw IP Rule B) :
  let calls dir1 dir2 :=
    let primary :=
      firewall.Build_AddArgs ip protocol None port dir1 action ipsetName comment in
    let companion :=
      firewall.Build_AddArgs ip protocol port None dir2 action ipsetName comment in
    let r1 := firewall.AddFiltering (fw_state w) primary in
    let r2 := firewall.AddFiltering r1.1 companion in
    EvAdd primary r1.2
      :: (if shouldSkipInvertedRule protocol port || isError r1.2
          then [] else [EvAdd companion r2.2]) in
  fw_log (addInRules ip protocol port action ipsetName comment w).1
  = fw_log w ++ calls firewall.RuleDirectionIN firewall.RuleDirectionOUT
  /\ fw_log (addOutRules ip protocol port action ipsetName comment w).1
     = fw_log w ++ calls firewall.RuleDirectionOUT firewall.RuleDirectionIN
  /\ (shouldSkipInvertedRule protocol port = true
      <-> protocol = firewall.ProtocolALL \/ protocol = firewall.ProtocolICMP
          \/ port = None).
Proof.
  cbv zeta. split; [|split].
  - unfold addInRules, callAdd.
    destruct (firewall.AddFiltering (fw_state w) _) as [b1 [h1|e1]]; cbn;
      [|now rewrite orb_true_r].
    destruct (shouldSkipInvertedRule protocol port); cbn; [reflexivity|].
    destruct (firewall.AddFiltering b1 _) as [b2 [h2|e2]]; cbn;
      now rewrite <- app_assoc.
  - unfold addOutRules, callAdd.
    destruct (firewall.AddFiltering (fw_state w) _) as [b1 [h1|e1]]; cbn;
      [|now rewrite orb_true_r].
    destruct (shouldSkipInvertedRule protocol port); cbn; [reflexivity|].
    destruct (firewall.AddFiltering b1 _) as [b2 [h2|e2]]; cbn;
      now rewrite <- app_assoc.
  - unfold shouldSkipInvertedRule. rewrite !orb_true_iff, !String.eqb_eq.
    destruct port; intuition congruence.
Qed.

End Backend.

(* ===================================================================== *)
(** ** Closed runs *)
(* ===================================================================== *)

Section ClosedRuns.
Import testenv examples.
Local Open Scope string_scope.

(** The rule lists of five small network maps: an empty map of an old
    management service, an empty map, SSH enabled, TCP accepted from both
    peers, and the same with one DROP rule. *)
Example effectiveRules_samples :
  effectiveRules (networkMapWith false [] [] false) = allowAll
  /\ effectiveRules (networkMapWith false [] [] true) = []
  /\ effectiveRules (networkMapWith true [] [] true) = [sshRule]
  /\ effectiveRules
       (networkMapWith false twoPeers
          [tcpIn "10.0.0.1" FirewallRule_ACCEPT; tcpIn "10.0.0.2" FirewallRule_ACCEPT]
          false)
     = [wildcard FirewallRule_IN FirewallRule_TCP]
  /\ effectiveRules
       (networkMapWith false twoPeers
          [tcpIn "10.0.0.1" FirewallRule_ACCEPT; tcpIn "10.0.0.2" FirewallRule_DROP]
          false)
     = [tcpIn "10.0.0.1" FirewallRule_ACCEPT; tcpIn "10.0.0.2" FirewallRule_DROP].
Proof. vm_compute. repeat split. Qed.

(** The SSH rule has a port: two calls, and one pair of two handles. *)
Example ssh_rule_installed :
  let r := apply (manager []) (networkMapWith true [] [] true) in
  length (List.filter isAddCall (r_events r)) = 2%nat
  /\ map snd (map_to_list (rulesPairs (r_manager r))) = [[0%nat; 1%nat]].
Proof. vm_compute. repeat split. Qed.

(** C1 (run of the code at the failing input).  Rules A and C are
    installed by a first call.  The second call brings A and a rule B
    whose [AddFiltering] call fails.  [rollBack] then deletes the handle
    of A, which this call only reused; the loop over the old pairs deletes
    the handle of C; and the map of the manager afterwards holds A alone,
    with a handle the backend no longer has. *)
Theorem failed_add_deletes_earlier_rules :
  let d1 := r_manager (apply (manager [true; true; false])
                         (networkMap [] [ruleA; ruleC])) in
  let r2 := apply d1 (networkMap [] [ruleA; ruleB]) in
  rulesPairs d1 = {[ idA := [0%nat]; idC := [1%nat] ]}
  /\ r_events r2
     = [ EvAdd argsB (inr "backend refused the rule");
         EvApplyFailed ruleB (BackendAddFailed "backend refused the rule");
         EvDelete Rollback 0%nat None;
         EvDelete Stale 1%nat None;
         EvFlush None ]
  /\ rulesPairs (r_manager r2) = {[ idA := [0%nat] ]}
  /\ (testenv.live <$> d_firewall (r_manager r2)) = Some [].
Proof. cbv zeta. repeat split; vm_compute; reflexivity. Qed.

(** C3 (run of the code at the failing input).  With two peers, a DROP
    rule for TCP inbound followed by ACCEPT rules for both peers: the
    squasher still emits the wildcard rule for TCP inbound. *)
Theorem accept_after_drop_is_squashed :
  (squashAcceptRules
     (networkMap twoPeers
        [ tcpIn "10.0.0.1" FirewallRule_DROP;
          tcpIn "10.0.0.1" FirewallRule_ACCEPT;
          tcpIn "10.0.0.2" FirewallRule_ACCEPT ])).1
  = [ tcpIn "10.0.0.1" FirewallRule_DROP;
      wildcard FirewallRule_IN FirewallRule_TCP ].
Proof. vm_compute. reflexivity. Qed.

(** C2 (counterexample).  The first rule has a peer IP that does not
    parse, the second rule is well formed and the backend accepts every
    rule: the loop stops at the first rule, the second one is never
    reached and nothing is installed. *)
Lemma invalid_rule_stops_the_loop :
  let bad := tcpIn "peer-a" FirewallRule_ACCEPT in
  let good := tcpIn "10.0.0.2" FirewallRule_ACCEPT in
  let r := apply (manager []) (networkMap [] [bad; good]) in
  effectiveRules (networkMap [] [bad; good]) = [bad; good]
  /\ translate (IP := list Z) bad = inr InvalidPeerIP
  /\ isError (translate (IP := list Z) good) = false
  /\ r_events r = [EvApplyFailed bad InvalidPeerIP; EvFlush None]
  /\ ~ In good (map fst (r_named r))
  /\ rulesPairs (r_manager r) = ∅.
Proof.
  vm_compute. repeat split; try reflexivity.
  intros [H|[]]. discriminate H.
Qed.


(** C5 (counterexample).  A backend that refuses the rule in the first
    call is asked again in the second call of the same network map. *)
Lemma second_call_adds_again_after_failure :
  let nm := networkMap [] [ruleA] in
  let r1 := apply (manager [false]) nm in
  let r2 := apply (r_manager r1) nm in
  let args name :=
    firewall.Build_AddArgs [10; 0; 0; 1] "all" None None
      firewall.RuleDirectionIN firewall.ActionAccept name "" in
  r_events r1
  = [ EvAdd (args "nb0000001") (inr "backend refused the rule");
      EvApplyFailed ruleA (BackendAddFailed "backend refused the rule");
      EvFlush None ]
  /\ r_events r2 = [EvAdd (args "nb0000002") (inl [0%nat]); EvFlush None]
  /\ List.filter isAddCall (r_events r2) <> [].
Proof. vm_compute. repeat split. discriminate. Qed.

(** C6 (counterexample).  A TCP rule with a port whose primary call
    fails: one call is made, not two. *)
Lemma failed_primary_call_has_no_companion :
  let w := {| fw_state := testenv.fresh [false]; fw_log := [] |} in
  let res := addInRules [10; 0; 0; 1] firewall.ProtocolTCP (Some port80)
               firewall.ActionAccept "nb0000001" "" w in
  shouldSkipInvertedRule firewall.ProtocolTCP (Some port80) = false
  /\ fw_log res.1
     = [EvAdd (firewall.Build_AddArgs [10; 0; 0; 1] "tcp" None (Some port80)
                 firewall.RuleDirectionIN firewall.ActionAccept "nb0000001" "")
              (inr "backend refused the rule")]
  /\ length (fw_log res.1) <> 2%nat.
Proof. vm_compute. repeat split. discriminate. Qed.

End ClosedRuns.

(* ===================================================================== *)
(** ** The loop over the rules *)
(* ===================================================================== *)

Section InstallLoop.
Context {IP Rule B : Type} {ipOps : net.IPOps IP}
  {fwOps : firewall.Manager IP Rule B}.

Implicit Types (s : loopState IP Rule B) (w : Fw IP Rule B)
  (r : FirewallRule) (e : aclError).

Lemma ipsetNameFor_frame (selector : string) s :
  ls_fw (ipsetNameFor selector s).2 = ls_fw s
  /\ ls_rulesPairs (ipsetNameFor selector s).2 = ls_rulesPairs s
  /\ ls_newRulePairs (ipsetNameFor selector s).2 = ls_newRulePairs s
  /\ ls_named (ipsetNameFor selector s).2 = ls_named s.
Proof. unfold ipsetNameFor. destruct (ls_ipsets s !! selector); cbn; auto. Qed.

Lemma addInRules_error ip protocol port action ipsetName comment w w' e :
  addInRules ip protocol port action ipsetName comment w = (w', inr e) ->
  isBackendError e = true.
Proof.
  unfold addInRules.
  destruct (callAdd _ w) as [w1 [h1|e1]]; [|now intros [= <- <-]].
  destruct (shouldSkipInvertedRule protocol port); [discriminate|].
  destruct (callAdd _ w1) as [w2 [h2|e2]]; [discriminate|now intros [= <- <-]].
Qed.

Lemma addOutRules_error ip protocol port action ipsetName comment w w' e :
  addOutRules ip protocol port action ipsetName comment w = (w', inr e) ->
  isBackendError e = true.
Proof.
  unfold addOutRules.
  destruct (callAdd _ w) as [w1 [h1|e1]]; [|now intros [= <- <-]].
  destruct (shouldSkipInvertedRule protocol port); [discriminate|].
  destruct (callAdd _ w1) as [w2 [h2|e2]]; [discriminate|now intros [= <- <-]].
Qed.

(** An error that does not come from the backend is found before any call
    on the backend. *)
Lemma protoRuleToFirewallRule_pure_error
    (rp : gmap string (list Rule)) r (ipsetName : string) w w' e :
  protoRuleToFirewallRule rp r ipsetName w = (w', inr e) ->
  isBackendError e = false -> w' = w.
Proof.
  unfold protoRuleToFirewallRule.
  destruct (translate r) as [[[[[ip protocol] action] port] ruleID]|e0];
    [|now intros [= <- <-]].
  destruct (rp !! ruleID); [discriminate|].
  destruct (Direction r =? FirewallRule_IN).
  { destruct (addInRules _ _ _ _ _ _ w) as [w1 [h|e1]] eqn:E; [discriminate|].
    intros [= <- <-] Hb. apply addInRules_error in E. congruence. }
  destruct (Direction r =? FirewallRule_OUT).
  { destruct (addOutRules _ _ _ _ _ _ w) as [w1 [h|e1]] eqn:E; [discriminate|].
    intros [= <- <-] Hb. apply addOutRules_error in E. congruence. }
  now intros [= <- <-].
Qed.

Lemma convertToFirewallProtocol_error (protocol : Z) (p : string) e :
  convertToFirewallProtocol protocol = (p, Some e) -> e = InvalidProtocol.
Proof.
  unfold convertToFirewallProtocol.
  repeat match goal with |- context [if ?c then _ else _] => destruct c end;
    congruence.
Qed.

Lemma convertFirewallAction_error (action a : Z) e :
  convertFirewallAction action = (a, Some e) -> e = InvalidAction.
Proof.
  unfold convertFirewallAction.
  repeat match goal with |- context [if ?c then _ else _] => destruct c end;
    congruence.
Qed.

Lemma translate_error r e :
  translate (IP := IP) r = inr e -> isBackendError e = false.
Proof.
  unfold translate.
  destruct (net.ParseIP (PeerIP r)); [|now intros [= <-]].
  destruct (convertToFirewallProtocol (Protocol r)) as [p [e1|]] eqn:Ep.
  { apply convertToFirewallProtocol_error in Ep as ->. now intros [= <-]. }
  destruct (convertFirewallAction (Action r)) as [a [e2|]] eqn:Ea.
  { apply convertFirewallAction_error in Ea as ->. now intros [= <-]. }
  destruct (negb (String.eqb (Port r) "")); [|discriminate].
  destruct (strconv.Atoi (Port r)); [discriminate|now intros [= <-]].
Qed.

Lemma installRules_error (all rest : list FirewallRule) r s w' e :
  protoRuleToFirewallRule (ls_rulesPairs s) r
    (ipsetNameFor (getRuleGroupingSelector r) s).1 (ls_fw s) = (w', inr e) ->
  installRules all (r :: rest) s
  = {| ls_fw := rollBack (ls_newRulePairs s) (logApplyFailed r e w');
       ls_counter := ls_counter (ipsetNameFor (getRuleGroupingSelector r) s).2;
       ls_rulesPairs := ls_rulesPairs s;
       ls_newRulePairs := ls_newRulePairs s;
       ls_ipsets := ls_ipsets (ipsetNameFor (getRuleGroupingSelector r) s).2;
       ls_named :=
         ls_named s ++ [(r, (ipsetNameFor (getRuleGroupingSelector r) s).1)] |}.
Proof.
  intros H. cbn [installRules].
  destruct (ipsetNameFor_frame (getRuleGroupingSelector r) s) as (F1 & F2 & F3 & F4).
  destruct (ipsetNameFor (getRuleGroupingSelector r) s) as [name s1].
  cbn [fst snd] in *. rewrite F1, F2, F3, F4, H. reflexivity.
Qed.

(** The body of the loop reads [len(rules)] only to compare it with 0. *)
Lemma installRules_length_test (all1 all2 rules : list FirewallRule) :
  (0 <? length all1)%nat = (0 <? length all2)%nat ->
  forall s, installRules all1 rules s = installRules all2 rules s.
Proof.
  intros Hlen. induction rules as [|r rest IH]; intros s; [reflexivity|].
  cbn [installRules].
  destruct (ipsetNameFor (getRuleGroupingSelector r) s) as [name s1].
  destruct (protoRuleToFirewallRule _ r name _) as [w [[pairID rulePair]|err]];
    [|reflexivity].
  rewrite Hlen. apply IH.
Qed.

Lemma translate_error_result (rp : gmap string (list Rule)) r (ipsetName : string) w e :
  translate r = inr e -> protoRuleToFirewallRule rp r ipsetName w = (w, inr e).
Proof. intros Ht. unfold protoRuleToFirewallRule. now rewrite Ht. Qed.

(** The rules after a rule that does not translate are never reached. *)
Lemma installRules_stops_at_invalid (all pre rest : list FirewallRule) r e :
  translate (IP := IP) r = inr e ->
  forall s, installRules all (pre ++ r :: rest) s = installRules all (pre ++ [r]) s.
Proof.
  intros Ht. induction pre as [|p pre IH]; intros s.
  - cbn [app].
    rewrite (installRules_error all rest r s (ls_fw s) e)
      by now apply translate_error_result.
    rewrite (installRules_error all [] r s (ls_fw s) e)
      by now apply translate_error_result.
    reflexivity.
  - cbn [app installRules].
    destruct (ipsetNameFor (getRuleGroupingSelector p) s) as [name s1].
    destruct (protoRuleToFirewallRule _ p name _) as [w [[pairID rulePair]|err]];
      [|reflexivity].
    apply IH.
Qed.

(** C2 (as amended).  When [protoRuleToFirewallRule] returns an error for
    a rule, whatever the error, [ApplyFiltering] logs the rule, rolls back
    the pairs collected in this call and leaves the loop: the result does
    not depend on the rules that follow.  An invalid peer IP, protocol,
    action or port is such an error, and so is an invalid direction of a
    rule whose ID is not installed; these errors come without a call on
    the backend.  A call whose list holds a rule with an invalid peer IP,
    protocol, action or port does what it does on the list cut after that
    rule. *)
Theorem any_error_rolls_back_and_breaks
    (all rest : list FirewallRule) r s w' e :
  let ipsetName := (ipsetNameFor (getRuleGroupingSelector r) s).1 in
  let s1 := (ipsetNameFor (getRuleGroupingSelector r) s).2 in
  protoRuleToFirewallRule (ls_rulesPairs s) r ipsetName (ls_fw s) = (w', inr e) ->
  installRules all (r :: rest) s
  = {| ls_fw := rollBack (ls_newRulePairs s) (logApplyFailed r e w');
       ls_counter := ls_counter s1;
       ls_rulesPairs := ls_rulesPairs s;
       ls_newRulePairs := ls_newRulePairs s;
       ls_ipsets := ls_ipsets s1;
       ls_named := ls_named s ++ [(r, ipsetName)] |}
  /\ installRules all (r :: rest) s = installRules all [r] s
  /\ (isBackendError e = false -> w' = ls_fw s)
  /\ (forall e0, translate (IP := IP) r = inr e0 ->
        e = e0 /\ isBackendError e0 = false)
  /\ (forall ip protocol action port ruleID,
        translate r = inl (ip, protocol, action, port, ruleID) ->
        ls_rulesPairs s !! ruleID = None ->
        Direction r <> FirewallRule_IN -> Direction r <> FirewallRule_OUT ->
        e = InvalidDirection)
  /\ (forall e0, translate (IP := IP) r = inr e0 ->
        forall (d : DefaultManager Rule B) (b : B) (pre rest' : list FirewallRule),
          applyRules d b (pre ++ r :: rest') = applyRules d b (pre ++ [r])).
Proof.
  intros ipsetName s1 H. split; [|split; [|split; [|split; [|split]]]].
  - now apply installRules_error.
  - rewrite (installRules_error all rest r s w' e H).
    now rewrite (installRules_error all [] r s w' e H).
  - now apply protoRuleToFirewallRule_pure_error with (1 := H).
  - intros e0 Ht. unfold protoRuleToFirewallRule in H. rewrite Ht in H.
    injection H as _ <-. split; [reflexivity|].
    now apply translate_error with (1 := Ht).
  - intros ip protocol action port ruleID Ht Hmiss Hin Hout.
    unfold protoRuleToFirewallRule in H. rewrite Ht, Hmiss in H.
    destruct (Z.eqb_spec (Direction r) FirewallRule_IN); [contradiction|].
    destruct (Z.eqb_spec (Direction r) FirewallRule_OUT); [contradiction|].
    now injection H as _ <-.
  - intros e0 Ht d b pre rest'. unfold applyRules.
    rewrite (installRules_length_test (pre ++ r :: rest') (pre ++ [r]))
      by (rewrite !length_app; cbn [length]; now rewrite !Nat.add_succ_r).
    now rewrite (installRules_stops_at_invalid _ pre rest' r e0 Ht).
Qed.

End InstallLoop.

(* ===================================================================== *)
(** ** IP-set names *)
(* ===================================================================== *)

Section Names.

Lemma string_length_app (s t : string) :
  String.length (s +:+ t) = (String.length s + String.length t)%nat.
Proof.
  induction s as [|a s IH]; [reflexivity|].
  change (S (String.length (s +:+ t)) = S (String.length s + String.length t)).
  now rewrite IH.
Qed.

Lemma zeros_length (n : nat) : String.length (fmt.zeros n) = n.
Proof. induction n; cbn; congruence. Qed.

Lemma zeros_digits (n : nat) (d : uint) :
  fmt.zeros n +:+ NilEmpty.string_of_uint d
  = NilEmpty.string_of_uint (Nat.iter n D0 d).
Proof.
  induction n as [|n IH]; [reflexivity|].
  change (String "0" (fmt.zeros n +:+ NilEmpty.string_of_uint d)
          = String "0" (NilEmpty.string_of_uint (Nat.iter n D0 d))).
  now rewrite IH.
Qed.

Lemma of_uint_leading_zeros (n : nat) (d : uint) :
  Z.of_uint (Nat.iter n D0 d) = Z.of_uint d.
Proof. induction n as [|n IH]; [reflexivity|]. exact IH. Qed.

Lemma digits_length (d : uint) :
  String.length (NilEmpty.string_of_uint d) = nb_digits d.
Proof. induction d; cbn; congruence. Qed.

Lemma NilZero_digits (d : uint) :
  d <> Nil -> NilZero.string_of_uint d = NilEmpty.string_of_uint d.
Proof. now destruct d. Qed.

Lemma to_uint_not_D0 (p : positive) (l : uint) : Pos.to_uint p <> D0 l.
Proof.
  intros E.
  assert (Hn : unorm (Pos.to_uint p) = Pos.to_uint p).
  { rewrite <- (DecimalPos.Unsigned.to_of (Pos.to_uint p)).
    now rewrite DecimalPos.Unsigned.of_to. }
  rewrite E, unorm_D0 in Hn.
  destruct (uint_eq_dec l Nil) as [->|Hl].
  - now apply (DecimalPos.Unsigned.to_uint_nonzero p).
  - pose proof (nb_digits_unorm l Hl) as Hle.
    rewrite Hn in Hle. cbn in Hle. lia.
Qed.

Lemma of_uint_acc_lower (l : uint) (acc : positive) :
  Z.pos acc * 10 ^ Z.of_nat (nb_digits l) <= Z.pos (Pos.of_uint_acc l acc).
Proof.
  revert acc. induction l; intros acc; cbn [nb_digits Pos.of_uint_acc];
    [cbn; lia | ..];
    rewrite Nat2Z.inj_succ, Z.pow_succ_r by lia;
    (etransitivity; [|apply IHl]);
    assert (0 < 10 ^ Z.of_nat (nb_digits l)) by (apply Z.pow_pos_nonneg; lia);
    nia.
Qed.

(** The digits of a non-negative integer: no sign, at least one digit. *)
Lemma to_int_nonneg (z : Z) :
  0 <= z ->
  exists d, Z.to_int z = Decimal.Pos d /\ d <> Nil /\ Z.of_uint d = z
            /\ 10 ^ (Z.of_nat (nb_digits d) - 1) <= Z.max z 1.
Proof.
  intros Hz. destruct z as [|p|p]; [| |lia].
  - exists zero. repeat split; [discriminate | cbn; lia].
  - exists (Pos.to_uint p).
    assert (Hv : Z.of_uint (Pos.to_uint p) = Z.pos p).
    { unfold Z.of_uint. now rewrite DecimalPos.Unsigned.of_to. }
    repeat split; [apply DecimalPos.Unsigned.to_uint_nonnil | exact Hv |].
    rewrite Z.max_l by lia. rewrite <- Hv. unfold Z.of_uint.
    pose proof (to_uint_not_D0 p) as Hnz.
    pose proof (DecimalPos.Unsigned.to_uint_nonnil p) as Hnn.
    destruct (Pos.to_uint p) as [|l|l|l|l|l|l|l|l|l|l];
      [congruence | now destruct (Hnz l) | ..];
      cbn [nb_digits Pos.of_uint Z.of_N];
      rewrite Nat2Z.inj_succ;
      replace (Z.succ (Z.of_nat (nb_digits l)) - 1) with (Z.of_nat (nb_digits l)) by lia;
      (etransitivity; [|apply of_uint_acc_lower]); lia.
Qed.

Lemma Sprintf_07d_inj (a b : Z) :
  0 <= a -> 0 <= b -> fmt.Sprintf_07d a = fmt.Sprintf_07d b -> a = b.
Proof.
  intros Ha Hb. unfold fmt.Sprintf_07d.
  destruct (to_int_nonneg a Ha) as (da & -> & Hda & <- & _).
  destruct (to_int_nonneg b Hb) as (db & -> & Hdb & <- & _).
  unfold fmt.pad0. rewrite !NilZero_digits by assumption.
  rewrite !zeros_digits. intros E.
  apply (f_equal NilEmpty.uint_of_string) in E.
  rewrite !NilEmpty.usu in E. injection E as E.
  apply (f_equal Z.of_uint) in E.
  now rewrite !of_uint_leading_zeros in E.
Qed.

(** Names minted from different non-negative counters differ. *)
Lemma Sprintf_nb07d_inj (a b : Z) :
  0 <= a -> 0 <= b -> fmt.Sprintf_nb07d a = fmt.Sprintf_nb07d b -> a = b.
Proof.
  intros Ha Hb E. unfold fmt.Sprintf_nb07d in E.
  change (String "n" (String "b" (fmt.Sprintf_07d a))
          = String "n" (String "b" (fmt.Sprintf_07d b))) in E.
  injection E as E. now apply Sprintf_07d_inj.
Qed.

(** Below ten million the name is ["nb"] and exactly seven digits, which
    read as the counter. *)
Lemma Sprintf_nb07d_seven_digits (k : Z) :
  0 <= k < 10 ^ 7 ->
  exists digits : uint,
    fmt.Sprintf_nb07d k = "nb" +:+ NilEmpty.string_of_uint digits
    /\ nb_digits digits = 7%nat /\ Z.of_uint digits = k.
Proof.
  intros [Hk Hlt]. unfold fmt.Sprintf_nb07d, fmt.Sprintf_07d.
  destruct (to_int_nonneg k Hk) as (d & -> & Hd & Hv & Hlow).
  unfold fmt.pad0. rewrite NilZero_digits, zeros_digits by assumption.
  eexists. split; [reflexivity|]. split.
  - rewrite <- digits_length, <- zeros_digits, string_length_app,
      zeros_length, !digits_length.
    assert (Z.of_nat (nb_digits d) - 1 < 7); [|lia].
    apply (Z.pow_lt_mono_r_iff 10); lia.
  - now rewrite of_uint_leading_zeros.
Qed.

Lemma wrap_in_range (z : Z) :
  goint.MinInt <= z <= goint.MaxInt -> goint.wrap z = z.
Proof.
  unfold goint.MinInt, goint.MaxInt, goint.wrap. intros Hz.
  rewrite Z.mod_small; lia.
Qed.

End Names.

Section Naming.
Context {IP Rule B : Type} {ipOps : net.IPOps IP}
  {fwOps : firewall.Manager IP Rule B}.

Implicit Types (s : loopState IP Rule B) (r : FirewallRule).

(** One turn of the loop, with the fields of the next state spelled out. *)
Lemma installRules_cons (all rest : list FirewallRule) r s :
  installRules all (r :: rest) s
  = let named := ipsetNameFor (getRuleGroupingSelector r) s in
    let res := protoRuleToFirewallRule (ls_rulesPairs s) r named.1 (ls_fw s) in
    match res.2 with
    | inr err =>
        {| ls_fw := rollBack (ls_newRulePairs s) (logApplyFailed r err res.1);
           ls_counter := ls_counter named.2;
           ls_rulesPairs := ls_rulesPairs s;
           ls_newRulePairs := ls_newRulePairs s;
           ls_ipsets := ls_ipsets named.2;
           ls_named := ls_named s ++ [(r, named.1)] |}
    | inl (pairID, rulePair) =>
        installRules all rest
          {| ls_fw := res.1;
             ls_counter := ls_counter named.2;
             ls_rulesPairs :=
               if (0 <? length all)%nat
               then <[pairID := rulePair]> (ls_rulesPairs s)
               else ls_rulesPairs s;
             ls_newRulePairs :=
               if (0 <? length all)%nat
               then <[pairID := rulePair]> (ls_newRulePairs s)
               else ls_newRulePairs s;
             ls_ipsets := ls_ipsets named.2;
             ls_named := ls_named s ++ [(r, named.1)] |}
    end.
Proof.
  cbn [installRules]. cbv zeta.
  destruct (ipsetNameFor_frame (getRuleGroupingSelector r) s) as (F1 & F2 & F3 & F4).
  destruct (ipsetNameFor (getRuleGroupingSelector r) s) as [name s1].
  cbn [fst snd] in *. rewrite F1, F2, F3, F4.
  destruct (protoRuleToFirewallRule _ r name (ls_fw s)) as [w [[pairID rulePair]|err]];
    cbn [fst snd]; [|reflexivity].
  now destruct (0 <? length all)%nat.
Qed.

Lemma names_step (c0 : Z) r s (named : list (FirewallRule * string)) :
  names_ok c0 (ls_counter s) (ls_ipsets s) named ->
  0 <= c0 -> ls_counter s < goint.MaxInt ->
  let res := ipsetNameFor (getRuleGroupingSelector r) s in
  names_ok c0 (ls_counter res.2) (ls_ipsets res.2) (named ++ [(r, res.1)])
  /\ ls_counter s <= ls_counter res.2 <= ls_counter s + 1.
Proof.
  intros (N1 & N2 & N3 & N4 & N5) Hc0 Hmax. unfold ipsetNameFor.
  destruct (ls_ipsets s !! getRuleGroupingSelector r) as [name|] eqn:Hsel;
    cbn [fst snd ls_counter ls_ipsets].
  - split; [|lia]. repeat split; auto.
    + intros r0 n0 [Hin|[[= <- <-]|[]]]%in_app_or; auto.
    + intros sel Hs. destruct (N5 sel Hs) as (r0 & n0 & Hin & <-).
      exists r0, n0. split; [apply in_or_app; now left | reflexivity].
  - assert (Hincr : goint.incr (ls_counter s) = ls_counter s + 1).
    { apply wrap_in_range. unfold goint.MinInt. lia. }
    rewrite Hincr. split; [|lia].
    repeat split.
    + rewrite map_size_insert_None by assumption. lia.
    + intros sel n. rewrite lookup_insert. case_decide as Heq.
      * intros [= <-]. exists (ls_counter s + 1). split; [lia | reflexivity].
      * intros Hl. destruct (N2 sel n Hl) as (k & Hk & ->).
        exists k. split; [lia | reflexivity].
    + intros s1 s2 n. rewrite !lookup_insert.
      case_decide as E1; case_decide as E2.
      * congruence.
      * intros [= <-] Hl. destruct (N2 s2 _ Hl) as (k & Hk & Hn).
        apply Sprintf_nb07d_inj in Hn; lia.
      * intros Hl [= <-]. destruct (N2 s1 _ Hl) as (k & Hk & Hn).
        apply Sprintf_nb07d_inj in Hn; lia.
      * apply N3.
    + intros r0 n0 [Hin|[[= <- <-]|[]]]%in_app_or.
      * rewrite lookup_insert_ne; [now apply N4|].
        intros E. specialize (N4 r0 n0 Hin). congruence.
      * apply lookup_insert_eq.
    + intros sel. rewrite lookup_insert. case_decide as Heq.
      * intros _. eexists r, _. split; [apply in_or_app; right; now left | easy].
      * intros Hs. destruct (N5 sel Hs) as (r0 & n0 & Hin & <-).
        exists r0, n0. split; [apply in_or_app; now left | reflexivity].
Qed.

Lemma installRules_names (all rules : list FirewallRule) :
  forall s (c0 : Z),
    names_ok c0 (ls_counter s) (ls_ipsets s) (ls_named s) ->
    0 <= c0 -> ls_counter s + Z.of_nat (length rules) <= goint.MaxInt ->
    let s' := installRules all rules s in
    names_ok c0 (ls_counter s') (ls_ipsets s') (ls_named s')
    /\ ls_counter s <= ls_counter s' <= ls_counter s + Z.of_nat (length rules)
    /\ exists k, map fst (ls_named s') = map fst (ls_named s) ++ take k rules.
Proof.
  induction rules as [|r rest IH]; intros s c0 Hok Hc0 Hmax.
  - cbn [installRules length]. cbv zeta. split; [assumption | split; [lia|]].
    exists 0%nat. now rewrite app_nil_r.
  - cbn [length] in Hmax. rewrite installRules_cons. cbv zeta.
    destruct (names_step c0 r s (ls_named s) Hok Hc0 ltac:(lia)) as [Hok1 Hc1].
    cbv zeta in Hok1, Hc1.
    destruct (protoRuleToFirewallRule _ r _ (ls_fw s)) as [w [[pairID rulePair]|err]];
      cbn [fst snd].
    + match goal with |- context [installRules all rest ?st] =>
        destruct (IH st c0) as (Hok2 & Hc2 & k & Hk) end;
        cbn [ls_counter ls_ipsets ls_named]; [assumption | lia | lia |].
      cbn [ls_counter ls_named] in Hc2, Hk.
      split; [assumption | split; [cbn [length]; lia|]].
      exists (S k). rewrite Hk, map_app. cbn. now rewrite <- app_assoc.
    + cbn [ls_counter ls_ipsets ls_named].
      split; [assumption | split; [cbn [length]; lia|]].
      exists 1%nat. rewrite map_app. cbn. now rewrite take_0.
Qed.

End Naming.

(* ===================================================================== *)
(** ** Grouping selectors *)
(* ===================================================================== *)

Section Selectors.

Lemma Itoa_parse (z : Z) :
  NilZero.int_of_string (strconv.Itoa z) = Some (Z.to_int z).
Proof.
  unfold strconv.Itoa. apply NilZero.isi; destruct z; cbn; try discriminate;
    intros [= E]; now apply DecimalPos.Unsigned.to_uint_nonnil in E.
Qed.

Lemma Itoa_inj (a b : Z) : strconv.Itoa a = strconv.Itoa b -> a = b.
Proof.
  intros E. apply (f_equal NilZero.int_of_string) in E.
  rewrite !Itoa_parse in E. injection E as E. now apply DecimalZ.to_int_inj.
Qed.

Lemma digits_no_colon (d : uint) : no_colon (NilEmpty.string_of_uint d) = true.
Proof. induction d; cbn; auto. Qed.

Lemma Itoa_no_colon (z : Z) : no_colon (strconv.Itoa z) = true.
Proof.
  unfold strconv.Itoa, NilZero.string_of_int, NilZero.string_of_uint.
  destruct (Z.to_int z) as [d|d]; destruct d; cbn [no_colon];
    try reflexivity; apply (digits_no_colon (_ _)).
Qed.

Lemma Action_String_inj (a b : Z) :
  FirewallRuleAction_String a = FirewallRuleAction_String b -> a = b.
Proof.
  unfold FirewallRuleAction_String.
  destruct (Z.eqb_spec a FirewallRule_ACCEPT) as [->|Ha1];
    [|destruct (Z.eqb_spec a FirewallRule_DROP) as [->|Ha2]];
    (destruct (Z.eqb_spec b FirewallRule_ACCEPT) as [->|Hb1];
       [|destruct (Z.eqb_spec b FirewallRule_DROP) as [->|Hb2]]);
    try reflexivity; try discriminate; intros E;
    try (now apply Itoa_inj);
    apply (f_equal NilZero.int_of_string) in E; rewrite Itoa_parse in E;
    discriminate E.
Qed.

Lemma Action_String_no_colon (a : Z) : no_colon (FirewallRuleAction_String a) = true.
Proof.
  unfold FirewallRuleAction_String.
  repeat match goal with |- context [if ?c then _ else _] => destruct c end;
    try reflexivity; apply Itoa_no_colon.
Qed.

Lemma Protocol_String_inj (a b : Z) :
  FirewallRuleProtocol_String a = FirewallRuleProtocol_String b -> a = b.
Proof.
  unfold FirewallRuleProtocol_String.
  repeat match goal with
         | |- context [(?x =? ?y)] => destruct (Z.eqb_spec x y) as [->|?]
         end;
    try reflexivity; try discriminate; intros E;
    try (now apply Itoa_inj);
    apply (f_equal NilZero.int_of_string) in E; rewrite Itoa_parse in E;
    discriminate E.
Qed.

Lemma Protocol_String_no_colon (p : Z) :
  no_colon (FirewallRuleProtocol_String p) = true.
Proof.
  unfold FirewallRuleProtocol_String.
  repeat match goal with |- context [if ?c then _ else _] => destruct c end;
    try reflexivity; apply Itoa_no_colon.
Qed.

(** Texts without colon in front of a colon can be read back. *)
Lemma cut_at_colon (s1 s2 t1 t2 : string) :
  no_colon s1 = true -> no_colon s2 = true ->
  s1 +:+ ":" +:+ t1 = s2 +:+ ":" +:+ t2 -> s1 = s2 /\ t1 = t2.
Proof.
  revert s2. induction s1 as [|a s1 IH]; intros [|b s2] H1 H2 E.
  - change (String ":" t1 = String ":" t2) in E. now injection E as ->.
  - change (String ":" t1 = String b (s2 +:+ ":" +:+ t2)) in E.
    injection E as <- _. discriminate H2.
  - change (String a (s1 +:+ ":" +:+ t1) = String ":" t2) in E.
    injection E as -> _. discriminate H1.
  - change (String a (s1 +:+ ":" +:+ t1) = String b (s2 +:+ ":" +:+ t2)) in E.
    injection E as -> E. cbn [no_colon] in H1, H2.
    apply andb_true_iff in H1 as [_ H1]. apply andb_true_iff in H2 as [_ H2].
    destruct (IH s2 H1 H2 E) as [-> ->]. auto.
Qed.

(** Two rules have the same selector exactly when they agree on the
    direction, the action, the protocol and the port. *)
Lemma getRuleGroupingSelector_inj (r1 r2 : FirewallRule) :
  getRuleGroupingSelector r1 = getRuleGroupingSelector r2
  <-> Direction r1 = Direction r2 /\ Action r1 = Action r2
      /\ Protocol r1 = Protocol r2 /\ Port r1 = Port r2.
Proof.
  unfold getRuleGroupingSelector. split.
  - intros E.
    apply cut_at_colon in E as [E1 E]; [|apply Itoa_no_colon..].
    apply cut_at_colon in E as [E2 E]; [|apply Action_String_no_colon..].
    apply cut_at_colon in E as [E3 E]; [|apply Protocol_String_no_colon..].
    apply Itoa_inj in E1. apply Action_String_inj in E2.
    apply Protocol_String_inj in E3. auto.
  - now intros (-> & -> & -> & ->).
Qed.

End Selectors.

Section Lifetime.
Context {IP Rule B : Type} {ipOps : net.IPOps IP}
  {fwOps : firewall.Manager IP Rule B}.

Implicit Types (d : DefaultManager Rule B) (nm : NetworkMap).

Lemma names_ok_start (c : Z) : names_ok c c ∅ [].
Proof.
  repeat split.
  - rewrite map_size_empty. lia.
  - intros sel n. now rewrite lookup_empty.
  - intros s1 s2 n. now rewrite lookup_empty.
  - intros r n [].
  - intros sel [n Hn]. now rewrite lookup_empty in Hn.
Qed.

(** One call: the books of the names, the counter, the rules reached. *)
Lemma call_names d nm :
  0 <= ipsetCounter d ->
  ipsetCounter d + Z.of_nat (length (effectiveRules nm)) <= goint.MaxInt ->
  let r := ApplyFiltering_run (IP := IP) d nm in
  names_ok (ipsetCounter d) (ipsetCounter (r_manager r)) (r_ipsets r) (r_named r)
  /\ ipsetCounter d <= ipsetCounter (r_manager r)
     <= ipsetCounter d + Z.of_nat (length (effectiveRules nm))
  /\ exists k, map fst (r_named r) = take k (effectiveRules nm).
Proof.
  intros Hc Hmax. unfold ApplyFiltering_run.
  destruct (d_firewall d) as [b|]; cbv zeta.
  - unfold applyRules.
    destruct (installRules_names (effectiveRules nm) (effectiveRules nm)
                (loopStart d b) (ipsetCounter d)) as (Hok & Hcnt & k & Hk);
      [apply names_ok_start | assumption | assumption |].
    cbv zeta in Hok, Hcnt, Hk. cbn [loopStart ls_counter ls_named map app] in Hcnt, Hk.
    destruct (removeStale _ _ _) as [w rp].
    cbn [r_manager r_ipsets r_named ipsetCounter]. eauto.
  - cbn [r_manager r_ipsets r_named]. split; [apply names_ok_start|].
    split; [lia|]. exists 0%nat. now rewrite take_0.
Qed.

Lemma calls_chain (nms : list NetworkMap) :
  forall d,
    0 <= ipsetCounter d ->
    ipsetCounter d + Z.of_nat (length (concat (map effectiveRules nms)))
      <= goint.MaxInt ->
    chain (ipsetCounter d) (calls (IP := IP) d nms)
    /\ forall i nm before r,
         nms !! i = Some nm -> calls (IP := IP) d nms !! i = Some (before, r) ->
         exists k, map fst (r_named r) = take k (effectiveRules nm).
Proof.
  induction nms as [|nm rest IH]; intros d Hc Hmax.
  - split; [exact I|]. intros i nm before r Hi. now rewrite lookup_nil in Hi.
  - cbn [map concat] in Hmax. rewrite length_app in Hmax.
    destruct (call_names d nm Hc ltac:(lia)) as (Hok & Hcnt & Hpre).
    cbv zeta in Hok, Hcnt, Hpre.
    destruct (IH (r_manager (ApplyFiltering_run d nm))) as [Hch Hobs]; [lia | lia |].
    split.
    + cbn [calls chain]. split; [lia|]. split; assumption.
    + intros [|i] nm' before r; cbn [calls].
      * intros [= <-] [= <- <-]. exact Hpre.
      * apply Hobs.
Qed.

Lemma chain_weaken (c c' : Z) (cs : list (DefaultManager Rule B * run IP Rule B)) :
  c' <= c -> chain c cs -> chain c' cs.
Proof. destruct cs as [|[before r] rest]; cbn; [auto|]. intuition lia. Qed.

Lemma names_ok_counter (c0 c : Z) ipsets named :
  names_ok c0 c ipsets named -> c0 <= c.
Proof. intros (N1 & _). lia. Qed.

Lemma chain_lookup (cs : list (DefaultManager Rule B * run IP Rule B)) :
  forall (c : Z) i before r,
    chain c cs -> cs !! i = Some (before, r) ->
    c <= ipsetCounter before
    /\ names_ok (ipsetCounter before) (ipsetCounter (r_manager r))
         (r_ipsets r) (r_named r).
Proof.
  induction cs as [|[b0 r0] rest IH]; intros c i before r Hch Hi.
  - now rewrite lookup_nil in Hi.
  - destruct Hch as (Hc & Hok & Hrest). destruct i as [|i]; cbn in Hi.
    + injection Hi as <- <-. auto.
    + destruct (IH _ i before r Hrest Hi) as [Hle Hok'].
      split; [|assumption]. apply names_ok_counter in Hok. lia.
Qed.

Lemma chain_later (cs : list (DefaultManager Rule B * run IP Rule B)) :
  forall (c : Z) i j b1 r1 b2 r2,
    chain c cs -> cs !! i = Some (b1, r1) -> cs !! j = Some (b2, r2) ->
    (i < j)%nat -> ipsetCounter (r_manager r1) <= ipsetCounter b2.
Proof.
  induction cs as [|[b0 r0] rest IH]; intros c i j b1 r1 b2 r2 Hch Hi Hj Hlt.
  - now rewrite lookup_nil in Hi.
  - destruct Hch as (Hc & Hok & Hrest).
    destruct j as [|j]; [lia|]. cbn in Hj. destruct i as [|i]; cbn in Hi.
    + injection Hi as <- <-. now apply (chain_lookup rest _ j b2 r2 Hrest Hj).
    + apply (IH _ i j b1 r1 b2 r2 Hrest Hi Hj). lia.
Qed.

Lemma names_ok_selectors (c0 c : Z) ipsets named :
  names_ok c0 c ipsets named ->
  dom ipsets
  = (list_to_set (map getRuleGroupingSelector (map fst named)) : gset string).
Proof.
  intros (_ & _ & _ & N4 & N5). apply set_eq. intros sel.
  rewrite elem_of_dom, elem_of_list_to_set, list_elem_of_In, in_map_iff.
  split.
  - intros Hs. destruct (N5 sel Hs) as (r & n & Hin & <-).
    exists r. split; [reflexivity|]. apply in_map_iff. now exists (r, n).
  - intros (r & <- & Hin). apply in_map_iff in Hin as ([r' n] & <- & Hin).
    cbn [fst]. rewrite (N4 r' n Hin). eauto.
Qed.

(** C8 (as amended).  For every sequence of calls on one manager whose
    counter starts non-negative and stays within [int]: in each call the
    counter does not decrease and grows by the number of distinct
    selectors among the rules the loop reached, a prefix of the rule list;
    every name given to a rule is ["nb"] with the counter value of its
    minting in [%07d] format, which below ten million is exactly seven
    digits; two rules of a call have the same name exactly when their
    selectors are equal, that is when they agree on direction, action,
    protocol and port; the counter never decreases from call to call,
    and no name is given in two different calls. *)
Theorem ipset_names_and_counter (d : DefaultManager Rule B) (nms : list NetworkMap) :
  0 <= ipsetCounter d ->
  ipsetCounter d + Z.of_nat (length (concat (map effectiveRules nms)))
    <= goint.MaxInt ->
  let cs := calls (IP := IP) d nms in
  (forall i before r, cs !! i = Some (before, r) ->
     let c0 := ipsetCounter before in
     let c1 := ipsetCounter (r_manager r) in
     let reached := map fst (r_named r) in
     ipsetCounter d <= c0 <= c1
     /\ c1 = c0 + Z.of_nat (size (list_to_set (map getRuleGroupingSelector reached)
                                  : gset string))
     /\ (forall nm, nms !! i = Some nm ->
           exists k, reached = take k (effectiveRules nm))
     /\ (forall rule n, In (rule, n) (r_named r) ->
           exists k, c0 < k <= c1 /\ n = fmt.Sprintf_nb07d k
             /\ (k < 10 ^ 7 ->
                 exists digits : uint,
                   n = "nb" +:+ NilEmpty.string_of_uint digits
                   /\ nb_digits digits = 7%nat /\ Z.of_uint digits = k))
     /\ (forall r1 n1 r2 n2,
           In (r1, n1) (r_named r) -> In (r2, n2) (r_named r) ->
           (n1 = n2 <-> getRuleGroupingSelector r1 = getRuleGroupingSelector r2)
           /\ (n1 = n2 <->
               Direction r1 = Direction r2 /\ Action r1 = Action r2
               /\ Protocol r1 = Protocol r2 /\ Port r1 = Port r2)))
  /\ (forall i j b1 r1 b2 r2,
        cs !! i = Some (b1, r1) -> cs !! j = Some (b2, r2) -> (i <= j)%nat ->
        ipsetCounter (r_manager r1) <= ipsetCounter (r_manager r2))
  /\ (forall i j b1 r1 b2 r2 rule1 rule2 n,
        cs !! i = Some (b1, r1) -> cs !! j = Some (b2, r2) ->
        In (rule1, n) (r_named r1) -> In (rule2, n) (r_named r2) -> i = j).
Proof.
  intros Hc Hmax cs.
  destruct (calls_chain nms d Hc Hmax) as [Hch Hobs]. fold cs in Hch, Hobs.
  assert (Hname : forall i before r rule n,
             cs !! i = Some (before, r) -> In (rule, n) (r_named r) ->
             exists k, ipsetCounter before < k <= ipsetCounter (r_manager r)
                       /\ n = fmt.Sprintf_nb07d k /\ 0 <= ipsetCounter before).
  { intros i before r rule n Hi Hin.
    destruct (chain_lookup cs _ i before r Hch Hi) as [Hle (N1 & N2 & N3 & N4 & N5)].
    destruct (N2 _ _ (N4 rule n Hin)) as (k & Hk & ->).
    exists k. repeat split; lia. }
  split; [|split].
  - intros i before r Hi c0 c1 reached.
    destruct (chain_lookup cs _ i before r Hch Hi) as [Hle Hok].
    pose proof (names_ok_counter _ _ _ _ Hok) as Hmono.
    pose proof (names_ok_selectors _ _ _ _ Hok) as Hdom.
    destruct Hok as (N1 & N2 & N3 & N4 & N5).
    split; [unfold c0, c1; lia|]. split; [|split; [|split]].
    + unfold c1, c0, reached. rewrite <- Hdom, size_dom. exact N1.
    + intros nm Hnm. exact (Hobs i nm before r Hnm Hi).
    + intros rule n Hin. destruct (Hname i before r rule n Hi Hin) as (k & Hk & -> & H0).
      exists k. split; [exact Hk|]. split; [reflexivity|].
      intros Hlt. apply Sprintf_nb07d_seven_digits. lia.
    + intros r1 n1 r2 n2 H1 H2.
      assert (Hsel : n1 = n2
                     <-> getRuleGroupingSelector r1 = getRuleGroupingSelector r2).
      { split.
        - intros <-. exact (N3 _ _ _ (N4 _ _ H1) (N4 _ _ H2)).
        - intros E. pose proof (N4 _ _ H1) as L1. pose proof (N4 _ _ H2) as L2.
          rewrite E in L1. congruence. }
      split; [exact Hsel|]. now rewrite Hsel, getRuleGroupingSelector_inj.
  - intros i j b1 r1 b2 r2 Hi Hj Hij.
    destruct (decide (i = j)) as [->|Hne].
    + rewrite Hi in Hj. now injection Hj as <- <-.
    + pose proof (chain_later cs _ i j b1 r1 b2 r2 Hch Hi Hj ltac:(lia)) as H1.
      destruct (chain_lookup cs _ j b2 r2 Hch Hj) as [_ Hok].
      apply names_ok_counter in Hok. lia.
  - intros i j b1 r1 b2 r2 rule1 rule2 n Hi Hj H1 H2.
    destruct (Hname i b1 r1 rule1 n Hi H1) as (k1 & Hk1 & E1 & P1).
    destruct (Hname j b2 r2 rule2 n Hj H2) as (k2 & Hk2 & E2 & P2).
    assert (k1 = k2) by (apply Sprintf_nb07d_inj; [lia | lia | congruence]).
    destruct (Nat.lt_trichotomy i j) as [Hlt|[Heq|Hgt]]; [|assumption|].
    + pose proof (chain_later cs _ i j b1 r1 b2 r2 Hch Hi Hj Hlt). lia.
    + pose proof (chain_later cs _ j i b2 r2 b1 r1 Hch Hj Hi Hgt). lia.
Qed.

End Lifetime.

Section TenMillion.
Context {IP Rule B : Type} {ipOps : net.IPOps IP}
  {fwOps : firewall.Manager IP Rule B}.

Lemma installRules_single (all : list FirewallRule) (r : FirewallRule)
    (s : loopState IP Rule B) :
  ls_ipsets s !! getRuleGroupingSelector r = None ->
  ls_named (installRules all [r] s)
  = ls_named s ++ [(r, fmt.Sprintf_nb07d (goint.incr (ls_counter s)))]
  /\ ls_counter (installRules all [r] s) = goint.incr (ls_counter s).
Proof.
  intros Hsel. rewrite installRules_cons. cbv zeta.
  unfold ipsetNameFor. rewrite Hsel. cbn [fst snd ls_counter ls_ipsets].
  destruct (protoRuleToFirewallRule _ r _ _) as [w [[pairID rulePair]|err]];
    cbn [fst snd installRules ls_named ls_counter]; auto.
Qed.

(** A call whose rule list is a single rule mints one name. *)
Lemma single_rule_call (d : DefaultManager Rule B) (nm : NetworkMap)
    (r : FirewallRule) :
  is_Some (d_firewall d) -> effectiveRules nm = [r] ->
  0 <= ipsetCounter d < goint.MaxInt ->
  let run := ApplyFiltering_run (IP := IP) d nm in
  r_named run = [(r, fmt.Sprintf_nb07d (ipsetCounter d + 1))]
  /\ ipsetCounter (r_manager run) = ipsetCounter d + 1
  /\ is_Some (d_firewall (r_manager run)).
Proof.
  intros [b Hb] Hr Hc. unfold ApplyFiltering_run. rewrite Hb, Hr.
  unfold applyRules.
  destruct (installRules_single [r] r (loopStart d b)) as [Hn Hk];
    [apply lookup_empty|].
  assert (Hincr : goint.incr (ipsetCounter d) = ipsetCounter d + 1).
  { apply wrap_in_range. unfold goint.MinInt. lia. }
  cbn [loopStart ls_named ls_counter app] in Hn, Hk. rewrite Hincr in Hn, Hk.
  cbv zeta. destruct (removeStale _ _ _) as [w' rp].
  cbn [r_named r_manager ipsetCounter d_firewall]. eauto.
Qed.

Lemma iterated_calls_counter (nm : NetworkMap) (r : FirewallRule) :
  effectiveRules nm = [r] ->
  forall (n : N) (d : DefaultManager Rule B),
    is_Some (d_firewall d) -> 0 <= ipsetCounter d ->
    ipsetCounter d + Z.of_N n <= goint.MaxInt ->
    let d' := N.iter n (fun d => r_manager (ApplyFiltering_run (IP := IP) d nm)) d in
    is_Some (d_firewall d') /\ ipsetCounter d' = ipsetCounter d + Z.of_N n.
Proof.
  intros Hr n. induction n as [|n IH] using N.peano_ind; intros d Hb Hc Hmax.
  - cbn. split; [assumption | lia].
  - cbv zeta. rewrite N.iter_succ.
    destruct (IH d Hb Hc ltac:(lia)) as [Hb' Hc']. cbv zeta in Hb', Hc'.
    destruct (single_rule_call _ nm r Hb' Hr ltac:(lia)) as (_ & Hc'' & Hb'').
    cbv zeta in Hc'', Hb''. split; [assumption | lia].
Qed.

End TenMillion.

Section ClosedNames.
Import testenv examples.
Local Open Scope string_scope.

(** C8 (counterexample).  After 9,999,999 calls that each mint one name,
    the next call gives the name nb10000000: eight digits after "nb". *)
Lemma ten_millionth_name_has_eight_digits :
  let nm := networkMap [] [ruleA] in
  let d := N.iter 9999999 (fun d => r_manager (apply d nm)) (manager []) in
  r_named (apply d nm) = [(ruleA, "nb" +:+ "10000000")]
  /\ String.length "10000000" = 8%nat.
Proof.
  intros nm d. split; [|reflexivity].
  assert (Hr : effectiveRules nm = [ruleA]) by (vm_compute; reflexivity).
  destruct (iterated_calls_counter (IP := list Z) nm ruleA Hr 9999999 (manager []))
    as [Hb Hc].
  { now eexists. }
  { vm_compute. discriminate. }
  { vm_compute. discriminate. }
  cbv zeta in Hb, Hc. change (is_Some (d_firewall d)) in Hb.
  change (ipsetCounter d = ipsetCounter (manager []) + Z.of_N 9999999) in Hc.
  destruct (single_rule_call (IP := list Z) d nm ruleA Hb Hr) as (Hn & _).
  { rewrite Hc. vm_compute. split; [discriminate | reflexivity]. }
  unfold apply. cbv zeta in Hn. rewrite Hn, Hc. reflexivity.
Qed.

Lemma ipset_names_and_counter_witness :
  let nms := [networkMap [] [ruleA; ruleC]; networkMap [] [ruleA; ruleB]] in
  0 <= ipsetCounter (manager [true; true; false])
  /\ ipsetCounter (manager [true; true; false])
     + Z.of_nat (length (concat (map effectiveRules nms))) <= goint.MaxInt
  /\ forall i j b1 r1 b2 r2 rule1 rule2 n,
       calls (IP := list Z) (manager [true; true; false]) nms !! i = Some (b1, r1) ->
       calls (IP := list Z) (manager [true; true; false]) nms !! j = Some (b2, r2) ->
       In (rule1, n) (r_named r1) -> In (rule2, n) (r_named r2) -> i = j.
Proof.
  intros nms.
  assert (H1 : 0 <= ipsetCounter (manager [true; true; false]))
    by (vm_compute; discriminate).
  assert (H2 : ipsetCounter (manager [true; true; false])
               + Z.of_nat (length (concat (map effectiveRules nms)))
               <= goint.MaxInt) by (vm_compute; discriminate).
  split; [exact H1 | split; [exact H2|]].
  exact (proj2 (proj2 (ipset_names_and_counter (IP := list Z)
                         (manager [true; true; false]) nms H1 H2))).
Defined.

End ClosedNames.

Section ClosedWitnesses.
Import testenv examples.
Local Open Scope string_scope.

Lemma ApplyFiltering_without_backend_witness :
  let d : DefaultManager nat backend :=
    {| d_firewall := None; ipsetCounter := 3; rulesPairs := {[ idA := [0%nat] ]} |} in
  d_firewall d = None
  /\ ApplyFiltering (IP := list Z) d (networkMap twoPeers [ruleA; ruleB]) = (d, []).
Proof.
  intros d. split; [reflexivity|].
  exact (proj1 (ApplyFiltering_without_backend (IP := list Z) d
                  (networkMap twoPeers [ruleA; ruleB]) eq_refl)).
Defined.

Lemma any_error_rolls_back_and_breaks_witness :
  let bad := tcpIn "peer-a" FirewallRule_ACCEPT in
  let good := tcpIn "10.0.0.2" FirewallRule_ACCEPT in
  let s : loopState (list Z) nat backend := loopStart (manager []) (fresh []) in
  protoRuleToFirewallRule (ls_rulesPairs s) bad
    (ipsetNameFor (getRuleGroupingSelector bad) s).1 (ls_fw s)
  = (ls_fw s, inr InvalidPeerIP)
  /\ installRules [bad; good] [bad; good] s = installRules [bad; good] [bad] s.
Proof.
  intros bad good s.
  assert (H : protoRuleToFirewallRule (ls_rulesPairs s) bad
                (ipsetNameFor (getRuleGroupingSelector bad) s).1 (ls_fw s)
              = (ls_fw s, inr InvalidPeerIP)) by (vm_compute; reflexivity).
  split; [exact H|].
  exact (proj1 (proj2 (any_error_rolls_back_and_breaks
                         [bad; good] [good] bad s (ls_fw s) InvalidPeerIP H))).
Defined.

End ClosedWitnesses.

(* ===================================================================== *)
(** ** The same network map twice *)
(* ===================================================================== *)

Section Twice.
Context {IP Rule B : Type} {ipOps : net.IPOps IP}
  {fwOps : firewall.Manager IP Rule B}.

Implicit Types (s : loopState IP Rule B) (w : Fw IP Rule B)
  (r : FirewallRule) (e : aclError) (R : gmap string (list Rule)).

Lemma extends_refl w P : extends w w P.
Proof. exists []. split; [now rewrite app_nil_r | constructor]. Qed.

Lemma extends_trans w1 w2 w3 P :
  extends w1 w2 P -> extends w2 w3 P -> extends w1 w3 P.
Proof.
  intros (e1 & H1 & F1) (e2 & H2 & F2). exists (e1 ++ e2). split.
  - now rewrite H2, H1, app_assoc.
  - now apply Forall_app.
Qed.

Lemma extends_weaken w w' (P Q : event IP Rule -> Prop) :
  (forall ev, P ev -> Q ev) -> extends w w' P -> extends w w' Q.
Proof.
  intros HPQ (evs & H & F). exists evs. split; [assumption|].
  eapply Forall_impl; eauto.
Qed.

Lemma extends_Forall w w' (P Q : event IP Rule -> Prop) :
  extends w w' P -> Forall Q (fw_log w') -> Forall Q (fw_log w).
Proof. intros (evs & -> & _) F. now apply Forall_app in F as [F _]. Qed.

Lemma callDelete_extends (o : deleteOrigin) w (h : Rule) :
  extends w (callDelete o w h)
    (fun ev => exists h' err, ev = EvDelete o h' err).
Proof.
  unfold callDelete. destruct (firewall.DeleteRule (fw_state w) h) as [b err].
  exists [EvDelete o h err]. split; [reflexivity|].
  constructor; [eauto | constructor].
Qed.

Lemma deleteRules_extends (o : deleteOrigin) (hs : list Rule) :
  forall w, extends w (deleteRules o w hs)
              (fun ev => exists h' err, ev = EvDelete o h' err).
Proof.
  unfold deleteRules. induction hs as [|h hs IH]; intros w; cbn [fold_left].
  - apply extends_refl.
  - eapply extends_trans; [apply callDelete_extends | apply IH].
Qed.

Lemma rollBack_extends (np : gmap string (list Rule)) w :
  extends w (rollBack np w)
    (fun ev => exists h' err, ev = EvDelete Rollback h' err).
Proof.
  unfold rollBack. generalize (map_to_list np) as l. intros l. revert w.
  induction l as [|kv l IH]; intros w; cbn [fold_left].
  - apply extends_refl.
  - eapply extends_trans; [apply deleteRules_extends | apply IH].
Qed.

Lemma removeStale_extends (np rp : gmap string (list Rule)) w :
  extends w (removeStale np rp w).1
    (fun ev => exists h' err, ev = EvDelete Stale h' err).
Proof.
  unfold removeStale.
  change w with ((w, rp).1) at 1. generalize (w, rp) as acc.
  generalize (map_to_list rp) as l.
  induction l as [|kv l IH]; intros acc; cbn [fold_left].
  - apply extends_refl.
  - destruct (np !! kv.1); [apply IH|].
    eapply extends_trans; [apply deleteRules_extends | apply (IH (_, _))].
Qed.

Lemma removeStale_nothing (np rp : gmap string (list Rule)) w :
  (forall k, is_Some (rp !! k) -> is_Some (np !! k)) ->
  removeStale np rp w = (w, rp).
Proof.
  intros Hsub. unfold removeStale.
  assert (Hl : Forall (fun kv => is_Some (np !! kv.1)) (map_to_list rp)).
  { apply Forall_forall. intros [k v] Hin%elem_of_map_to_list. apply Hsub. eauto. }
  revert Hl. generalize (map_to_list rp) as l. generalize (w, rp) as acc.
  intros acc l. revert acc.
  induction l as [|kv l IH]; intros acc Hl; [reflexivity|].
  apply Forall_cons in Hl as [[v Hv] Hl]. cbn [fold_left]. rewrite Hv. now apply IH.
Qed.

Lemma callAdd_extends (a : firewall.AddArgs IP) w :
  extends w (callAdd a w).1 (fun ev => isAddCall ev = true)
  /\ (isError (callAdd a w).2 = true ->
      exists ev, In ev (fw_log (callAdd a w).1) /\ isFailedAdd ev = true).
Proof.
  unfold callAdd. destruct (firewall.AddFiltering (fw_state w) a) as [b res].
  cbn [fst snd fw_log]. split.
  - exists [EvAdd a res]. split; [reflexivity | now repeat constructor].
  - intros He. exists (EvAdd a res). split; [apply in_or_app; right; now left|].
    now destruct res.
Qed.

Lemma failed_add_kept w w' (P : event IP Rule -> Prop) :
  extends w w' P ->
  (exists ev, In ev (fw_log w) /\ isFailedAdd ev = true) ->
  exists ev, In ev (fw_log w') /\ isFailedAdd ev = true.
Proof.
  intros (evs & -> & _) (ev & Hin & Hf). exists ev.
  split; [apply in_or_app; now left | assumption].
Qed.

Lemma addInRules_extends ip protocol port action ipsetName comment w :
  let res := addInRules ip protocol port action ipsetName comment w in
  extends w res.1 (fun ev => isAddCall ev = true)
  /\ (isError res.2 = true ->
      exists ev, In ev (fw_log res.1) /\ isFailedAdd ev = true).
Proof.
  unfold addInRules.
  match goal with |- context [callAdd ?a w] =>
    destruct (callAdd_extends a w) as [X1 F1];
    destruct (callAdd a w) as [w1 [h1|e1]] end; cbn [fst snd] in *;
    [|split; [assumption | intros _; now apply F1]].
  destruct (shouldSkipInvertedRule protocol port); cbn [fst snd];
    [split; [assumption | discriminate]|].
  match goal with |- context [callAdd ?a w1] =>
    destruct (callAdd_extends a w1) as [X2 F2];
    destruct (callAdd a w1) as [w2 [h2|e2]] end; cbn [fst snd] in *.
  - split; [eapply extends_trans; eassumption | discriminate].
  - split; [eapply extends_trans; eassumption | intros _; now apply F2].
Qed.

Lemma addOutRules_extends ip protocol port action ipsetName comment w :
  let res := addOutRules ip protocol port action ipsetName comment w in
  extends w res.1 (fun ev => isAddCall ev = true)
  /\ (isError res.2 = true ->
      exists ev, In ev (fw_log res.1) /\ isFailedAdd ev = true).
Proof.
  unfold addOutRules.
  match goal with |- context [callAdd ?a w] =>
    destruct (callAdd_extends a w) as [X1 F1];
    destruct (callAdd a w) as [w1 [h1|e1]] end; cbn [fst snd] in *;
    [|split; [assumption | intros _; now apply F1]].
  destruct (shouldSkipInvertedRule protocol port); cbn [fst snd];
    [split; [assumption | discriminate]|].
  match goal with |- context [callAdd ?a w1] =>
    destruct (callAdd_extends a w1) as [X2 F2];
    destruct (callAdd a w1) as [w2 [h2|e2]] end; cbn [fst snd] in *.
  - split; [eapply extends_trans; eassumption | discriminate].
  - split; [eapply extends_trans; eassumption | intros _; now apply F2].
Qed.

(** The ways [protoRuleToFirewallRule] can end. *)
Lemma protoRuleToFirewallRule_cases R r (ipsetName : string) w :
  let res := protoRuleToFirewallRule R r ipsetName w in
  match translate r with
  | inr e => res = (w, inr e)
  | inl (ip, protocol, action, port, ruleID) =>
      match R !! ruleID with
      | Some rulesPair => res = (w, inl (ruleID, rulesPair))
      | None =>
          extends w res.1 (fun ev => isAddCall ev = true)
          /\ match res.2 with
             | inl (pairID, _) => pairID = ruleID
             | inr e =>
                 (e = InvalidDirection /\ res.1 = w
                  /\ Direction r <> FirewallRule_IN
                  /\ Direction r <> FirewallRule_OUT)
                 \/ exists ev, In ev (fw_log res.1) /\ isFailedAdd ev = true
             end
          /\ (Direction r <> FirewallRule_IN -> Direction r <> FirewallRule_OUT ->
              res = (w, inr InvalidDirection))
      end
  end.
Proof.
  unfold protoRuleToFirewallRule.
  destruct (translate r) as [[[[[ip protocol] action] port] ruleID]|e0];
    [|reflexivity].
  destruct (R !! ruleID) as [rulesPair|]; [reflexivity|].
  destruct (Z.eqb_spec (Direction r) FirewallRule_IN) as [Hin|Hin].
  { destruct (addInRules_extends ip protocol port action ipsetName "" w) as [X F].
    destruct (addInRules ip protocol port action ipsetName "" w) as [w1 [h|e1]];
      cbn [fst snd] in *; repeat split; auto; congruence. }
  destruct (Z.eqb_spec (Direction r) FirewallRule_OUT) as [Hout|Hout].
  { destruct (addOutRules_extends ip protocol port action ipsetName "" w) as [X F].
    destruct (addOutRules ip protocol port action ipsetName "" w) as [w1 [h|e1]];
      cbn [fst snd] in *; repeat split; auto; congruence. }
  cbn [fst snd]. split; [apply extends_refl | split; [left; auto | reflexivity]].
Qed.

Lemma break_log (np : gmap string (list Rule)) r e w :
  exists evs,
    fw_log (rollBack np (logApplyFailed r e w))
    = fw_log w ++ EvApplyFailed r e :: evs
    /\ Forall (fun ev => exists h' err, ev = EvDelete Rollback h' err) evs.
Proof.
  destruct (rollBack_extends np (logApplyFailed r e w)) as (evs & H & F).
  exists evs. split; [|assumption].
  rewrite H. cbn [logApplyFailed fw_log]. now rewrite <- app_assoc.
Qed.

(** The first call, when no [AddFiltering] call fails: the loop is quiet
    on the same rules once its new pairs are the installed pairs. *)
Lemma first_call (all rules : list FirewallRule) :
  forall s,
    rules = [] \/ (0 <? length all)%nat = true ->
    ls_newRulePairs s ⊆ ls_rulesPairs s ->
    let s' := installRules all rules s in
    Forall (fun ev => isFailedAdd ev = false) (fw_log (ls_fw s')) ->
    ls_newRulePairs s ⊆ ls_newRulePairs s'
    /\ quiet (ls_newRulePairs s') rules
    /\ dom (ls_newRulePairs s')
       = dom (ls_newRulePairs s) ∪ list_to_set (hits (ls_newRulePairs s') rules)
    /\ (Forall (fun ev => isApplyFailed ev = false) (fw_log (ls_fw s')) ->
        Forall (fun r => exists ip protocol action port ruleID handles,
                    translate r = inl (ip, protocol, action, port, ruleID)
                    /\ ls_newRulePairs s' !! ruleID = Some handles) rules).
Proof.
  induction rules as [|r rest IH]; intros s Hne Hsub.
  - cbn. intros _. repeat split; [reflexivity | set_solver | constructor].
  - destruct Hne as [Hne|Hne]; [discriminate|].
    rewrite installRules_cons. cbv zeta. rewrite Hne.
    pose proof (protoRuleToFirewallRule_cases (ls_rulesPairs s) r
                  (ipsetNameFor (getRuleGroupingSelector r) s).1 (ls_fw s)) as Hc.
    cbv zeta in Hc.
    destruct (protoRuleToFirewallRule _ r _ (ls_fw s)) as [w res].
    cbn [fst snd] in *.
    destruct (translate r) as [[[[[ip protocol] action] port] ruleID]|e0] eqn:Ht.
    + destruct (ls_rulesPairs s !! ruleID) as [cached|] eqn:Hcache.
      * (* found in the map *)
        injection Hc as -> ->.
        match goal with |- context [installRules all rest ?st] =>
          specialize (IH st (or_intror Hne)) end.
        cbn [ls_newRulePairs ls_rulesPairs] in IH.
        intros Hlog. destruct (IH ltac:(now apply insert_mono) Hlog)
          as (Hs2 & Hq & Hdom & Hall).
        set (R := ls_newRulePairs (installRules all rest _)) in *.
        assert (HR : R !! ruleID = Some cached).
        { eapply lookup_weaken; [apply lookup_insert_eq | exact Hs2]. }
        split; [|split; [|split]].
        -- etransitivity; [|exact Hs2].
           destruct (ls_newRulePairs s !! ruleID) as [x|] eqn:Hx.
           ++ pose proof (lookup_weaken _ _ _ _ Hx Hsub) as Hx'.
              rewrite Hcache in Hx'. injection Hx' as ->.
              now rewrite insert_id.
           ++ now apply insert_subseteq.
        -- cbn [quiet]. rewrite Ht, HR. exact Hq.
        -- cbn [hits]. rewrite Ht, HR, Hdom, dom_insert_L. set_solver.
        -- intros Hnf. constructor; [eauto 10 | now apply Hall].
      * destruct Hc as (Hext & Hc & _). destruct res as [[pairID rulePair]|e].
        -- (* installed by the backend *)
           subst pairID.
           match goal with |- context [installRules all rest ?st] =>
             specialize (IH st (or_intror Hne)) end.
           cbn [ls_newRulePairs ls_rulesPairs] in IH.
           intros Hlog. destruct (IH ltac:(now apply insert_mono) Hlog)
             as (Hs2 & Hq & Hdom & Hall).
           set (R := ls_newRulePairs (installRules all rest _)) in *.
           assert (HR : R !! ruleID = Some rulePair).
           { eapply lookup_weaken; [apply lookup_insert_eq | exact Hs2]. }
           split; [|split; [|split]].
           ++ etransitivity; [|exact Hs2]. apply insert_subseteq.
              destruct (ls_newRulePairs s !! ruleID) as [x|] eqn:Hx; [|reflexivity].
              pose proof (lookup_weaken _ _ _ _ Hx Hsub). congruence.
           ++ cbn [quiet]. rewrite Ht, HR. exact Hq.
           ++ cbn [hits]. rewrite Ht, HR, Hdom, dom_insert_L. set_solver.
           ++ intros Hnf. constructor; [eauto 10 | now apply Hall].
        -- cbn [ls_fw ls_newRulePairs].
           destruct (break_log (ls_newRulePairs s) r e w) as (evs & Hlog & _).
           rewrite Hlog. intros Hnofail.
           assert (Hmiss : ls_newRulePairs s !! ruleID = None).
           { destruct (ls_newRulePairs s !! ruleID) as [x|] eqn:Hx; [|reflexivity].
             pose proof (lookup_weaken _ _ _ _ Hx Hsub). congruence. }
           destruct Hc as [(-> & -> & Hin & Hout)|(ev & Hev & Hfail)].
           ++ split; [reflexivity|]. split; [|split].
              ** cbn [quiet]. rewrite Ht, Hmiss. auto.
              ** cbn [hits]. rewrite Ht, Hmiss. set_solver.
              ** intros Hnf. apply Forall_app in Hnf as [_ Hnf].
                 apply Forall_cons in Hnf as [Hnf _]. discriminate Hnf.
           ++ exfalso. apply Forall_app in Hnofail as [Hnofail _].
              rewrite Forall_forall in Hnofail.
              apply list_elem_of_In in Hev. specialize (Hnofail ev Hev). congruence.
    + (* the rule does not translate *)
      injection Hc as -> ->. cbn [ls_fw ls_newRulePairs].
      destruct (break_log (ls_newRulePairs s) r e0 (ls_fw s)) as (evs & Hlog & _).
      rewrite Hlog. intros _. split; [reflexivity|]. split; [|split].
      * cbn [quiet]. now rewrite Ht.
      * cbn [hits]. rewrite Ht. set_solver.
      * intros Hnf. apply Forall_app in Hnf as [_ Hnf].
        apply Forall_cons in Hnf as [Hnf _]. discriminate Hnf.
Qed.

(** The second call: no call to add, the map of pairs is not touched. *)
Lemma second_call (all rules : list FirewallRule) R :
  forall s,
    rules = [] \/ (0 <? length all)%nat = true ->
    quiet R rules -> ls_rulesPairs s = R -> ls_newRulePairs s ⊆ R ->
    let s' := installRules all rules s in
    ls_rulesPairs s' = R
    /\ ls_newRulePairs s' ⊆ R
    /\ dom (ls_newRulePairs s')
       = dom (ls_newRulePairs s) ∪ list_to_set (hits R rules)
    /\ extends (ls_fw s) (ls_fw s')
         (fun ev => isAddCall ev = false /\ isStaleDelete ev = false).
Proof.
  induction rules as [|r rest IH]; intros s Hne Hq HR Hsub.
  - cbn. repeat split; [assumption.. | set_solver | apply extends_refl].
  - destruct Hne as [Hne|Hne]; [discriminate|].
    rewrite installRules_cons. cbv zeta. rewrite Hne.
    pose proof (protoRuleToFirewallRule_cases (ls_rulesPairs s) r
                  (ipsetNameFor (getRuleGroupingSelector r) s).1 (ls_fw s)) as Hc.
    cbv zeta in Hc. cbn [quiet hits] in *.
    assert (Hbreak : forall e,
               extends (ls_fw s)
                 (rollBack (ls_newRulePairs s) (logApplyFailed r e (ls_fw s)))
                 (fun ev => isAddCall ev = false /\ isStaleDelete ev = false)).
    { intros e. destruct (break_log (ls_newRulePairs s) r e (ls_fw s))
        as (evs & Hlog & Hevs).
      exists (EvApplyFailed r e :: evs). split; [assumption|].
      constructor; [now split|]. eapply Forall_impl; [exact Hevs|].
      now intros ev (h & err & ->). }
    destruct (protoRuleToFirewallRule _ r _ (ls_fw s)) as [w res].
    cbn [fst snd] in *.
    destruct (translate r) as [[[[[ip protocol] action] port] ruleID]|e0] eqn:Ht.
    + rewrite HR in Hc.
      destruct (R !! ruleID) as [cached|] eqn:Hcache.
      * injection Hc as -> ->.
        match goal with |- context [installRules all rest ?st] =>
          destruct (IH st (or_intror Hne) Hq) as (H1 & H2 & H3 & H4) end;
          cbn [ls_newRulePairs ls_rulesPairs ls_fw] in *.
        { rewrite HR. now apply insert_id. }
        { now apply insert_subseteq_l. }
        repeat split; [assumption.. | | assumption].
        rewrite H3, dom_insert_L. set_solver.
      * destruct Hq as [Hin Hout]. destruct Hc as (_ & _ & Hc).
        injection (Hc Hin Hout) as -> ->.
        cbn [ls_fw ls_newRulePairs ls_rulesPairs].
        repeat split; [assumption.. | set_solver | apply Hbreak].
    + injection Hc as -> ->. cbn [ls_fw ls_newRulePairs ls_rulesPairs].
      repeat split; [assumption.. | set_solver | apply Hbreak].
Qed.

Lemma run_without_backend (d : DefaultManager Rule B) (nm : NetworkMap) :
  d_firewall d = None ->
  ApplyFiltering_run (IP := IP) d nm
  = {| r_manager := d; r_events := []; r_ipsets := ∅; r_named := [] |}.
Proof. intros H. unfold ApplyFiltering_run. now rewrite H. Qed.

Lemma run_with_backend (d : DefaultManager Rule B) (nm : NetworkMap) (b : B) :
  d_firewall d = Some b ->
  ApplyFiltering_run (IP := IP) d nm = applyRules d b (effectiveRules nm).
Proof. intros H. unfold ApplyFiltering_run. now rewrite H. Qed.

Lemma applyRules_eq (d : DefaultManager Rule B) (b : B) (rules : list FirewallRule) :
  let s := installRules rules rules (loopStart d b) in
  let w := callFlush (removeStale (ls_newRulePairs s) (ls_rulesPairs s) (ls_fw s)).1 in
  applyRules (IP := IP) d b rules
  = {| r_manager := {| d_firewall := Some (fw_state w);
                       ipsetCounter := ls_counter s;
                       rulesPairs := ls_newRulePairs s |};
       r_events := fw_log w; r_ipsets := ls_ipsets s; r_named := ls_named s |}.
Proof. cbv zeta. unfold applyRules. now destruct (removeStale _ _ _). Qed.

Lemma filter_nil_of_Forall (f : event IP Rule -> bool) (l : list (event IP Rule)) :
  Forall (fun ev => f ev = false) l -> List.filter f l = [].
Proof.
  induction 1 as [|ev l Hev _ IH]; [reflexivity|]. cbn. now rewrite Hev.
Qed.

(** C5 (as amended).  When no [AddFiltering] call fails during a call of
    [ApplyFiltering], a second call with the same network map makes no
    [AddFiltering] call, its loop over the old pairs deletes nothing, and
    the map of installed pairs is the same after both calls.  When the
    first call moreover logs no rule as failed, every rule of the list has
    its rule ID in the map after the first call, with the handles the
    second call keeps. *)
Theorem second_call_adds_and_removes_nothing
    (d : DefaultManager Rule B) (networkMap : NetworkMap) :
  let r1 := ApplyFiltering_run (IP := IP) d networkMap in
  let r2 := ApplyFiltering_run (IP := IP) (r_manager r1) networkMap in
  Forall (fun ev => isFailedAdd ev = false) (r_events r1) ->
  List.filter isAddCall (r_events r2) = []
  /\ List.filter isStaleDelete (r_events r2) = []
  /\ rulesPairs (r_manager r2) = rulesPairs (r_manager r1)
  /\ (Forall (fun ev => isApplyFailed ev = false) (r_events r1) ->
      is_Some (d_firewall d) ->
      Forall (fun r => exists ip protocol action port ruleID handles,
                  translate (IP := IP) r = inl (ip, protocol, action, port, ruleID)
                  /\ rulesPairs (r_manager r1) !! ruleID = Some handles
                  /\ rulesPairs (r_manager r2) !! ruleID = Some handles)
        (effectiveRules networkMap)).
Proof.
  intros r1 r2. destruct (d_firewall d) as [b|] eqn:Hfw.
  2:{ assert (E1 : r1 = {| r_manager := d; r_events := []; r_ipsets := ∅;
                           r_named := [] |}) by (unfold r1; now apply run_without_backend).
      assert (E2 : r2 = r1).
      { unfold r2. rewrite E1 at 2. rewrite E1. cbn [r_manager].
        now apply run_without_backend. }
      rewrite E2, E1. cbn. intros _. repeat split. now intros _ [x Hx]. }
  set (rules := effectiveRules networkMap).
  assert (Hne : rules = [] \/ (0 <? length rules)%nat = true).
  { destruct rules; [now left | now right]. }
  set (s1 := installRules rules rules (loopStart d b)).
  set (w1 := (removeStale (ls_newRulePairs s1) (ls_rulesPairs s1) (ls_fw s1)).1).
  assert (E1 : r1 = {| r_manager := {| d_firewall := Some (fw_state (callFlush w1));
                                       ipsetCounter := ls_counter s1;
                                       rulesPairs := ls_newRulePairs s1 |};
                       r_events := fw_log (callFlush w1);
                       r_ipsets := ls_ipsets s1; r_named := ls_named s1 |}).
  { unfold r1. rewrite (run_with_backend d networkMap b Hfw). apply applyRules_eq. }
  pose proof (removeStale_extends (ls_newRulePairs s1) (ls_rulesPairs s1) (ls_fw s1))
    as Hst1. fold w1 in Hst1.
  assert (Hflush : forall w : Fw IP Rule B, exists err,
             fw_log (callFlush w) = fw_log w ++ [EvFlush err]).
  { intros w. unfold callFlush. destruct (firewall.Flush (fw_state w)) as [bf err].
    now exists err. }
  intros Hnofail. rewrite E1 in Hnofail. cbn [r_events] in Hnofail.
  destruct (Hflush w1) as [err1 Hf1]. rewrite Hf1 in Hnofail.
  apply Forall_app in Hnofail as [Hnofail _].
  pose proof (extends_Forall _ _ _ _ Hst1 Hnofail) as Hnofail1.
  destruct (first_call rules rules (loopStart d b) Hne) as (_ & Hq & Hdom & Hall);
    [apply map_empty_subseteq | exact Hnofail1 |].
  fold s1 in Hq, Hdom, Hall. cbn [loopStart ls_newRulePairs] in Hdom.
  set (R := ls_newRulePairs s1) in *.
  set (d1 := r_manager r1).
  assert (Hd1 : d1 = {| d_firewall := Some (fw_state (callFlush w1));
                        ipsetCounter := ls_counter s1; rulesPairs := R |})
    by (unfold d1; now rewrite E1).
  set (b1 := fw_state (callFlush w1)) in *.
  set (s2 := installRules rules rules (loopStart d1 b1)).
  destruct (second_call rules rules R (loopStart d1 b1) Hne Hq)
    as (HR2 & Hsub2 & Hdom2 & Hext2);
    [now rewrite Hd1 | apply map_empty_subseteq |].
  fold s2 in HR2, Hsub2, Hdom2, Hext2.
  cbn [loopStart ls_newRulePairs ls_fw fw_log] in Hdom2, Hext2.
  assert (Hsame : ls_newRulePairs s2 = R).
  { apply subseteq_dom_eq; [assumption|]. rewrite Hdom2, Hdom. set_solver. }
  assert (E2 : r2 = {| r_manager := {| d_firewall := Some (fw_state (callFlush (ls_fw s2)));
                                       ipsetCounter := ls_counter s2;
                                       rulesPairs := R |};
                       r_events := fw_log (callFlush (ls_fw s2));
                       r_ipsets := ls_ipsets s2; r_named := ls_named s2 |}).
  { unfold r2. fold d1. rewrite (run_with_backend d1 networkMap b1) by now rewrite Hd1.
    fold rules. rewrite applyRules_eq. fold s2. cbv zeta.
    rewrite Hsame, HR2, removeStale_nothing by auto. reflexivity. }
  rewrite E2. cbn [r_manager r_events rulesPairs]. fold d1. rewrite Hd1.
  cbn [rulesPairs].
  destruct Hext2 as (evs & Hlog2 & Hevs). cbn [app] in Hlog2.
  destruct (Hflush (ls_fw s2)) as [err2 Hf2]. rewrite Hf2, Hlog2.
  split; [|split; [|split; [reflexivity|]]].
  - apply filter_nil_of_Forall, Forall_app. split; [|now repeat constructor].
    eapply Forall_impl; [exact Hevs | now intros ev [? ?]].
  - apply filter_nil_of_Forall, Forall_app. split; [|now repeat constructor].
    eapply Forall_impl; [exact Hevs | now intros ev [? ?]].
  - intros Hnf _. rewrite E1 in Hnf. cbn [r_events] in Hnf. rewrite Hf1 in Hnf.
    apply Forall_app in Hnf as [Hnf _].
    pose proof (extends_Forall _ _ _ _ Hst1 Hnf) as Hnf1.
    eapply Forall_impl; [exact (Hall Hnf1)|].
    intros r (ip & protocol & action & port & ruleID & handles & Ht & Hl).
    eauto 10.
Qed.

End Twice.

Section ClosedTwice.
Import testenv examples.

Lemma second_call_adds_and_removes_nothing_witness :
  let nm := networkMap [] [ruleA; ruleC] in
  let r1 := ApplyFiltering_run (IP := list Z) (manager []) nm in
  let r2 := ApplyFiltering_run (IP := list Z) (r_manager r1) nm in
  Forall (fun ev => isFailedAdd ev = false) (r_events r1)
  /\ List.filter isAddCall (r_events r2) = []
  /\ List.filter isStaleDelete (r_events r2) = [].
Proof.
  intros nm r1 r2.
  assert (H : Forall (fun ev => isFailedAdd ev = false) (r_events r1)).
  { vm_compute. repeat constructor. }
  split; [exact H|].
  pose proof (second_call_adds_and_removes_nothing (IP := list Z) (manager []) nm H)
    as (H1 & H2 & _).
  split; [exact H1 | exact H2].
Defined.

End ClosedTwice.

(* ===================================================================== *)
(** ** The squasher *)
(* ===================================================================== *)

Section Squasher.

Implicit Types (r : FirewallRule) (m : gmap Z (gmap string nat))
  (all : list FirewallRule).

Lemma recorded_empty all (inbound : bool) : recorded all ∅ inbound.
Proof. intros P ips ip i H. now rewrite lookup_empty in H. Qed.

Lemma recorded_reset all m (inbound : bool) (P : Z) :
  recorded all m inbound -> recorded all (<[P := ∅]> m) inbound.
Proof.
  intros Hm P' ips ip i. rewrite lookup_insert. case_decide as E.
  - intros [= <-]. now rewrite lookup_empty.
  - apply Hm.
Qed.

Lemma addRuleToCalculationMap_recorded all m (inbound : bool) (i : nat) r
    (sq : squashed) :
  recorded all m inbound -> all !! i = Some r ->
  (Direction r =? FirewallRule_IN) = inbound ->
  recorded all (addRuleToCalculationMap i r m sq).1 inbound.
Proof.
  intros Hm Hi Hdir. unfold addRuleToCalculationMap.
  destruct (isDrop r) eqn:Hdrop; cbn [fst]; [now apply recorded_reset|].
  set (m1 := match m !! Protocol r with
             | Some _ => m
             | None => <[Protocol r := ∅]> m
             end).
  assert (Hm1 : recorded all m1 inbound).
  { unfold m1. destruct (m !! Protocol r); [assumption | now apply recorded_reset]. }
  destruct (String.eqb_spec (PeerIP r) "0.0.0.0") as [Hw|Hw]; cbn [fst]; [assumption|].
  destruct (default ∅ (m1 !! Protocol r) !! PeerIP r) eqn:Hip; cbn [fst]; [assumption|].
  intros P ips ip j. rewrite lookup_insert. case_decide as E.
  - intros [= <-]. rewrite lookup_insert. case_decide as E'.
    + intros [= <-]. exists r. subst. repeat split; auto.
    + intros Hj. destruct (m1 !! Protocol r) as [ips0|] eqn:H0; cbn in Hj.
      * subst P. exact (Hm1 _ _ _ _ H0 Hj).
      * now rewrite lookup_empty in Hj.
  - apply Hm1.
Qed.

Lemma calculate_recorded all (rest : list FirewallRule) :
  forall (pre : list FirewallRule) (c : calc),
    all = pre ++ rest ->
    recorded all (c_in c) true -> recorded all (c_out c) false ->
    recorded all (c_in (calculate (length pre) rest c)) true
    /\ recorded all (c_out (calculate (length pre) rest c)) false.
Proof.
  induction rest as [|r rest IH]; intros pre c Hall Hin Hout; [now split|].
  cbn [calculate].
  assert (Hi : all !! length pre = Some r).
  { rewrite Hall. now rewrite list_lookup_middle. }
  assert (Hall' : all = (pre ++ [r]) ++ rest) by now rewrite <- app_assoc.
  replace (S (length pre)) with (length (pre ++ [r]))
    by (rewrite length_app; cbn; lia).
  destruct (Direction r =? FirewallRule_IN) eqn:Hdir.
  - pose proof (addRuleToCalculationMap_recorded all (c_in c) true (length pre) r
                  (c_sq c) Hin Hi Hdir) as Hin'.
    destruct (addRuleToCalculationMap (length pre) r (c_in c) (c_sq c)) as [m sq].
    now apply IH.
  - pose proof (addRuleToCalculationMap_recorded all (c_out c) false (length pre) r
                  (c_sq c) Hout Hi Hdir) as Hout'.
    destruct (addRuleToCalculationMap (length pre) r (c_out c) (c_sq c)) as [m sq].
    now apply IH.
Qed.

Lemma squashPass_recorded (networkMap : NetworkMap) :
  recorded (FirewallRules networkMap) (c_in (squashPass networkMap)) true
  /\ recorded (FirewallRules networkMap) (c_out (squashPass networkMap)) false.
Proof.
  unfold squashPass. cbn [c_in c_out].
  apply (calculate_recorded (FirewallRules networkMap) (FirewallRules networkMap) []);
    [reflexivity | apply recorded_empty | apply recorded_empty].
Qed.









End Squasher.

Section ClosedSquasher.
Import testenv examples.


(** A rule left out need not be an ACCEPT rule, nor a rule of direction IN
    or OUT: with TCP squashed for the inbound direction, a TCP rule without
    port whose direction is 7 and whose action is 5 is recorded in the map
    of the outbound rules, at index 1, and left out. *)
Example non_accept_rule_is_left_out :
  let odd := rule "10.0.0.2" 7 5 FirewallRule_TCP "" in
  let res := squashAcceptRules
               (networkMap twoPeers
                  [tcpIn "10.0.0.1" FirewallRule_ACCEPT; odd;
                   tcpIn "10.0.0.2" FirewallRule_ACCEPT]) in
  res.1 = [wildcard FirewallRule_IN FirewallRule_TCP]
  /\ bool_decide (FirewallRule_ALL ∈ res.2) = false
  /\ isDrop odd = false
  /\ Action odd <> FirewallRule_ACCEPT.
Proof. vm_compute. repeat split; discriminate. Qed.

End ClosedSquasher.

(* ===================================================================== *)
(** ** More on the squasher *)
(* ===================================================================== *)

Section SquasherMore.

Implicit Types (r : FirewallRule) (m : gmap Z (gmap string nat))
  (sq : squashed) (c : calc) (networkMap : NetworkMap).

(** [squash] over protocols other than ALL: no early exit. *)
Lemma squash_without_ALL (total : nat) m (direction : Z) (protocols : list Z) :
  Forall (fun p => p <> FirewallRule_ALL) protocols ->
  forall sq,
    squashedRules (squash total m direction protocols sq)
    = squashedRules sq
        ++ map (wildcard direction) (List.filter (covers total m) protocols)
    /\ squashedProtocols (squash total m direction protocols sq)
       = list_to_set (List.filter (covers total m) protocols) ∪ squashedProtocols sq.
Proof.
  induction 1 as [|p rest Hp _ IH]; intros sq.
  - cbn. rewrite app_nil_r. split; [reflexivity | set_solver].
  - cbn [squash List.filter].
    assert (Hc : covers total m p
                 = match m !! p with
                   | Some ipset => (size ipset =? total)%nat && negb (size ipset <? 2)%nat
                   | None => false
                   end) by reflexivity.
    rewrite Hc. clear Hc.
    destruct (m !! p) as [ipset|]; [|apply IH].
    destruct (size ipset =? total)%nat, (size ipset <? 2)%nat;
      cbn [negb andb orb]; try apply IH.
    destruct (Z.eqb_spec p FirewallRule_ALL) as [E|_]; [contradiction|].
    destruct (IH {| squashedRules := squashedRules sq ++ [wildcard direction p];
                    squashedProtocols := {[p]} ∪ squashedProtocols sq |}) as [H1 H2].
    rewrite H1, H2. cbn [squashedRules squashedProtocols map list_to_set].
    rewrite <- app_assoc. split; [reflexivity | set_solver].
Qed.

Lemma squash_squashable (total : nat) m (direction : Z) sq :
  squashedRules (squash total m direction protocolOrders sq)
  = squashedRules sq ++ map (wildcard direction) (squashable total m)
  /\ squashedProtocols (squash total m direction protocolOrders sq)
     = list_to_set (squashable total m) ∪ squashedProtocols sq.
Proof.
  assert (Hrest : Forall (fun p => p <> FirewallRule_ALL)
                    [FirewallRule_ICMP; FirewallRule_TCP; FirewallRule_UDP])
    by (repeat constructor; discriminate).
  unfold squashable, protocolOrders. cbn [squash].
  assert (Hc : covers total m FirewallRule_ALL
               = match m !! FirewallRule_ALL with
                 | Some ipset => (size ipset =? total)%nat && negb (size ipset <? 2)%nat
                 | None => false
                 end) by reflexivity.
  rewrite Hc. clear Hc.
  destruct (m !! FirewallRule_ALL) as [ipset|];
    [|apply (squash_without_ALL _ _ _ _ Hrest)].
  destruct (size ipset =? total)%nat, (size ipset <? 2)%nat;
    cbn [negb andb orb]; try apply (squash_without_ALL _ _ _ _ Hrest).
  cbn. split; [reflexivity | set_solver].
Qed.

(** X1.  For one direction [squash] appends, to the squashed rules it
    finds, the wildcard rule of ALL alone when the record of ALL has as
    many peers as there are allowed IPs and two at least; otherwise the
    wildcard rules of those of ICMP, TCP and UDP whose records have, in
    this order.  The squashed protocols grow by the same protocols. *)
Theorem squash_emits_covering_protocols
    (total : nat) m (direction : Z) sq :
  squashedRules (squash total m direction protocolOrders sq)
  = squashedRules sq ++ map (wildcard direction) (squashable total m)
  /\ squashedProtocols (squash total m direction protocolOrders sq)
     = list_to_set (squashable total m) ∪ squashedProtocols sq.
Proof. apply squash_squashable. Qed.

Lemma addRuleToCalculationMap_squashed (i : nat) r m sq :
  (addRuleToCalculationMap i r m sq).2
  = if isWildcardAccept r
    then {| squashedRules := squashedRules sq ++ [r];
            squashedProtocols := {[Protocol r]} ∪ squashedProtocols sq |}
    else sq.
Proof.
  unfold addRuleToCalculationMap, isWildcardAccept.
  destruct (isDrop r); cbn [negb andb snd]; [reflexivity|].
  destruct (String.eqb (PeerIP r) "0.0.0.0"); cbn [snd]; [reflexivity|].
  now destruct (default ∅ _ !! PeerIP r).
Qed.

Lemma calculate_squashed (rules : list FirewallRule) :
  forall (i : nat) c,
    squashedRules (c_sq (calculate i rules c))
    = squashedRules (c_sq c) ++ List.filter isWildcardAccept rules
    /\ squashedProtocols (c_sq (calculate i rules c))
       = list_to_set (map Protocol (List.filter isWildcardAccept rules))
           ∪ squashedProtocols (c_sq c).
Proof.
  induction rules as [|r rest IH]; intros i c.
  - cbn. rewrite app_nil_r. split; [reflexivity | set_solver].
  - cbn [calculate List.filter].
    match goal with |- context [calculate (S i) rest ?c'] =>
      destruct (IH (S i) c') as [IH1 IH2];
      assert (Hsq : c_sq c'
                    = if isWildcardAccept r
                      then {| squashedRules := squashedRules (c_sq c) ++ [r];
                              squashedProtocols :=
                                {[Protocol r]} ∪ squashedProtocols (c_sq c) |}
                      else c_sq c)
    end.
    { destruct (Direction r =? FirewallRule_IN).
      - rewrite <- (addRuleToCalculationMap_squashed i r (c_in c) (c_sq c)).
        now destruct (addRuleToCalculationMap i r (c_in c) (c_sq c)).
      - rewrite <- (addRuleToCalculationMap_squashed i r (c_out c) (c_sq c)).
        now destruct (addRuleToCalculationMap i r (c_out c) (c_sq c)). }
    rewrite IH1, IH2, Hsq.
    destruct (isWildcardAccept r); cbn [squashedRules squashedProtocols map list_to_set].
    + rewrite <- app_assoc. split; [reflexivity | set_solver].
    + split; reflexivity.
Qed.

Lemma union_rotate (X Y Z' : gset Z) : Z' ∪ (Y ∪ (X ∪ ∅)) = X ∪ (Y ∪ Z').
Proof. set_solver. Qed.

(** The squashed rules and protocols of a network map. *)
Lemma squashPass_squashed networkMap :
  let c := squashPass networkMap in
  let total := totalIPs networkMap in
  squashedRules (c_sq c)
  = List.filter isWildcardAccept (FirewallRules networkMap)
      ++ map (wildcard FirewallRule_IN) (squashable total (c_in c))
      ++ map (wildcard FirewallRule_OUT) (squashable total (c_out c))
  /\ squashedProtocols (c_sq c)
     = list_to_set (map Protocol (squashedRules (c_sq c))).
Proof.
  intros c total.
  assert (Hrules : squashedRules (c_sq c)
                   = List.filter isWildcardAccept (FirewallRules networkMap)
                       ++ map (wildcard FirewallRule_IN) (squashable total (c_in c))
                       ++ map (wildcard FirewallRule_OUT) (squashable total (c_out c))).
  { unfold c, squashPass. cbn [c_sq c_in c_out].
    rewrite (proj1 (squash_squashable _ _ _ _)).
    rewrite (proj1 (squash_squashable _ _ _ _)).
    rewrite (proj1 (calculate_squashed _ _ _)). cbn [squashedRules c_sq app].
    now rewrite <- app_assoc. }
  split; [exact Hrules|].
  rewrite Hrules. unfold c, total, squashPass. cbn [c_sq c_in c_out].
  rewrite (proj2 (squash_squashable _ _ _ _)).
  rewrite (proj2 (squash_squashable _ _ _ _)).
  rewrite (proj2 (calculate_squashed _ _ _)). cbn [squashedProtocols c_sq].
  rewrite !map_app, !list_to_set_app_L, !map_map. cbn [wildcard Protocol].
  rewrite !map_id. apply union_rotate.
Qed.

(** X2.  The squashed rules are, in this order: the rules of the network
    map that are wildcard rules already (peer IP 0.0.0.0, action not DROP,
    no port), the wildcard rules [squash] emits for the inbound direction,
    and those it emits for the outbound direction.  The squashed protocols
    are the protocols of these rules.  So every squashed rule has peer IP
    0.0.0.0, no port and an action other than DROP, and a protocol is among
    the squashed protocols exactly when one of the squashed rules has it. *)
Theorem squashedRules_are_wildcards networkMap :
  let c := squashPass networkMap in
  let total := totalIPs networkMap in
  squashedRules (c_sq c)
  = List.filter isWildcardAccept (FirewallRules networkMap)
      ++ map (wildcard FirewallRule_IN) (squashable total (c_in c))
      ++ map (wildcard FirewallRule_OUT) (squashable total (c_out c))
  /\ squashedProtocols (c_sq c)
     = list_to_set (map Protocol (squashedRules (c_sq c)))
  /\ (forall r, In r (squashedRules (c_sq c)) -> isWildcardAccept r = true)
  /\ (forall P : Z, P ∈ squashedProtocols (c_sq c)
        <-> exists r, In r (squashedRules (c_sq c)) /\ Protocol r = P).
Proof.
  intros c total.
  destruct (squashPass_squashed networkMap) as [Hrules Hset].
  fold c total in Hrules, Hset.
  split; [exact Hrules | split; [exact Hset | split]].
  - rewrite Hrules. intros r [Hr|[Hr|Hr]%in_app_or]%in_app_or.
    + apply filter_In in Hr as [_ Hr]. exact Hr.
    + apply in_map_iff in Hr as (P & <- & _). reflexivity.
    + apply in_map_iff in Hr as (P & <- & _). reflexivity.
  - intros P. rewrite Hset, elem_of_list_to_set, list_elem_of_In, in_map_iff.
    split; intros (r & H1 & H2); exists r; auto.
Qed.

Lemma totalIPs_length networkMap :
  totalIPs networkMap = length (allowedIPs networkMap).
Proof.
  unfold totalIPs, allowedIPs.
  generalize (RemotePeers networkMap ++ OfflinePeers networkMap) as peers.
  assert (Hin : forall (l : list string) (n : nat),
             fold_left (fun k _ => S k) l n = (n + length l)%nat).
  { induction l as [|a l IH]; intros n; cbn; [lia|]. rewrite IH. lia. }
  assert (Hout : forall (peers : list RemotePeerConfig) (n : nat),
             fold_left (fun k p => fold_left (fun k _ => S k) (AllowedIps p) k) peers n
             = (n + length (concat (map AllowedIps peers)))%nat).
  { induction peers as [|p peers IH]; intros n; cbn [fold_left map concat length];
      [lia|]. rewrite IH, Hin, length_app. lia. }
  intros peers. now rewrite Hout.
Qed.

Lemma squashable_covers (total : nat) m (P : Z) :
  In P (squashable total m) -> covers total m P = true.
Proof.
  unfold squashable. destruct (covers total m FirewallRule_ALL) eqn:HALL.
  - now intros [<-|[]].
  - now intros [_ H]%filter_In.
Qed.

Lemma squashable_backed networkMap (inbound : bool) (P : Z) :
  In P (squashable (totalIPs networkMap) (mapOf (squashPass networkMap) inbound)) ->
  backed networkMap inbound P.
Proof.
  intros Hc%squashable_covers. unfold covers in Hc.
  destruct (mapOf (squashPass networkMap) inbound !! P) as [ipset|] eqn:Hm;
    [|discriminate].
  apply andb_true_iff in Hc as [Hsize Htwo].
  apply Nat.eqb_eq in Hsize. apply negb_true_iff, Nat.ltb_ge in Htwo.
  rewrite totalIPs_length in Hsize.
  assert (Hrec : recorded (FirewallRules networkMap)
                   (mapOf (squashPass networkMap) inbound) inbound).
  { destruct (squashPass_recorded networkMap). now destruct inbound. }
  split; [lia|]. exists (map fst (map_to_list ipset)). split; [|split].
  - apply NoDup_fst_map_to_list.
  - now rewrite length_map, <- Hsize, length_map_to_list.
  - intros ip ((ip' & i) & <- & Hin%list_elem_of_In%elem_of_map_to_list)%in_map_iff.
    cbn [fst]. destruct (Hrec P ipset ip' i Hm Hin) as (r & Hr & HP & HIP & Hd & Hdrop & Hw).
    exists r. repeat split; auto.
    + apply list_elem_of_In. now apply list_elem_of_lookup_2 in Hr.
    + now rewrite <- HIP.
Qed.

Lemma filterSquashed_In (cin cout : gmap Z (gmap string nat)) (sp : gset Z)
    (rules : list FirewallRule) r :
  forall i : nat, In r (filterSquashed cin cout sp i rules) -> In r rules.
Proof.
  induction rules as [|r' rest IH]; intros i; [intros []|].
  cbn [filterSquashed]. destruct (isSquashed cin cout sp i r').
  - intros H. right. now apply (IH (S i)).
  - intros [->|H]; [now left | right; now apply (IH (S i))].
Qed.

(** X3.  The squasher invents no rule but backed wildcards: every rule
    of its output is a rule of the network map, or the ACCEPT rule for
    0.0.0.0 without port of some protocol, inbound or outbound, and then
    the network map has at least two allowed IPs and rules of that protocol,
    without DROP and without port, for as many different peer IPs as it has
    allowed IPs (inbound rules for an inbound wildcard, rules that are not
    inbound for an outbound one). *)
Theorem squasher_output_rules networkMap r :
  In r (squashAcceptRules networkMap).1 ->
  In r (FirewallRules networkMap)
  \/ exists (inbound : bool) (P : Z),
       r = wildcard (directionOf inbound) P /\ backed networkMap inbound P.
Proof.
  assert (Hsq : In r (squashedRules (c_sq (squashPass networkMap))) ->
                In r (FirewallRules networkMap)
                \/ exists (inbound : bool) (P : Z),
                     r = wildcard (directionOf inbound) P
                     /\ backed networkMap inbound P).
  { rewrite (proj1 (squashPass_squashed networkMap)).
    intros [Hr|[Hr|Hr]%in_app_or]%in_app_or.
    - left. now apply filter_In in Hr as [Hr _].
    - right. apply in_map_iff in Hr as (P & <- & HP). exists true, P.
      split; [reflexivity | now apply squashable_backed].
    - right. apply in_map_iff in Hr as (P & <- & HP). exists false, P.
      split; [reflexivity | now apply squashable_backed]. }
  unfold squashAcceptRules. cbv zeta.
  destruct (bool_decide _); cbn [fst]; [exact Hsq|].
  destruct (length _ =? 0)%nat; cbn [fst]; [now left|].
  intros [Hr|Hr]%in_app_or; [left; now apply filterSquashed_In in Hr | now apply Hsq].
Qed.

Lemma enableSSH_all_squashed networkMap (sp : gset Z) :
  FirewallRule_ALL ∈ sp -> enableSSH networkMap sp = false.
Proof.
  intros H. unfold enableSSH. cbv zeta. rewrite (bool_decide_eq_true_2 _ H).
  cbn [negb]. rewrite !andb_false_r. now destruct (bool_decide _).
Qed.

(** X4.  When ALL is among the squashed protocols, the list
    [ApplyFiltering] installs is the list of squashed rules and nothing
    else: no SSH rule and no allow-all pair is appended, and every rule of
    the list is a wildcard rule, so every rule of the network map for a
    specific peer, with DROP action or with a port is left out. *)
Theorem all_squashed_installs_wildcards_only networkMap :
  FirewallRule_ALL ∈ (squashAcceptRules networkMap).2 ->
  effectiveRules networkMap = squashedRules (c_sq (squashPass networkMap))
  /\ (forall r, In r (effectiveRules networkMap) -> isWildcardAccept r = true)
  /\ (forall r, In r (FirewallRules networkMap) -> isWildcardAccept r = false ->
        ~ In r (effectiveRules networkMap)).
Proof.
  intros HALL.
  assert (Hsp : (squashAcceptRules networkMap).2
                = squashedProtocols (c_sq (squashPass networkMap))).
  { unfold squashAcceptRules. cbv zeta.
    destruct (bool_decide _); [reflexivity|]. now destruct (length _ =? 0)%nat. }
  rewrite Hsp in HALL.
  assert (Hwild : forall r, In r (squashedRules (c_sq (squashPass networkMap))) ->
                            isWildcardAccept r = true).
  { rewrite (proj1 (squashPass_squashed networkMap)).
    intros r [Hr|[Hr|Hr]%in_app_or]%in_app_or.
    - apply filter_In in Hr as [_ Hr]. exact Hr.
    - apply in_map_iff in Hr as (P & <- & _). reflexivity.
    - apply in_map_iff in Hr as (P & <- & _). reflexivity. }
  assert (Hne : FirewallRules networkMap <> []).
  { intros Hnil. pose proof HALL as HALL'.
    rewrite (proj2 (squashPass_squashed networkMap)) in HALL'.
    apply elem_of_list_to_set, list_elem_of_In, in_map_iff in HALL' as (w & _ & Hw).
    rewrite (proj1 (squashPass_squashed networkMap)) in Hw.
    revert Hw. unfold squashPass. rewrite Hnil. cbn [calculate c_in c_out].
    unfold squashable, covers. now rewrite !lookup_empty. }
  assert (E : effectiveRules networkMap = squashedRules (c_sq (squashPass networkMap))).
  { unfold effectiveRules, squashAcceptRules. cbv zeta.
    rewrite (bool_decide_eq_true_2 _ HALL).
    rewrite (enableSSH_all_squashed _ _ HALL).
    destruct (FirewallRules networkMap); [contradiction|]. reflexivity. }
  split; [exact E | split].
  - rewrite E. exact Hwild.
  - intros r _ Hr Hin. rewrite E in Hin. apply Hwild in Hin. congruence.
Qed.

Lemma filter_none {A : Type} (f : A -> bool) (l : list A) :
  Forall (fun x => f x = false) l -> List.filter f l = [].
Proof.
  induction 1 as [|x l Hx _ IH]; [reflexivity|]. cbn [List.filter]. now rewrite Hx.
Qed.

Lemma covers_few (total : nat) m (P : Z) :
  (total < 2)%nat -> covers total m P = false.
Proof.
  intros Hlt. unfold covers. destruct (m !! P) as [ipset|]; [|reflexivity].
  destruct (Nat.eqb_spec (size ipset) total) as [E|_]; [|reflexivity].
  destruct (Nat.ltb_spec (size ipset) 2) as [_|Hge]; [reflexivity | lia].
Qed.

Lemma squashable_few (total : nat) m :
  (total < 2)%nat -> squashable total m = [].
Proof.
  intros Hlt. unfold squashable. cbn [List.filter]. now rewrite !covers_few.
Qed.

(** X5.  With fewer than two allowed IPs in the network map, no wildcard
    rule is synthesised: the squashed rules are the wildcard rules of the
    network map itself, and when it has none the squasher returns its rules
    unchanged, with no squashed protocol. *)
Theorem fewer_than_two_ips_nothing_synthesised networkMap :
  (length (allowedIPs networkMap) < 2)%nat ->
  squashedRules (c_sq (squashPass networkMap))
  = List.filter isWildcardAccept (FirewallRules networkMap)
  /\ (Forall (fun r => isWildcardAccept r = false) (FirewallRules networkMap) ->
      squashAcceptRules networkMap = (FirewallRules networkMap, ∅)).
Proof.
  intros Hlt. rewrite <- totalIPs_length in Hlt.
  destruct (squashPass_squashed networkMap) as [Hrules Hset]. cbv zeta in *.
  rewrite !(squashable_few _ _ Hlt) in Hrules. cbn [map] in Hrules.
  rewrite !app_nil_r in Hrules. split; [exact Hrules|].
  intros Hnone.
  assert (Hnil : squashedRules (c_sq (squashPass networkMap)) = []).
  { rewrite Hrules. now apply filter_none. }
  unfold squashAcceptRules. cbv zeta. rewrite Hset, Hnil. cbn [map list_to_set length].
  rewrite bool_decide_eq_false_2 by apply not_elem_of_empty. reflexivity.
Qed.

End SquasherMore.

Section SquasherEdges.

Implicit Types (r : FirewallRule) (m : gmap Z (gmap string nat))
  (sq : squashed) (c : calc) (networkMap : NetworkMap).

Lemma addRuleToCalculationMap_other (i : nat) r m sq (P : Z) :
  Protocol r <> P -> (addRuleToCalculationMap i r m sq).1 !! P = m !! P.
Proof.
  intros Hne. unfold addRuleToCalculationMap.
  destruct (isDrop r); cbn [fst];
    [rewrite lookup_insert_ne by exact Hne; reflexivity|].
  set (m1 := match m !! Protocol r with
             | Some _ => m
             | None => <[Protocol r := ∅]> m
             end).
  assert (Hm1 : m1 !! P = m !! P).
  { unfold m1. destruct (m !! Protocol r); [reflexivity|].
    rewrite lookup_insert_ne by exact Hne. reflexivity. }
  destruct (String.eqb (PeerIP r) "0.0.0.0"); cbn [fst]; [exact Hm1|].
  destruct (default ∅ (m1 !! Protocol r) !! PeerIP r); cbn [fst]; [exact Hm1|].
  rewrite lookup_insert_ne by exact Hne. exact Hm1.
Qed.

Lemma addRuleToCalculationMap_drop (i : nat) r m sq :
  isDrop r = true -> (addRuleToCalculationMap i r m sq).1 !! Protocol r = Some ∅.
Proof.
  intros Hd. unfold addRuleToCalculationMap. rewrite Hd. cbn [fst].
  apply lookup_insert_eq.
Qed.

(** One turn of the first loop, seen from the map of one direction. *)
Lemma calculate_cons (i : nat) r (rest : list FirewallRule) c :
  exists c',
    calculate i (r :: rest) c = calculate (S i) rest c'
    /\ forall inbound : bool,
         mapOf c' inbound
         = if Bool.eqb (Direction r =? FirewallRule_IN) inbound
           then (addRuleToCalculationMap i r (mapOf c inbound) (c_sq c)).1
           else mapOf c inbound.
Proof.
  cbn [calculate]. destruct (Direction r =? FirewallRule_IN).
  - destruct (addRuleToCalculationMap i r (c_in c) (c_sq c)) as [m' sq'] eqn:E.
    eexists. split; [reflexivity|]. intros [|]; cbn [mapOf c_in c_out Bool.eqb fst].
    + now rewrite E.
    + reflexivity.
  - destruct (addRuleToCalculationMap i r (c_out c) (c_sq c)) as [m' sq'] eqn:E.
    eexists. split; [reflexivity|]. intros [|]; cbn [mapOf c_in c_out Bool.eqb fst].
    + reflexivity.
    + now rewrite E.
Qed.

Lemma calculate_keeps (inbound : bool) (P : Z) (rules : list FirewallRule) :
  (forall r, In r rules -> (Direction r =? FirewallRule_IN) = inbound ->
             Protocol r <> P) ->
  forall (i : nat) c,
    mapOf (calculate i rules c) inbound !! P = mapOf c inbound !! P.
Proof.
  induction rules as [|r rest IH]; intros Hother i c; [reflexivity|].
  destruct (calculate_cons i r rest c) as (c' & -> & Hc').
  rewrite IH by (intros r' Hr'; apply Hother; now right).
  rewrite Hc'. destruct (Bool.eqb_spec (Direction r =? FirewallRule_IN) inbound) as [E|_];
    [|reflexivity].
  apply addRuleToCalculationMap_other. apply Hother; [now left | exact E].
Qed.

Lemma calculate_after_drop (pre post : list FirewallRule) r :
  isDrop r = true ->
  (forall r', In r' post ->
     (Direction r' =? FirewallRule_IN) = (Direction r =? FirewallRule_IN) ->
     Protocol r' <> Protocol r) ->
  forall (i : nat) c,
    mapOf (calculate i (pre ++ r :: post) c) (Direction r =? FirewallRule_IN)
      !! Protocol r = Some ∅.
Proof.
  intros Hd Hother. induction pre as [|a pre IH]; intros i c.
  - cbn [app]. destruct (calculate_cons i r post c) as (c' & -> & Hc').
    rewrite calculate_keeps by exact Hother.
    rewrite Hc', eqb_reflx. now apply addRuleToCalculationMap_drop.
  - cbn [app]. destruct (calculate_cons i a (pre ++ r :: post) c) as (c' & -> & _).
    apply IH.
Qed.

Lemma squashAcceptRules_In networkMap r :
  In r (squashAcceptRules networkMap).1 ->
  In r (FirewallRules networkMap)
  \/ exists (inbound : bool) (P : Z),
       r = wildcard (directionOf inbound) P
       /\ In P (squashable (totalIPs networkMap) (mapOf (squashPass networkMap) inbound)).
Proof.
  assert (Hsq : In r (squashedRules (c_sq (squashPass networkMap))) ->
                In r (FirewallRules networkMap)
                \/ exists (inbound : bool) (P : Z),
                     r = wildcard (directionOf inbound) P
                     /\ In P (squashable (totalIPs networkMap)
                                (mapOf (squashPass networkMap) inbound))).
  { rewrite (proj1 (squashPass_squashed networkMap)).
    intros [Hr|[Hr|Hr]%in_app_or]%in_app_or.
    - left. now apply filter_In in Hr as [Hr _].
    - right. apply in_map_iff in Hr as (P & <- & HP). now exists true, P.
    - right. apply in_map_iff in Hr as (P & <- & HP). now exists false, P. }
  unfold squashAcceptRules. cbv zeta.
  destruct (bool_decide _); cbn [fst]; [exact Hsq|].
  destruct (length _ =? 0)%nat; cbn [fst]; [now left|].
  intros [Hr|Hr]%in_app_or; [left; now apply filterSquashed_In in Hr | now apply Hsq].
Qed.

(** X6.  A rule with DROP action or with a port empties the record of
    its protocol in the map of its direction.  When no later rule of this
    direction has the protocol, the record is empty when [squash] runs: no
    wildcard rule is synthesised for the protocol in this direction, and
    every rule of the squasher's output with this protocol and direction is
    a rule of the network map. *)
Theorem drop_last_blocks_squash networkMap (pre post : list FirewallRule) r :
  let inbound := Direction r =? FirewallRule_IN in
  FirewallRules networkMap = pre ++ r :: post ->
  isDrop r = true ->
  (forall r', In r' post -> (Direction r' =? FirewallRule_IN) = inbound ->
              Protocol r' <> Protocol r) ->
  mapOf (squashPass networkMap) inbound !! Protocol r = Some ∅
  /\ ~ In (Protocol r)
         (squashable (totalIPs networkMap) (mapOf (squashPass networkMap) inbound))
  /\ (forall w, In w (squashAcceptRules networkMap).1 ->
        Protocol w = Protocol r -> (Direction w =? FirewallRule_IN) = inbound ->
        In w (FirewallRules networkMap)).
Proof.
  intros inbound Hrules Hd Hother.
  assert (Hrec : mapOf (squashPass networkMap) inbound !! Protocol r = Some ∅).
  { pose proof (calculate_after_drop pre post r Hd Hother 0
                  {| c_in := ∅; c_out := ∅;
                     c_sq := {| squashedRules := []; squashedProtocols := ∅ |} |}) as H.
    rewrite <- Hrules in H. unfold squashPass. fold inbound in H.
    destruct inbound; exact H. }
  assert (Hno : ~ In (Protocol r)
                  (squashable (totalIPs networkMap)
                     (mapOf (squashPass networkMap) inbound))).
  { intros Hc%squashable_covers. unfold covers in Hc. rewrite Hrec in Hc.
    rewrite map_size_empty in Hc. cbn in Hc. now rewrite andb_false_r in Hc. }
  split; [exact Hrec | split; [exact Hno|]].
  intros w [Hw|(b & P & -> & HP)]%squashAcceptRules_In HPw Hdir; [exact Hw|].
  cbn [wildcard Protocol Direction] in HPw, Hdir. subst P.
  assert (b = inbound) as -> by (rewrite <- Hdir; now destruct b).
  contradiction.
Qed.

Lemma squashable_empty (total : nat) : squashable total ∅ = [].
Proof.
  unfold squashable, covers. cbn [List.filter]. now rewrite !lookup_empty.
Qed.

(** X7.  A network map without firewall rules: the squasher returns no
    rule and no squashed protocol, and the list [ApplyFiltering] installs is
    the SSH rule when SSH is enabled in the peer configuration, followed by
    the two allow-all rules unless the flag [FirewallRulesIsEmpty] is set. *)
Theorem no_rules_edge networkMap :
  FirewallRules networkMap = [] ->
  squashAcceptRules networkMap = ([], ∅)
  /\ effectiveRules networkMap
     = (if sshDeclared networkMap then [sshRule] else [])
         ++ (if FirewallRulesIsEmpty networkMap then [] else allowAll).
Proof.
  intros Hnil.
  assert (Hin : c_in (squashPass networkMap) = ∅)
    by (unfold squashPass; rewrite Hnil; reflexivity).
  assert (Hout : c_out (squashPass networkMap) = ∅)
    by (unfold squashPass; rewrite Hnil; reflexivity).
  destruct (squashPass_squashed networkMap) as [Hrules Hset]. cbv zeta in Hrules, Hset.
  rewrite Hin, Hout, Hnil, !squashable_empty in Hrules.
  cbn [map List.filter app] in Hrules.
  rewrite Hrules in Hset. cbn [map list_to_set] in Hset.
  assert (Hsq : squashAcceptRules networkMap = ([], ∅)).
  { unfold squashAcceptRules. cbv zeta. rewrite Hset, Hrules, Hnil.
    rewrite bool_decide_eq_false_2 by apply not_elem_of_empty. reflexivity. }
  split; [exact Hsq|].
  unfold effectiveRules. rewrite Hsq, Hnil. unfold enableSSH. cbv zeta.
  rewrite !bool_decide_eq_false_2 by apply not_elem_of_empty.
  cbn [length Nat.eqb andb app].
  destruct (sshDeclared networkMap), (FirewallRulesIsEmpty networkMap); reflexivity.
Qed.

Lemma filterSquashed_keeps (cin cout : gmap Z (gmap string nat)) (sp : gset Z)
    (rules : list FirewallRule) r :
  forall i0 i : nat,
    rules !! i = Some r -> isSquashed cin cout sp (i0 + i) r = false ->
    In r (filterSquashed cin cout sp i0 rules).
Proof.
  induction rules as [|a rest IH]; intros i0 i Hi Hs; [discriminate|].
  cbn [filterSquashed]. destruct i as [|i]; cbn in Hi.
  - injection Hi as ->. rewrite Nat.add_0_r in Hs. rewrite Hs. now left.
  - assert (Hin : In r (filterSquashed cin cout sp (S i0) rest)).
    { apply (IH (S i0) i Hi). now replace (S i0 + i)%nat with (i0 + S i)%nat by lia. }
    destruct (isSquashed cin cout sp i0 a); [exact Hin | now right].
Qed.

Lemma recorded_no_wildcard (all : list FirewallRule) m (inbound : bool) (P : Z)
    (ips : gmap string nat) :
  recorded all m inbound -> m !! P = Some ips -> index_of ips "0.0.0.0" = 0%nat.
Proof.
  intros Hrec Hm. unfold index_of.
  destruct (ips !! "0.0.0.0"%string) as [j|] eqn:Hj; [|reflexivity].
  destruct (Hrec P ips _ j Hm Hj) as (r & _ & _ & HIP & _ & _ & Hw). contradiction.
Qed.

(** X8.  The last loop of the squasher does not recognise a wildcard
    rule of the network map by its index unless the index is 0.  So when
    some rule is squashed and ALL is not, every wildcard rule of the network
    map other than its first rule occurs twice in the output: at its place
    among the rules kept, and again among the squashed rules. *)
Theorem wildcard_rule_is_repeated networkMap (i : nat) r :
  FirewallRule_ALL ∉ (squashAcceptRules networkMap).2 ->
  FirewallRules networkMap !! i = Some r ->
  (1 <= i)%nat ->
  isWildcardAccept r = true ->
  exists l1 l2 l3 : list FirewallRule,
    (squashAcceptRules networkMap).1 = l1 ++ r :: l2 ++ r :: l3.
Proof.
  intros HALL Hi Hpos Hw.
  assert (Hin : In r (FirewallRules networkMap))
    by (apply list_elem_of_In; now apply list_elem_of_lookup_2 in Hi).
  assert (HS : In r (squashedRules (c_sq (squashPass networkMap)))).
  { rewrite (proj1 (squashPass_squashed networkMap)).
    apply in_or_app. left. apply filter_In. now split. }
  destruct (squashPass_recorded networkMap) as [Rin Rout].
  assert (HIP : PeerIP r = "0.0.0.0"%string).
  { unfold isWildcardAccept in Hw. apply andb_true_iff in Hw as [_ Hw].
    now apply String.eqb_eq in Hw. }
  assert (Hkeep : isSquashed (c_in (squashPass networkMap)) (c_out (squashPass networkMap))
                    (squashedProtocols (c_sq (squashPass networkMap))) (0 + i) r = false).
  { unfold isSquashed. destruct (bool_decide _); [|reflexivity]. rewrite HIP.
    destruct (c_in (squashPass networkMap) !! Protocol r) as [ips|] eqn:E1.
    - rewrite (recorded_no_wildcard _ _ _ _ _ Rin E1).
      destruct (Nat.eqb_spec 0 (0 + i)) as [E|_]; [lia|].
      destruct (c_out (squashPass networkMap) !! Protocol r) as [ips'|] eqn:E2;
        [|reflexivity].
      rewrite (recorded_no_wildcard _ _ _ _ _ Rout E2).
      destruct (Nat.eqb_spec 0 (0 + i)) as [E|_]; [lia | reflexivity].
    - destruct (c_out (squashPass networkMap) !! Protocol r) as [ips'|] eqn:E2;
        [|reflexivity].
      rewrite (recorded_no_wildcard _ _ _ _ _ Rout E2).
      destruct (Nat.eqb_spec 0 (0 + i)) as [E|_]; [lia | reflexivity]. }
  pose proof (filterSquashed_keeps _ _ _ _ _ 0%nat i Hi Hkeep) as HF.
  revert HALL. unfold squashAcceptRules. cbv zeta.
  destruct (bool_decide_reflect
              (FirewallRule_ALL ∈ squashedProtocols (c_sq (squashPass networkMap))))
    as [HA|HA]; cbn [fst snd]; [contradiction|]. intros _.
  destruct (squashedRules (c_sq (squashPass networkMap))) as [|s0 S0] eqn:ES;
    [destruct HS|]. cbn [length Nat.eqb fst].
  apply in_split in HF as (a & b & ->). apply in_split in HS as (c & d & ->).
  exists a, (b ++ c), d. now rewrite <- !app_assoc.
Qed.

End SquasherEdges.

Section ClosedSquasherMore.
Import testenv examples.

Lemma squasher_output_rules_witness :
  let nm := networkMap twoPeers
              [tcpIn "10.0.0.1" FirewallRule_ACCEPT; tcpIn "10.0.0.2" FirewallRule_ACCEPT] in
  let w := wildcard FirewallRule_IN FirewallRule_TCP in
  In w (squashAcceptRules nm).1
  /\ (In w (FirewallRules nm)
      \/ exists (inbound : bool) (P : Z),
           w = wildcard (directionOf inbound) P /\ backed nm inbound P).
Proof.
  intros nm w.
  assert (H : In w (squashAcceptRules nm).1) by (vm_compute; left; reflexivity).
  split; [exact H | exact (squasher_output_rules nm w H)].
Defined.

Lemma all_squashed_installs_wildcards_only_witness :
  let nm := networkMap twoPeers [ruleA; ruleC; tcpIn "10.0.0.1" FirewallRule_DROP] in
  (FirewallRule_ALL ∈ (squashAcceptRules nm).2)
  /\ (effectiveRules nm = squashedRules (c_sq (squashPass nm)))
  /\ (~ In (tcpIn "10.0.0.1" FirewallRule_DROP) (effectiveRules nm)).
Proof.
  intros nm.
  assert (H : FirewallRule_ALL ∈ (squashAcceptRules nm).2).
  { refine (bool_decide_unpack _ _). vm_compute. exact I. }
  split; [exact H | split].
  - exact (proj1 (all_squashed_installs_wildcards_only nm H)).
  - apply (proj2 (proj2 (all_squashed_installs_wildcards_only nm H))).
    + vm_compute. right. right. left. reflexivity.
    + reflexivity.
Defined.

Lemma fewer_than_two_ips_nothing_synthesised_witness :
  let nm := networkMap [peer "10.0.0.1"] [tcpIn "10.0.0.1" FirewallRule_ACCEPT] in
  (length (allowedIPs nm) < 2)%nat
  /\ squashedRules (c_sq (squashPass nm))
     = List.filter isWildcardAccept (FirewallRules nm).
Proof.
  intros nm.
  assert (H : (length (allowedIPs nm) < 2)%nat) by (vm_compute; lia).
  split; [exact H | exact (proj1 (fewer_than_two_ips_nothing_synthesised nm H))].
Defined.

Lemma drop_last_blocks_squash_witness :
  let pre := [tcpIn "10.0.0.1" FirewallRule_ACCEPT; tcpIn "10.0.0.2" FirewallRule_ACCEPT] in
  let r := tcpIn "10.0.0.1" FirewallRule_DROP in
  let post := [tcpOut "10.0.0.1" FirewallRule_ACCEPT] in
  let nm := networkMap twoPeers (pre ++ r :: post)%list in
  (FirewallRules nm = (pre ++ r :: post)%list)
  /\ (isDrop r = true)
  /\ (forall r', In r' post ->
        (Direction r' =? FirewallRule_IN) = (Direction r =? FirewallRule_IN) ->
        Protocol r' <> Protocol r)
  /\ (~ In (Protocol r) (squashable (totalIPs nm) (mapOf (squashPass nm) true))).
Proof.
  intros pre r post nm.
  assert (H1 : FirewallRules nm = (pre ++ r :: post)%list) by reflexivity.
  assert (H2 : isDrop r = true) by reflexivity.
  assert (H3 : forall r', In r' post ->
                 (Direction r' =? FirewallRule_IN) = (Direction r =? FirewallRule_IN) ->
                 Protocol r' <> Protocol r).
  { intros r' [<-|[]] Hd. vm_compute in Hd. discriminate Hd. }
  split; [exact H1 | split; [exact H2 | split; [exact H3|]]].
  exact (proj1 (proj2 (drop_last_blocks_squash nm pre post r H1 H2 H3))).
Defined.

Lemma no_rules_edge_witness :
  let nm := networkMapWith true twoPeers [] false in
  FirewallRules nm = []
  /\ effectiveRules nm = ([sshRule] ++ allowAll)%list.
Proof.
  intros nm.
  assert (H : FirewallRules nm = []) by reflexivity.
  split; [exact H | exact (proj2 (no_rules_edge nm H))].
Defined.

Lemma wildcard_rule_is_repeated_witness :
  let udpAny := rule "0.0.0.0" FirewallRule_IN FirewallRule_ACCEPT FirewallRule_UDP "" in
  let nm := networkMap twoPeers [tcpIn "10.0.0.1" FirewallRule_ACCEPT; udpAny] in
  (FirewallRule_ALL ∉ (squashAcceptRules nm).2)
  /\ (FirewallRules nm !! 1%nat = Some udpAny)
  /\ (1 <= 1)%nat
  /\ (isWildcardAccept udpAny = true)
  /\ exists l1 l2 l3 : list FirewallRule,
       (squashAcceptRules nm).1 = (l1 ++ udpAny :: l2 ++ udpAny :: l3)%list.
Proof.
  intros udpAny nm.
  assert (H1 : FirewallRule_ALL ∉ (squashAcceptRules nm).2).
  { refine (bool_decide_unpack _ _). vm_compute. exact I. }
  assert (H2 : FirewallRules nm !! 1%nat = Some udpAny) by reflexivity.
  assert (H3 : (1 <= 1)%nat) by lia.
  assert (H4 : isWildcardAccept udpAny = true) by reflexivity.
  split; [exact H1 | split; [exact H2 | split; [exact H3 | split; [exact H4|]]]].
  exact (wildcard_rule_is_repeated nm 1 udpAny H1 H2 H3 H4).
Defined.

End ClosedSquasherMore.

(* ===================================================================== *)
(** ** The calls of one run *)
(* ===================================================================== *)

Section CallLog.
Context {IP Rule B : Type} {ipOps : net.IPOps IP}
  {fwOps : firewall.Manager IP Rule B}.

Implicit Types (s : loopState IP Rule B) (w : Fw IP Rule B)
  (r : FirewallRule) (e : aclError) (R : gmap string (list Rule))
  (evs : list (event IP Rule)) (hs : list Rule) (o : deleteOrigin).

Lemma deleted_app o evs1 evs2 :
  deleted o (evs1 ++ evs2) = deleted o evs1 ++ deleted o evs2.
Proof. unfold deleted. apply flat_map_app. Qed.

Lemma deletes_app o hs1 hs2 evs1 evs2 :
  deletes o hs1 evs1 -> deletes o hs2 evs2 ->
  deletes o (hs1 ++ hs2) (evs1 ++ evs2).
Proof. apply Forall2_app. Qed.

Lemma deletes_deleted o hs evs : deletes o hs evs -> deleted o evs = hs.
Proof.
  induction 1 as [|h ev hs' evs' [err ->] _ IH]; [reflexivity|].
  unfold deleted in *. cbn [flat_map]. rewrite IH. now destruct o.
Qed.

Lemma deletes_other o o' hs evs :
  o <> o' -> deletes o hs evs -> deleted o' evs = [].
Proof.
  intros Hne. induction 1 as [|h ev hs' evs' [err ->] _ IH]; [reflexivity|].
  unfold deleted in *. cbn [flat_map]. rewrite IH.
  destruct o, o'; try reflexivity; contradiction.
Qed.

Lemma deletes_Forall o hs evs :
  deletes o hs evs -> Forall (fun ev => exists h err, ev = EvDelete o h err) evs.
Proof.
  induction 1 as [|h ev hs' evs' [err ->] _ IH]; constructor; eauto.
Qed.

Lemma adds_deleted o evs :
  Forall (fun ev => isAddCall ev = true) evs -> deleted o evs = [].
Proof.
  induction 1 as [|ev evs' Hev _ IH]; [reflexivity|].
  unfold deleted in *. cbn [flat_map]. rewrite IH. now destruct ev.
Qed.

Lemma callDelete_log o w (h : Rule) :
  exists err, fw_log (callDelete o w h) = fw_log w ++ [EvDelete o h err].
Proof.
  unfold callDelete. destruct (firewall.DeleteRule (fw_state w) h) as [b err].
  now exists err.
Qed.

Lemma deleteRules_log o hs :
  forall w, exists evs,
    fw_log (deleteRules o w hs) = fw_log w ++ evs /\ deletes o hs evs.
Proof.
  unfold deleteRules. induction hs as [|h hs' IH]; intros w; cbn [fold_left].
  - exists []. split; [now rewrite app_nil_r | constructor].
  - destruct (callDelete_log o w h) as [err H1].
    destruct (IH (callDelete o w h)) as (evs & H2 & D).
    exists (EvDelete o h err :: evs). split.
    + rewrite H2, H1, <- app_assoc. reflexivity.
    + constructor; [now exists err | exact D].
Qed.

(** [rollBack] calls [DeleteRule] once for every handle of every pair of
    the map, whatever the calls return. *)
Lemma rollBack_log (np : gmap string (list Rule)) w :
  exists evs,
    fw_log (rollBack np w) = fw_log w ++ evs
    /\ deletes Rollback (concat (map snd (map_to_list np))) evs.
Proof.
  unfold rollBack. generalize (map_to_list np) as l. intros l. revert w.
  induction l as [|kv l IH]; intros w; cbn [fold_left map concat].
  - exists []. split; [now rewrite app_nil_r | constructor].
  - destruct (deleteRules_log Rollback kv.2 w) as (e1 & H1 & D1).
    destruct (IH (deleteRules Rollback w kv.2)) as (e2 & H2 & D2).
    exists (e1 ++ e2). split; [|now apply deletes_app].
    rewrite H2, H1, app_assoc. reflexivity.
Qed.

(** The pairs the loop over the old pairs deletes. *)
Lemma removeStale_fold (np : gmap string (list Rule))
    (l : list (string * list Rule)) :
  forall w (m : gmap string (list Rule)),
    let stale := List.filter (fun kv => negb (bool_decide (is_Some (np !! kv.1)))) l in
    let res :=
      fold_left
        (fun acc kv =>
           match np !! kv.1 with
           | Some _ => acc
           | None => (deleteRules Stale acc.1 kv.2, delete kv.1 acc.2)
           end) l (w, m) in
    (exists evs, fw_log res.1 = fw_log w ++ evs
                 /\ deletes Stale (concat (map snd stale)) evs)
    /\ (forall k, In k (map fst stale) -> res.2 !! k = None)
    /\ (forall k, ~ In k (map fst stale) -> res.2 !! k = m !! k).
Proof.
  induction l as [|kv l IH]; intros w m; cbv zeta.
  - cbn. split; [|split; [intros k [] | reflexivity]].
    exists []. split; [now rewrite app_nil_r | constructor].
  - cbn [fold_left List.filter]. destruct (np !! kv.1) as [v|] eqn:Hk.
    + rewrite bool_decide_eq_true_2 by eauto. cbn [negb]. apply IH.
    + rewrite bool_decide_eq_false_2 by (intros [? ?]; discriminate).
      cbn [negb map concat fst snd].
      destruct (IH (deleteRules Stale w kv.2) (delete kv.1 m)) as ((e2 & H2 & D2) & N & K).
      destruct (deleteRules_log Stale kv.2 w) as (e1 & H1 & D1).
      split; [|split].
      * exists (e1 ++ e2). split; [|now apply deletes_app].
        cbv zeta in H2. rewrite H2, H1, app_assoc. reflexivity.
      * intros k [<-|Hin]; [|now apply N].
        destruct (in_dec string_dec kv.1
                    (map fst (List.filter
                                (fun kv0 => negb (bool_decide (is_Some (np !! kv0.1)))) l)))
          as [Hin|Hout]; [now apply N|].
        cbv zeta in K. rewrite (K _ Hout). apply lookup_delete_eq.
      * intros k Hk'. cbv zeta in K. rewrite K by (intros Hin; apply Hk'; now right).
        apply lookup_delete_ne. intros E. apply Hk'. now left.
Qed.

Lemma filter_fst_NoDup {A : Type} (f : string * A -> bool) (l : list (string * A)) :
  NoDup (map fst l) -> NoDup (map fst (List.filter f l)).
Proof.
  induction l as [|x l IH]; cbn [map List.filter]; [constructor|].
  intros [Hx Hl]%NoDup_cons. destruct (f x); [|now apply IH].
  cbn [map]. apply NoDup_cons. split; [|now apply IH].
  intros Hin. apply Hx. apply list_elem_of_In. apply list_elem_of_In in Hin.
  apply in_map_iff in Hin as (y & Hy & Hin). apply filter_In in Hin as [Hin _].
  apply in_map_iff. now exists y.
Qed.

(** When the new pairs are among the pairs of the manager, the loop over
    the old pairs leaves exactly the new pairs, and deletes the handles of
    the others, pair by pair. *)
Lemma removeStale_log (np R0 : gmap string (list Rule)) w :
  exists (groups : list (string * list Rule)) evs,
    fw_log (removeStale np (np ∪ R0) w).1 = fw_log w ++ evs
    /\ deletes Stale (concat (map snd groups)) evs
    /\ NoDup (map fst groups)
    /\ (forall id hs, In (id, hs) groups <-> R0 !! id = Some hs /\ np !! id = None)
    /\ (removeStale np (np ∪ R0) w).2 = np.
Proof.
  unfold removeStale.
  destruct (removeStale_fold np (map_to_list (np ∪ R0)) w (np ∪ R0))
    as ((evs & Hlog & Hdel) & Hnone & Hkeep). cbv zeta in *.
  set (groups := List.filter (fun kv => negb (bool_decide (is_Some (np !! kv.1))))
                   (map_to_list (np ∪ R0))) in *.
  assert (Hgroups : forall id hs,
             In (id, hs) groups <-> R0 !! id = Some hs /\ np !! id = None).
  { intros id hs. unfold groups. rewrite filter_In, <- list_elem_of_In, elem_of_map_to_list.
    cbn [fst]. rewrite negb_true_iff, bool_decide_eq_false, <- eq_None_not_Some.
    split.
    - intros [HU HN]. apply lookup_union_Some_raw in HU as [HU|[_ HU]]; [congruence|].
      now split.
    - intros [HR HN]. split; [|exact HN].
      apply lookup_union_Some_raw. right. now split. }
  exists groups, evs. split; [exact Hlog | split; [exact Hdel | split; [|split]]].
  - apply filter_fst_NoDup, NoDup_fst_map_to_list.
  - exact Hgroups.
  - apply map_eq. intros k.
    destruct (np !! k) as [v|] eqn:Hk.
    + rewrite Hkeep.
      * now apply lookup_union_Some_l.
      * intros ((k' & hs) & E & Hin)%in_map_iff. cbn in E. subst k'.
        apply Hgroups in Hin as [_ Hin]. congruence.
    + destruct (R0 !! k) as [hs|] eqn:HR.
      * apply Hnone. apply in_map_iff. exists (k, hs). split; [reflexivity|].
        apply Hgroups. now split.
      * rewrite Hkeep.
        -- apply lookup_union_None. now split.
        -- intros ((k' & hs) & E & Hin)%in_map_iff. cbn in E. subst k'.
           apply Hgroups in Hin as [Hin _]. congruence.
Qed.

Lemma callAdd_log (a : firewall.AddArgs IP) w :
  fw_log (callAdd a w).1 = fw_log w ++ [EvAdd a (callAdd a w).2].
Proof. unfold callAdd. now destruct (firewall.AddFiltering (fw_state w) a). Qed.

Local Ltac call_shape :=
  do 2 eexists; split; [reflexivity|];
  first [left; reflexivity
        | right; split; [first [assumption | reflexivity] | reflexivity]].

(** What [addInRules] and [addOutRules] leave in the log and return. *)
Lemma addRules_log (inbound : bool) (ip : IP) (protocol : string)
    (port : option firewall.Port) (action : Z) (n : string) w :
  let res := if inbound then addInRules ip protocol port action n "" w
             else addOutRules ip protocol port action n "" w in
  exists evs,
    fw_log res.1 = fw_log w ++ evs
    /\ Forall (fun ev => exists a x, ev = EvAdd a x
                 /\ (a = primaryCall inbound ip protocol port action n
                     \/ (shouldSkipInvertedRule protocol port = false
                         /\ a = companionCall inbound ip protocol port action n))) evs
    /\ (forall hs, res.2 = inl hs -> fromBackend evs hs).
Proof.
  cbv zeta. destruct inbound.
  - unfold addInRules.
    pose proof (callAdd_log (primaryCall true ip protocol port action n) w) as L1.
    unfold primaryCall in L1 |- *.
    destruct (callAdd _ w) as [w1 [h1|e1]]; cbn [fst snd] in *.
    2:{ eexists. split; [exact L1|]. split; [|discriminate].
        constructor; [call_shape | constructor]. }
    destruct (shouldSkipInvertedRule protocol port) eqn:Hskip; cbn [fst snd app].
    { eexists. split; [exact L1|]. split.
      - constructor; [call_shape | constructor].
      - intros hs [= <-]. do 2 eexists.
        split; [left; reflexivity | left; reflexivity]. }
    pose proof (callAdd_log (companionCall true ip protocol port action n) w1) as L2.
    unfold companionCall in L2 |- *.
    destruct (callAdd _ w1) as [w2 [h2|e2]]; cbn [fst snd] in *.
    + eexists. split; [rewrite L2, L1, <- app_assoc; reflexivity|]. split.
      * constructor; [call_shape|]. constructor; [call_shape | constructor].
      * intros hs [= <-]. do 2 eexists. split; [left; reflexivity|].
        right. do 2 eexists. split; [right; left; reflexivity | reflexivity].
    + eexists. split; [rewrite L2, L1, <- app_assoc; reflexivity|]. split; [|discriminate].
      constructor; [call_shape|]. constructor; [call_shape | constructor].
  - unfold addOutRules.
    pose proof (callAdd_log (primaryCall false ip protocol port action n) w) as L1.
    unfold primaryCall in L1 |- *.
    destruct (callAdd _ w) as [w1 [h1|e1]]; cbn [fst snd] in *.
    2:{ eexists. split; [exact L1|]. split; [|discriminate].
        constructor; [call_shape | constructor]. }
    destruct (shouldSkipInvertedRule protocol port) eqn:Hskip; cbn [fst snd app].
    { eexists. split; [exact L1|]. split.
      - constructor; [call_shape | constructor].
      - intros hs [= <-]. do 2 eexists.
        split; [left; reflexivity | left; reflexivity]. }
    pose proof (callAdd_log (companionCall false ip protocol port action n) w1) as L2.
    unfold companionCall in L2 |- *.
    destruct (callAdd _ w1) as [w2 [h2|e2]]; cbn [fst snd] in *.
    + eexists. split; [rewrite L2, L1, <- app_assoc; reflexivity|]. split.
      * constructor; [call_shape|]. constructor; [call_shape | constructor].
      * intros hs [= <-]. do 2 eexists. split; [left; reflexivity|].
        right. do 2 eexists. split; [right; left; reflexivity | reflexivity].
    + eexists. split; [rewrite L2, L1, <- app_assoc; reflexivity|]. split; [|discriminate].
      constructor; [call_shape|]. constructor; [call_shape | constructor].
Qed.

(** What one call of [protoRuleToFirewallRule] leaves in the log and
    returns. *)
Lemma protoRuleToFirewallRule_log R r (n : string) w :
  let res := protoRuleToFirewallRule R r n w in
  match translate r with
  | inr e => res = (w, inr e)
  | inl (ip, protocol, action, port, ruleID) =>
      match R !! ruleID with
      | Some rulesPair => res = (w, inl (ruleID, rulesPair))
      | None =>
          exists evs,
            fw_log res.1 = fw_log w ++ evs
            /\ Forall (fun ev => exists a x (inbound : bool), ev = EvAdd a x
                         /\ Direction r = directionOf inbound
                         /\ (a = primaryCall inbound ip protocol port action n
                             \/ (shouldSkipInvertedRule protocol port = false
                                 /\ a = companionCall inbound ip protocol port action n)))
                 evs
            /\ match res.2 with
               | inl (pairID, hs) => pairID = ruleID /\ fromBackend evs hs
               | inr _ => True
               end
      end
  end.
Proof.
  cbv zeta. unfold protoRuleToFirewallRule.
  destruct (translate r) as [[[[[ip protocol] action] port] ruleID]|e0];
    [|reflexivity].
  destruct (R !! ruleID) as [rulesPair|]; [reflexivity|].
  destruct (Z.eqb_spec (Direction r) FirewallRule_IN) as [Hin|Hin].
  { destruct (addRules_log true ip protocol port action n w) as (evs & L & F & H).
    cbv zeta in L, H.
    destruct (addInRules ip protocol port action n "" w) as [w1 [hs|e1]];
      cbn [fst snd] in *; exists evs; (split; [exact L|]); (split; [|auto]);
      (eapply Forall_impl; [exact F|]);
      intros ev (a & x & -> & Ha); exists a, x, true; auto. }
  destruct (Z.eqb_spec (Direction r) FirewallRule_OUT) as [Hout|Hout].
  { destruct (addRules_log false ip protocol port action n w) as (evs & L & F & H).
    cbv zeta in L, H.
    destruct (addOutRules ip protocol port action n "" w) as [w1 [hs|e1]];
      cbn [fst snd] in *; exists evs; (split; [exact L|]); (split; [|auto]);
      (eapply Forall_impl; [exact F|]);
      intros ev (a & x & -> & Ha); exists a, x, false; auto. }
  cbn [fst snd]. exists []. split; [now rewrite app_nil_r|]. split; [constructor | exact I].
Qed.

Lemma protoRuleToFirewallRule_adds R r (n : string) w :
  exists evs,
    fw_log (protoRuleToFirewallRule R r n w).1 = fw_log w ++ evs
    /\ Forall (fun ev => isAddCall ev = true) evs.
Proof.
  pose proof (protoRuleToFirewallRule_log R r n w) as H. cbv zeta in H.
  destruct (translate r) as [[[[[ip protocol] action] port] ruleID]|e0].
  - destruct (R !! ruleID) as [rulesPair|].
    + rewrite H. exists []. split; [now rewrite app_nil_r | constructor].
    + destruct H as (evs & L & F & _). exists evs. split; [exact L|].
      eapply Forall_impl; [exact F|]. now intros ev (a & x & b & -> & _).
  - rewrite H. exists []. split; [now rewrite app_nil_r | constructor].
Qed.

(** The log of the loop over the rules: [AddFiltering] calls, then, when
    a rule fails, the line for this rule and the calls of [rollBack] for
    the pairs collected. *)
Lemma installRules_log (all rules : list FirewallRule) :
  forall s,
    let s' := installRules all rules s in
    exists adds tail,
      fw_log (ls_fw s') = fw_log (ls_fw s) ++ adds ++ tail
      /\ Forall (fun ev => isAddCall ev = true) adds
      /\ (tail = []
          \/ exists r e rollbacks,
               In r rules /\ tail = EvApplyFailed r e :: rollbacks
               /\ deletes Rollback
                    (concat (map snd (map_to_list (ls_newRulePairs s')))) rollbacks).
Proof.
  induction rules as [|r rest IH]; intros s; cbv zeta.
  - exists [], []. split; [now rewrite app_nil_r|]. split; [constructor | now left].
  - rewrite installRules_cons. cbv zeta.
    destruct (protoRuleToFirewallRule_adds (ls_rulesPairs s) r
                (ipsetNameFor (getRuleGroupingSelector r) s).1 (ls_fw s))
      as (adds0 & L0 & F0).
    destruct (protoRuleToFirewallRule _ r _ (ls_fw s)) as [w [[pairID rulePair]|err]];
      cbn [fst snd] in *.
    + match goal with |- context [installRules all rest ?s1] =>
        destruct (IH s1) as (adds & tail & L & F & T) end.
      cbv zeta in L, T. cbn [ls_fw] in L.
      exists (adds0 ++ adds), tail. split; [|split].
      * rewrite L, L0, <- !app_assoc. reflexivity.
      * now apply Forall_app.
      * destruct T as [T|(r' & e & rb & Hin & T & D)]; [now left|].
        right. exists r', e, rb. split; [now right | now split].
    + cbn [ls_fw ls_newRulePairs].
      destruct (rollBack_log (ls_newRulePairs s) (logApplyFailed r err w))
        as (rb & L & D).
      exists adds0, (EvApplyFailed r err :: rb). split; [|split].
      * rewrite L. cbn [logApplyFailed fw_log]. rewrite L0, <- !app_assoc. reflexivity.
      * exact F0.
      * right. exists r, err, rb. split; [now left | now split].
Qed.

(** The map [d.rulesPairs] during the loop: the new pairs over the pairs
    the manager had. *)
Lemma installRules_maps (R0 : gmap string (list Rule)) (all rules : list FirewallRule) :
  forall s,
    rules = [] \/ (0 <? length all)%nat = true ->
    ls_rulesPairs s = ls_newRulePairs s ∪ R0 ->
    ls_rulesPairs (installRules all rules s)
    = ls_newRulePairs (installRules all rules s) ∪ R0.
Proof.
  induction rules as [|r rest IH]; intros s Hne Hs; [exact Hs|].
  destruct Hne as [Hne|Hne]; [discriminate|].
  rewrite installRules_cons. cbv zeta. rewrite Hne.
  destruct (protoRuleToFirewallRule _ r _ (ls_fw s)) as [w [[pairID rulePair]|err]];
    cbn [fst snd]; [|exact Hs].
  apply IH; [now right|]. cbn [ls_rulesPairs ls_newRulePairs].
  rewrite Hs. apply insert_union_l.
Qed.

Lemma installRules_named (all rules : list FirewallRule) :
  forall s x, In x (ls_named s) -> In x (ls_named (installRules all rules s)).
Proof.
  induction rules as [|r rest IH]; intros s x Hx; [exact Hx|].
  rewrite installRules_cons. cbv zeta.
  destruct (protoRuleToFirewallRule _ r _ (ls_fw s)) as [w [[pairID rulePair]|err]];
    cbn [fst snd].
  - apply IH. cbn [ls_named]. apply in_or_app. now left.
  - cbn [ls_named]. apply in_or_app. now left.
Qed.

Lemma installRules_extends (all rules : list FirewallRule) s :
  forall ev, In ev (fw_log (ls_fw s)) ->
             In ev (fw_log (ls_fw (installRules all rules s))).
Proof.
  intros ev Hev. destruct (installRules_log all rules s) as (adds & tail & L & _).
  cbv zeta in L. rewrite L. apply in_or_app. now left.
Qed.

Lemma fromBackend_mono evs1 evs2 hs :
  (forall ev, In ev evs1 -> In ev evs2) -> fromBackend evs1 hs -> fromBackend evs2 hs.
Proof.
  intros Hsub (a1 & h1 & H1 & H). exists a1, h1. split; [now apply Hsub|].
  destruct H as [H|(a2 & h2 & H2 & H)]; [now left|].
  right. exists a2, h2. split; [now apply Hsub | exact H].
Qed.

(** Every [AddFiltering] call of the loop is made for a rule of the list
    whose rule ID the manager does not hold. *)
Lemma installRules_adds (R0 : gmap string (list Rule)) (all rules : list FirewallRule) :
  forall s,
    (forall k, ls_rulesPairs s !! k = None -> R0 !! k = None) ->
    forall ev, In ev (fw_log (ls_fw (installRules all rules s))) ->
      isAddCall ev = true ->
      In ev (fw_log (ls_fw s))
      \/ exists rule n ruleID a x,
           ev = EvAdd a x /\ In rule rules
           /\ In (rule, n) (ls_named (installRules all rules s))
           /\ callFor rule n ruleID a /\ R0 !! ruleID = None.
Proof.
  induction rules as [|r rest IH]; intros s HR ev Hev Hadd; [now left|].
  revert Hev. rewrite installRules_cons. cbv zeta.
  set (n := (ipsetNameFor (getRuleGroupingSelector r) s).1).
  pose proof (protoRuleToFirewallRule_log (ls_rulesPairs s) r n (ls_fw s)) as Hlog.
  cbv zeta in Hlog.
  destruct (protoRuleToFirewallRule (ls_rulesPairs s) r n (ls_fw s)) as [w res].
  cbn [fst snd] in *.
  assert (Hstep :
            forall ev0, In ev0 (fw_log w) -> isAddCall ev0 = true ->
              In ev0 (fw_log (ls_fw s))
              \/ exists ruleID a x,
                   ev0 = EvAdd a x /\ callFor r n ruleID a /\ R0 !! ruleID = None).
  { intros ev0 H0 Hadd0.
    destruct (translate r) as [[[[[ip protocol] action] port] ruleID]|e0] eqn:Ht.
    - destruct (ls_rulesPairs s !! ruleID) as [rulesPair|] eqn:Hk.
      + injection Hlog as -> _. now left.
      + destruct Hlog as (evs & L & F & _). rewrite L in H0.
        apply in_app_or in H0 as [H0|H0]; [now left|]. right.
        rewrite Forall_forall in F. apply list_elem_of_In, F in H0
          as (a & x & inbound & -> & Hd & Ha).
        exists ruleID, a, x. split; [reflexivity|]. split; [|now apply HR].
        exists ip, protocol, action, port, inbound. auto.
    - injection Hlog as -> _. now left. }
  destruct res as [[pairID rulePair]|err].
  - intros Hev.
    match type of Hev with context [installRules all rest ?s1] =>
      assert (HR1 : forall k, ls_rulesPairs s1 !! k = None -> R0 !! k = None);
        [|destruct (IH s1 HR1 ev Hev Hadd) as [H|(rule & n' & id & a & x & H)]]
    end.
    + cbn [ls_rulesPairs]. destruct (0 <? length all)%nat; [|exact HR].
      intros k [Hk _]%lookup_insert_None. now apply HR.
    + cbn [ls_fw] in H. destruct (Hstep ev H Hadd) as [H'|(id & a & x & -> & Hc & HN)];
        [now left|].
      right. exists r, n, id, a, x. split; [reflexivity|]. split; [now left|].
      split; [|now split]. apply installRules_named. cbn [ls_named].
      apply in_or_app. right. now left.
    + right. exists rule, n', id, a, x.
      destruct H as (-> & Hin & Hn & Hc & HN). split; [reflexivity|].
      split; [now right|]. auto.
  - cbn [ls_fw ls_named]. intros Hev.
    destruct (rollBack_log (ls_newRulePairs s) (logApplyFailed r err w)) as (rb & L & D).
    rewrite L in Hev. cbn [logApplyFailed fw_log] in Hev.
    apply in_app_or in Hev as [Hev|Hev].
    + apply in_app_or in Hev as [Hev|[<-|[]]]; [|discriminate].
      destruct (Hstep ev Hev Hadd) as [H'|(id & a & x & -> & Hc & HN)]; [now left|].
      right. exists r, n, id, a, x. split; [reflexivity|]. split; [now left|].
      split; [|now split]. apply in_or_app. right. now left.
    + apply deletes_Forall in D. rewrite Forall_forall in D.
      apply list_elem_of_In, D in Hev as (h & x & ->). discriminate.
Qed.

(** The keys of the new pairs are rule IDs of rules of the list. *)
Lemma installRules_keys (all rules : list FirewallRule) :
  forall s id,
    is_Some (ls_newRulePairs (installRules all rules s) !! id) ->
    is_Some (ls_newRulePairs s !! id)
    \/ exists rule ip protocol action port,
         In rule rules /\ translate rule = inl (ip, protocol, action, port, id).
Proof.
  induction rules as [|r rest IH]; intros s id; [now left|].
  rewrite installRules_cons. cbv zeta.
  set (n := (ipsetNameFor (getRuleGroupingSelector r) s).1).
  pose proof (protoRuleToFirewallRule_log (ls_rulesPairs s) r n (ls_fw s)) as Hlog.
  cbv zeta in Hlog.
  destruct (protoRuleToFirewallRule (ls_rulesPairs s) r n (ls_fw s)) as [w res].
  cbn [fst snd] in *.
  destruct res as [[pairID rulePair]|err]; [|now left].
  intros [H|(rule & ip & protocol & action & port & Hin & Ht)]%IH.
  - cbn [ls_newRulePairs] in H. destruct (0 <? length all)%nat; [|now left].
    apply lookup_insert_is_Some in H as [<-|[_ H]]; [|now left].
    right. destruct (translate r) as [[[[[ip protocol] action] port] ruleID]|e0] eqn:Ht;
      [|discriminate].
    exists r, ip, protocol, action, port. split; [now left|].
    destruct (ls_rulesPairs s !! ruleID) as [rulesPair|].
    + now injection Hlog as _ -> _.
    + destruct Hlog as (_ & _ & _ & -> & _). exact Ht.
  - right. exists rule, ip, protocol, action, port. split; [now right | exact Ht].
Qed.

(** The handles of the new pairs are handles the manager held under the
    same rule ID, or handles the backend returned during the loop. *)
Lemma installRules_handles (R0 : gmap string (list Rule))
    (all rules : list FirewallRule) :
  forall s,
    (forall k v, ls_rulesPairs s !! k = Some v ->
                 ls_newRulePairs s !! k = Some v \/ R0 !! k = Some v) ->
    forall id hs,
      ls_newRulePairs (installRules all rules s) !! id = Some hs ->
      ls_newRulePairs s !! id = Some hs \/ R0 !! id = Some hs
      \/ fromBackend (fw_log (ls_fw (installRules all rules s))) hs.
Proof.
  induction rules as [|r rest IH]; intros s HJ id hs; [now left|].
  rewrite installRules_cons. cbv zeta.
  set (n := (ipsetNameFor (getRuleGroupingSelector r) s).1).
  pose proof (protoRuleToFirewallRule_log (ls_rulesPairs s) r n (ls_fw s)) as Hlog.
  cbv zeta in Hlog.
  destruct (protoRuleToFirewallRule (ls_rulesPairs s) r n (ls_fw s)) as [w res].
  cbn [fst snd] in *.
  destruct res as [[pairID rulePair]|err]; [|now left].
  assert (Hpair : ls_newRulePairs s !! pairID = Some rulePair
                  \/ R0 !! pairID = Some rulePair
                  \/ fromBackend (fw_log w) rulePair).
  { destruct (translate r) as [[[[[ip protocol] action] port] ruleID]|e0] eqn:Ht;
      [|discriminate].
    destruct (ls_rulesPairs s !! ruleID) as [rulesPair|] eqn:Hk.
    - injection Hlog as _ -> ->. destruct (HJ _ _ Hk); auto.
    - destruct Hlog as (evs & L & _ & _ & HB). right. right.
      apply (fromBackend_mono evs); [|exact HB].
      intros ev Hev. rewrite L. apply in_or_app. now right. }
  match goal with |- context [installRules all rest ?s1] =>
    intros Hid;
    assert (HJ1 : forall k v, ls_rulesPairs s1 !! k = Some v ->
                    ls_newRulePairs s1 !! k = Some v \/ R0 !! k = Some v);
      [|destruct (IH s1 HJ1 id hs Hid) as [H|[H|H]]]
  end.
  - cbn [ls_rulesPairs ls_newRulePairs]. destruct (0 <? length all)%nat; [|exact HJ].
    intros k v. rewrite !lookup_insert. case_decide; [now left | apply HJ].
  - cbn [ls_newRulePairs] in H. destruct (0 <? length all)%nat; [|now left].
    rewrite lookup_insert in H. case_decide as E; [|now left].
    injection H as <-. subst id.
    destruct Hpair as [Hp|[Hp|Hp]]; [now left | right; now left|].
    right. right. apply (fromBackend_mono (fw_log w)); [|exact Hp].
    intros ev Hev.
    match goal with |- context [installRules all rest ?s1] =>
      apply (installRules_extends all rest s1) end. exact Hev.
  - right. now left.
  - right. now right.
Qed.

(** A pair collected under a rule ID the manager held keeps the handles
    the manager held. *)
Lemma installRules_old (R0 : gmap string (list Rule)) (all rules : list FirewallRule) :
  forall s,
    rules = [] \/ (0 <? length all)%nat = true ->
    ls_rulesPairs s = ls_newRulePairs s ∪ R0 ->
    (forall id hs hs', R0 !! id = Some hs -> ls_newRulePairs s !! id = Some hs' ->
                       hs' = hs) ->
    forall id hs hs',
      R0 !! id = Some hs ->
      ls_newRulePairs (installRules all rules s) !! id = Some hs' -> hs' = hs.
Proof.
  induction rules as [|r rest IH]; intros s Hne Hs HK; [exact HK|].
  destruct Hne as [Hne|Hne]; [discriminate|].
  rewrite installRules_cons. cbv zeta. rewrite Hne.
  set (n := (ipsetNameFor (getRuleGroupingSelector r) s).1).
  pose proof (protoRuleToFirewallRule_log (ls_rulesPairs s) r n (ls_fw s)) as Hlog.
  cbv zeta in Hlog.
  destruct (protoRuleToFirewallRule (ls_rulesPairs s) r n (ls_fw s)) as [w res].
  cbn [fst snd] in *.
  destruct res as [[pairID rulePair]|err]; [|exact HK].
  apply IH; [now right | |]; cbn [ls_rulesPairs ls_newRulePairs].
  - rewrite Hs. apply insert_union_l.
  - intros id hs hs' HR. rewrite lookup_insert. case_decide as E; [|now apply HK].
    intros [= <-]. subst id.
    destruct (translate r) as [[[[[ip protocol] action] port] ruleID]|e0];
      [|discriminate].
    destruct (ls_rulesPairs s !! ruleID) as [rulesPair|] eqn:Hk.
    + injection Hlog as _ -> ->. rewrite Hs in Hk.
      apply lookup_union_Some_raw in Hk as [Hk|[_ Hk]]; [now apply (HK ruleID)|].
      congruence.
    + destruct Hlog as (_ & _ & _ & -> & _). rewrite Hs in Hk.
      apply lookup_union_None in Hk as [_ Hk]. congruence.
Qed.

(** One run with a backend: the loop over the rules, the loop over the old
    pairs, and the deferred [Flush]. *)
Lemma run_parts (d : DefaultManager Rule B) (b : B) (networkMap : NetworkMap) :
  d_firewall d = Some b ->
  let r := ApplyFiltering_run (IP := IP) d networkMap in
  let rules := effectiveRules networkMap in
  let s := installRules rules rules (loopStart d b) in
  rulesPairs (r_manager r) = ls_newRulePairs s
  /\ r_named r = ls_named s
  /\ exists stales err (groups : list (string * list Rule)),
       r_events r = fw_log (ls_fw s) ++ stales ++ [EvFlush err]
       /\ deletes Stale (concat (map snd groups)) stales
       /\ NoDup (map fst groups)
       /\ (forall id hs, In (id, hs) groups
             <-> rulesPairs d !! id = Some hs /\ ls_newRulePairs s !! id = None).
Proof.
  intros Hb. cbv zeta. rewrite (run_with_backend d networkMap b Hb), applyRules_eq.
  cbv zeta. cbn [r_events r_manager r_named rulesPairs].
  set (rules := effectiveRules networkMap).
  set (s := installRules rules rules (loopStart d b)).
  split; [reflexivity | split; [reflexivity|]].
  assert (Hmaps : ls_rulesPairs s = ls_newRulePairs s ∪ rulesPairs d).
  { apply installRules_maps.
    - destruct rules; [now left | now right].
    - cbn [loopStart ls_rulesPairs ls_newRulePairs]. now rewrite (left_id_L ∅ (∪)). }
  rewrite Hmaps.
  destruct (removeStale_log (ls_newRulePairs s) (rulesPairs d) (ls_fw s))
    as (groups & stales & LS & DS & ND & HG & _).
  unfold callFlush.
  destruct (firewall.Flush (fw_state (removeStale _ _ (ls_fw s)).1)) as [b' err].
  cbn [fw_log]. exists stales, err, groups.
  split; [|auto]. rewrite LS, <- !app_assoc. reflexivity.
Qed.

(** The same, with the log of the loop over the rules taken apart. *)
Lemma run_log (d : DefaultManager Rule B) (b : B) (networkMap : NetworkMap) :
  d_firewall d = Some b ->
  let r := ApplyFiltering_run (IP := IP) d networkMap in
  exists adds tail stales err (groups : list (string * list Rule)),
    r_events r = adds ++ tail ++ stales ++ [EvFlush err]
    /\ Forall (fun ev => isAddCall ev = true) adds
    /\ (tail = []
        \/ exists rule e rollbacks,
             In rule (effectiveRules networkMap)
             /\ tail = EvApplyFailed rule e :: rollbacks
             /\ deletes Rollback
                  (concat (map snd (map_to_list (rulesPairs (r_manager r)))))
                  rollbacks)
    /\ deletes Stale (concat (map snd groups)) stales
    /\ NoDup (map fst groups)
    /\ (forall id hs, In (id, hs) groups
          <-> rulesPairs d !! id = Some hs /\ rulesPairs (r_manager r) !! id = None).
Proof.
  intros Hb. cbv zeta.
  destruct (run_parts d b networkMap Hb) as (Hnp & _ & stales & err & groups & E & DS & ND & HG).
  cbv zeta in *. rewrite Hnp, E.
  destruct (installRules_log (effectiveRules networkMap) (effectiveRules networkMap)
              (loopStart d b)) as (adds & tail & L & F & T).
  cbv zeta in L, T. cbn [loopStart ls_fw fw_log app] in L.
  exists adds, tail, stales, err, groups.
  split; [|auto]. rewrite L, <- !app_assoc. reflexivity.
Qed.

(** X9.  The calls of one run with a backend come in this order: the
    [AddFiltering] calls; when a rule of the list fails, the line logged
    for that rule, followed by the [DeleteRule] calls of [rollBack]; the
    [DeleteRule] calls of the loop over the old pairs; and one [Flush],
    which is the last call.  At most one rule is logged as failed, and no
    [AddFiltering] call is made after it. *)
Theorem call_log_shape (d : DefaultManager Rule B) (networkMap : NetworkMap) :
  is_Some (d_firewall d) ->
  exists adds failure rollbacks stales err,
    r_events (ApplyFiltering_run (IP := IP) d networkMap)
    = adds ++ failure ++ rollbacks ++ stales ++ [EvFlush err]
    /\ Forall (fun ev => isAddCall ev = true) adds
    /\ (failure = [] /\ rollbacks = []
        \/ exists rule e,
             In rule (effectiveRules networkMap) /\ failure = [EvApplyFailed rule e])
    /\ Forall (fun ev => exists h x, ev = EvDelete Rollback h x) rollbacks
    /\ Forall (fun ev => exists h x, ev = EvDelete Stale h x) stales.
Proof.
  intros [b Hb].
  destruct (run_log d b networkMap Hb)
    as (adds & tail & stales & err & groups & E & F & T & DS & _).
  cbv zeta in E, T.
  destruct T as [->|(rule & e & rb & Hin & -> & D)].
  - exists adds, [], [], stales, err. split; [exact E|]. split; [exact F|].
    split; [now left|]. split; [constructor | now apply deletes_Forall in DS].
  - exists adds, [EvApplyFailed rule e], rb, stales, err. split; [exact E|].
    split; [exact F|]. split; [right; eauto|].
    split; [now apply deletes_Forall in D | now apply deletes_Forall in DS].
Qed.

Lemma run_deleted_stale (d : DefaultManager Rule B)
    (networkMap : NetworkMap) :
  is_Some (d_firewall d) ->
  let r := ApplyFiltering_run (IP := IP) d networkMap in
  exists groups : list (string * list Rule),
    NoDup (map fst groups)
    /\ (forall id hs, In (id, hs) groups
          <-> rulesPairs d !! id = Some hs /\ rulesPairs (r_manager r) !! id = None)
    /\ deleted Stale (r_events r) = concat (map snd groups).
Proof.
  intros [b Hb]. cbv zeta.
  destruct (run_log d b networkMap Hb)
    as (adds & tail & stales & err & groups & E & F & T & DS & ND & HG).
  cbv zeta in E, T, HG. exists groups. split; [exact ND | split; [exact HG|]].
  rewrite E, !deleted_app, (adds_deleted _ _ F), (deletes_deleted _ _ _ DS).
  assert (Htail : deleted Stale tail = []).
  { destruct T as [->|(rule & e & rb & _ & -> & D)]; [reflexivity|].
    apply (deletes_other Rollback Stale) in D; [|discriminate].
    unfold deleted in *. cbn [flat_map]. exact D. }
  rewrite Htail. cbn. now rewrite app_nil_r.
Qed.

(** X10.  The loop over the old pairs passes to [DeleteRule] the handles
    of exactly those pairs the manager held before the call whose rule ID
    is not in its map after the call, pair by pair and each pair once; the
    handles of a pair whose rule ID stays are not deleted by this loop. *)
Theorem stale_pairs_are_deleted (d : DefaultManager Rule B)
    (networkMap : NetworkMap) :
  is_Some (d_firewall d) ->
  let r := ApplyFiltering_run (IP := IP) d networkMap in
  exists groups : list (string * list Rule),
    NoDup (map fst groups)
    /\ (forall id hs, In (id, hs) groups
          <-> rulesPairs d !! id = Some hs /\ rulesPairs (r_manager r) !! id = None)
    /\ deleted Stale (r_events r) = concat (map snd groups).
Proof. apply run_deleted_stale. Qed.

Lemma run_deleted_rollback (d : DefaultManager Rule B)
    (networkMap : NetworkMap) :
  is_Some (d_firewall d) ->
  let r := ApplyFiltering_run (IP := IP) d networkMap in
  (forall rule e, In (EvApplyFailed rule e) (r_events r) ->
     deleted Rollback (r_events r)
     = concat (map snd (map_to_list (rulesPairs (r_manager r)))))
  /\ (Forall (fun ev => isApplyFailed ev = false) (r_events r) ->
      deleted Rollback (r_events r) = []).
Proof.
  intros [b Hb]. cbv zeta.
  destruct (run_log d b networkMap Hb)
    as (adds & tail & stales & err & groups & E & F & T & DS & _).
  cbv zeta in E, T.
  assert (Hrest : deleted Rollback (r_events (ApplyFiltering_run (IP := IP) d networkMap))
                  = deleted Rollback tail).
  { rewrite E, !deleted_app, (adds_deleted _ _ F).
    rewrite (deletes_other Stale Rollback _ _ ltac:(discriminate) DS).
    cbn. now rewrite app_nil_r. }
  rewrite Hrest. split.
  - intros rule e Hin. destruct T as [->|(rule' & e' & rb & _ & -> & D)].
    + exfalso. rewrite E in Hin. cbn [app] in Hin.
      apply in_app_or in Hin as [Hin|Hin].
      * rewrite Forall_forall in F. apply list_elem_of_In, F in Hin. discriminate.
      * apply in_app_or in Hin as [Hin|[Hin|[]]]; [|discriminate].
        apply deletes_Forall in DS. rewrite Forall_forall in DS.
        apply list_elem_of_In, DS in Hin as (h & x & Hin). discriminate.
    + unfold deleted. cbn [flat_map app]. exact (deletes_deleted _ _ _ D).
  - intros Hnone. destruct T as [->|(rule' & e' & rb & _ & -> & D)]; [reflexivity|].
    exfalso. rewrite E, Forall_forall in Hnone.
    specialize (Hnone (EvApplyFailed rule' e')).
    assert (Hin : EvApplyFailed rule' e' ∈ adds ++ (EvApplyFailed rule' e' :: rb)
                    ++ stales ++ [EvFlush err]).
    { apply list_elem_of_In, in_or_app. right. now left. }
    apply Hnone in Hin. discriminate.
Qed.

(** X11.  When a rule of the list fails, [rollBack] passes to
    [DeleteRule] the handles of the pairs collected so far, pair by pair:
    each pair once, its handles in their order, the pairs in whatever order
    the map is visited.  These pairs are the map the manager keeps: after
    such a call every handle in the manager's map has been passed to
    [DeleteRule] during the call.  In a call that logs no failed rule,
    [rollBack] deletes nothing. *)
Theorem failed_call_keeps_rolled_back_pairs (d : DefaultManager Rule B)
    (networkMap : NetworkMap) :
  is_Some (d_firewall d) ->
  let r := ApplyFiltering_run (IP := IP) d networkMap in
  (forall rule e, In (EvApplyFailed rule e) (r_events r) ->
     exists groups : list (string * list Rule),
       NoDup (map fst groups)
       /\ (forall id hs, In (id, hs) groups
             <-> rulesPairs (r_manager r) !! id = Some hs)
       /\ deleted Rollback (r_events r) = concat (map snd groups))
  /\ (Forall (fun ev => isApplyFailed ev = false) (r_events r) ->
      deleted Rollback (r_events r) = []).
Proof.
  intros Hd r. destruct (run_deleted_rollback d networkMap Hd) as [Hroll Hnone].
  split; [|exact Hnone].
  intros rule e Hin.
  exists (map_to_list (rulesPairs (r_manager r))).
  split; [apply NoDup_fst_map_to_list | split].
  - intros id hs. rewrite <- list_elem_of_In. apply elem_of_map_to_list.
  - exact (Hroll rule e Hin).
Qed.

(** X12.  Every pair in the manager's map after a call belongs to a rule
    of the list: its key is the rule ID of that rule.  Its handles are the
    handles the manager held under this rule ID before the call, or the
    handles one successful [AddFiltering] call of this run returned, or
    those of two such calls one after the other. *)
Theorem kept_pairs_provenance (d : DefaultManager Rule B)
    (networkMap : NetworkMap) :
  is_Some (d_firewall d) ->
  let r := ApplyFiltering_run (IP := IP) d networkMap in
  forall id hs, rulesPairs (r_manager r) !! id = Some hs ->
    (exists rule ip protocol action port,
       In rule (effectiveRules networkMap)
       /\ translate rule = inl (ip, protocol, action, port, id))
    /\ (rulesPairs d !! id = Some hs \/ fromBackend (r_events r) hs).
Proof.
  intros [b Hb]. cbv zeta. intros id hs.
  destruct (run_parts d b networkMap Hb) as (Hnp & _ & stales & err & groups & E & _).
  cbv zeta in *. rewrite Hnp, E. intros Hid. split.
  - destruct (installRules_keys _ _ _ id (ex_intro _ hs Hid)) as [[x Hx]|H];
      [|exact H].
    cbn [loopStart ls_newRulePairs] in Hx. now rewrite lookup_empty in Hx.
  - assert (HJ : forall k v,
               ls_rulesPairs (loopStart (IP := IP) d b) !! k = Some v ->
               ls_newRulePairs (loopStart (IP := IP) d b) !! k = Some v
               \/ rulesPairs d !! k = Some v) by (intros k v Hk; now right).
    destruct (installRules_handles (rulesPairs d) _ _ (loopStart d b) HJ id hs Hid)
      as [H|[H|H]].
    + cbn [loopStart ls_newRulePairs] in H. now rewrite lookup_empty in H.
    + now left.
    + right. apply (fromBackend_mono _ _ _ (fun ev Hev => in_or_app _ _ ev (or_introl Hev))).
      exact H.
Qed.

(** X13.  Every [AddFiltering] call of a run is made for a rule of the
    list that the loop reached and whose rule ID was not in the manager's
    map before the call: with the parsed peer IP, the protocol, the action
    and the port of this rule, the IP-set name given to the rule and an
    empty comment, as the primary call in the rule's direction or as its
    companion.  A rule whose ID the manager already holds causes no call. *)
Theorem adds_are_for_uninstalled_rules (d : DefaultManager Rule B)
    (networkMap : NetworkMap) :
  is_Some (d_firewall d) ->
  let r := ApplyFiltering_run (IP := IP) d networkMap in
  forall a x, In (EvAdd a x) (r_events r) ->
    exists rule n ruleID,
      In rule (effectiveRules networkMap) /\ In (rule, n) (r_named r)
      /\ callFor rule n ruleID a /\ rulesPairs d !! ruleID = None.
Proof.
  intros [b Hb]. cbv zeta. intros a x.
  destruct (run_parts d b networkMap Hb) as (_ & Hnamed & stales & err & groups & E & DS & _).
  cbv zeta in *. rewrite Hnamed, E. intros Hin.
  apply in_app_or in Hin as [Hin|Hin].
  2:{ exfalso. apply in_app_or in Hin as [Hin|[Hin|[]]]; [|discriminate].
      apply deletes_Forall in DS. rewrite Forall_forall in DS.
      apply list_elem_of_In, DS in Hin as (h & y & Hin). discriminate. }
  assert (HR : forall k, ls_rulesPairs (loopStart (IP := IP) d b) !! k = None ->
                         rulesPairs d !! k = None) by (intros k Hk; exact Hk).
  destruct (installRules_adds (rulesPairs d) _ _ (loopStart d b) HR (EvAdd a x) Hin eq_refl)
    as [H|(rule & n & id & a' & x' & H)].
  - destruct H.
  - destruct H as (Heq & Hr & Hn & Hc & HN). injection Heq as <- <-.
    exists rule, n, id. auto.
Qed.

(** X14.  When a rule of the list fails, the call deletes everything the
    manager had installed: every handle of every pair the manager held
    before the call is passed to [DeleteRule] during the call, by [rollBack]
    when the rule ID of the pair was reached before the failing rule, by
    the loop over the old pairs otherwise. *)
Theorem failed_call_deletes_old_pairs (d : DefaultManager Rule B)
    (networkMap : NetworkMap) :
  is_Some (d_firewall d) ->
  let r := ApplyFiltering_run (IP := IP) d networkMap in
  forall rule e, In (EvApplyFailed rule e) (r_events r) ->
    forall id hs h, rulesPairs d !! id = Some hs -> In h hs ->
      In h (deleted Rollback (r_events r)) \/ In h (deleted Stale (r_events r)).
Proof.
  intros Hd. cbv zeta. intros rule e Hfail id hs h Hid Hh.
  destruct (run_deleted_rollback d networkMap Hd) as [Hroll _].
  destruct (run_deleted_stale d networkMap Hd) as (groups & _ & HG & Hstale).
  cbv zeta in *. rewrite (Hroll rule e Hfail), Hstale.
  destruct Hd as [b Hb].
  destruct (run_parts d b networkMap Hb) as (Hnp & _).
  cbv zeta in Hnp.
  destruct (rulesPairs (r_manager (ApplyFiltering_run (IP := IP) d networkMap)) !! id)
    as [hs'|] eqn:Hfinal.
  - left. assert (hs' = hs) as ->.
    { rewrite Hnp in Hfinal. revert Hfinal.
      apply (installRules_old (rulesPairs d) (effectiveRules networkMap)
               (effectiveRules networkMap) (loopStart d b)); [| | |exact Hid].
      - destruct (effectiveRules networkMap); [now left | now right].
      - cbn [loopStart ls_rulesPairs ls_newRulePairs]. now rewrite (left_id_L ∅ (∪)).
      - cbn [loopStart ls_newRulePairs]. intros ? ? ? _ H.
        now rewrite lookup_empty in H. }
    apply in_concat. exists hs. split; [|exact Hh].
    apply in_map_iff. exists (id, hs). split; [reflexivity|].
    apply list_elem_of_In, elem_of_map_to_list. exact Hfinal.
  - right. apply in_concat. exists hs. split; [|exact Hh].
    apply in_map_iff. exists (id, hs). split; [reflexivity|]. apply HG. now split.
Qed.

(** X15.  During the loop over the rules the map of the manager is the
    new pairs laid over the pairs the manager held before the call.  The
    loop over the old pairs then removes from it exactly the pairs that are
    not new: when [d.rulesPairs = newRulePairs] is executed, both maps hold
    the same pairs already. *)
Theorem stale_loop_leaves_new_pairs (d : DefaultManager Rule B) (b : B)
    (networkMap : NetworkMap) :
  let rules := effectiveRules networkMap in
  let s := installRules (IP := IP) rules rules (loopStart d b) in
  ls_rulesPairs s = ls_newRulePairs s ∪ rulesPairs d
  /\ (removeStale (ls_newRulePairs s) (ls_rulesPairs s) (ls_fw s)).2
     = ls_newRulePairs s.
Proof.
  cbv zeta.
  set (rules := effectiveRules networkMap).
  set (s := installRules rules rules (loopStart d b)).
  assert (Hmaps : ls_rulesPairs s = ls_newRulePairs s ∪ rulesPairs d).
  { apply installRules_maps.
    - destruct rules; [now left | now right].
    - cbn [loopStart ls_rulesPairs ls_newRulePairs]. now rewrite (left_id_L ∅ (∪)). }
  split; [exact Hmaps|]. rewrite Hmaps.
  destruct (removeStale_log (ls_newRulePairs s) (rulesPairs d) (ls_fw s))
    as (groups & stales & _ & _ & _ & _ & E).
  exact E.
Qed.

End CallLog.

Section ClosedCallLog.
Import testenv examples.

Lemma call_log_shape_witness :
  let d := manager [true; false] in
  let nm := networkMap [] [ruleA; ruleB] in
  is_Some (d_firewall d)
  /\ exists adds failure rollbacks stales err,
       r_events (ApplyFiltering_run (IP := list Z) d nm)
       = adds ++ failure ++ rollbacks ++ stales ++ [EvFlush err]
       /\ Forall (fun ev => isAddCall ev = true) adds
       /\ (failure = [] /\ rollbacks = []
           \/ exists rule e,
                In rule (effectiveRules nm) /\ failure = [EvApplyFailed rule e])
       /\ Forall (fun ev => exists h x, ev = EvDelete Rollback h x) rollbacks
       /\ Forall (fun ev => exists h x, ev = EvDelete Stale h x) stales.
Proof.
  intros d nm.
  assert (H : is_Some (d_firewall d)) by (eexists; reflexivity).
  split; [exact H | exact (call_log_shape (IP := list Z) d nm H)].
Defined.

Lemma stale_pairs_are_deleted_witness :
  let d := r_manager (apply (manager [true; true]) (networkMap [] [ruleA; ruleC])) in
  let r := ApplyFiltering_run (IP := list Z) d (networkMap [] [ruleA]) in
  is_Some (d_firewall d)
  /\ exists groups : list (string * list nat),
       NoDup (map fst groups)
       /\ (forall id hs, In (id, hs) groups
             <-> rulesPairs d !! id = Some hs /\ rulesPairs (r_manager r) !! id = None)
       /\ deleted Stale (r_events r) = concat (map snd groups).
Proof.
  intros d r.
  assert (H : is_Some (d_firewall d)) by (eexists; vm_compute; reflexivity).
  split; [exact H | exact (stale_pairs_are_deleted (IP := list Z) d _ H)].
Defined.

Lemma failed_call_keeps_rolled_back_pairs_witness :
  let d := r_manager (apply (manager [true; true; false])
                        (networkMap [] [ruleA; ruleC])) in
  let r := ApplyFiltering_run (IP := list Z) d
             (networkMap [] [ruleA; ruleC; ruleB]) in
  is_Some (d_firewall d)
  /\ size (rulesPairs (r_manager r)) = 2%nat
  /\ length (deleted Rollback (r_events r)) = 2%nat
  /\ exists groups : list (string * list nat),
       NoDup (map fst groups)
       /\ (forall id hs, In (id, hs) groups
             <-> rulesPairs (r_manager r) !! id = Some hs)
       /\ deleted Rollback (r_events r) = concat (map snd groups).
Proof.
  intros d r.
  assert (H : is_Some (d_firewall d)) by (eexists; vm_compute; reflexivity).
  split; [exact H | split; [vm_compute; reflexivity | split; [vm_compute; reflexivity|]]].
  apply (proj1 (failed_call_keeps_rolled_back_pairs (IP := list Z) d _ H)
           ruleB (BackendAddFailed "backend refused the rule")).
  vm_compute. right. left. reflexivity.
Defined.

Lemma kept_pairs_provenance_witness :
  let d := manager [true] in
  let nm := networkMap [] [ruleA] in
  let r := ApplyFiltering_run (IP := list Z) d nm in
  is_Some (d_firewall d)
  /\ rulesPairs (r_manager r) !! idA = Some [0%nat]
  /\ (rulesPairs d !! idA = Some [0%nat] \/ fromBackend (r_events r) [0%nat]).
Proof.
  intros d nm r.
  assert (H : is_Some (d_firewall d)) by (eexists; reflexivity).
  assert (Hid : rulesPairs (r_manager r) !! idA = Some [0%nat])
    by (vm_compute; reflexivity).
  split; [exact H | split; [exact Hid|]].
  exact (proj2 (kept_pairs_provenance (IP := list Z) d nm H idA [0%nat] Hid)).
Defined.

Lemma adds_are_for_uninstalled_rules_witness :
  let d := manager [true] in
  let nm := networkMap [] [ruleA] in
  let r := ApplyFiltering_run (IP := list Z) d nm in
  let a := primaryCall true [10; 0; 0; 1] "all" None firewall.ActionAccept "nb0000001" in
  is_Some (d_firewall d)
  /\ In (EvAdd a (inl [0%nat])) (r_events r)
  /\ exists rule n ruleID,
       In rule (effectiveRules nm) /\ In (rule, n) (r_named r)
       /\ callFor rule n ruleID a /\ rulesPairs d !! ruleID = None.
Proof.
  intros d nm r a.
  assert (H : is_Some (d_firewall d)) by (eexists; reflexivity).
  assert (Hin : In (EvAdd a (inl [0%nat])) (r_events r))
    by (vm_compute; left; reflexivity).
  split; [exact H | split; [exact Hin|]].
  exact (adds_are_for_uninstalled_rules (IP := list Z) d nm H a (inl [0%nat]) Hin).
Defined.

Lemma failed_call_deletes_old_pairs_witness :
  let d := r_manager (apply (manager [true; true; false])
                        (networkMap [] [ruleA; ruleC])) in
  let r := ApplyFiltering_run (IP := list Z) d (networkMap [] [ruleA; ruleB]) in
  is_Some (d_firewall d)
  /\ (In 1%nat (deleted Rollback (r_events r)) \/ In 1%nat (deleted Stale (r_events r))).
Proof.
  intros d r.
  assert (H : is_Some (d_firewall d)) by (eexists; vm_compute; reflexivity).
  split; [exact H|].
  apply (failed_call_deletes_old_pairs (IP := list Z) d _ H
           ruleB (BackendAddFailed "backend refused the rule"))
    with (id := idC) (hs := [1%nat]).
  - vm_compute. right. left. reflexivity.
  - vm_compute. reflexivity.
  - left. reflexivity.
Defined.

End ClosedCallLog.

(* ===================================================================== *)
(** ** Rule identifiers tell rules apart *)
(* ===================================================================== *)

Section IDs.
Context {IP : Type} {ipOps : net.IPOps IP}.

Implicit Types (r : FirewallRule) (s t : string) (c : ascii).

Lemma append_assoc_r s t (u : string) : (s +:+ t) +:+ u = s +:+ (t +:+ u).
Proof.
  induction s as [|a s IH]; [reflexivity|].
  change (String a ((s +:+ t) +:+ u) = String a (s +:+ (t +:+ u))). now f_equal.
Qed.

Lemma append_cons c s : String c "" +:+ s = String c s.
Proof. reflexivity. Qed.

Lemma append_last s1 s2 c1 c2 :
  s1 +:+ String c1 "" = s2 +:+ String c2 "" -> s1 = s2 /\ c1 = c2.
Proof.
  revert s2. induction s1 as [|a s1 IH]; intros [|b s2] H.
  - now injection H as ->.
  - exfalso. change (String c1 "" = String b (s2 +:+ String c2 "")) in H.
    injection H as _ H. now destruct s2.
  - exfalso. change (String a (s1 +:+ String c1 "") = String c2 "") in H.
    injection H as _ H. now destruct s1.
  - change (String a (s1 +:+ String c1 "") = String b (s2 +:+ String c2 "")) in H.
    injection H as -> H. apply IH in H as [-> ->]. now split.
Qed.

Lemma isIPChar_not_pl c : isIPChar c = true -> is_pl c = false.
Proof.
  unfold isIPChar. rewrite existsb_exists. intros (x & Hin & ->%Ascii.eqb_eq).
  cbn in Hin. repeat (destruct Hin as [<-|Hin]; [reflexivity|]). destruct Hin.
Qed.

Lemma cut_after_ip s t :
  isIPText s = true ->
  before_pl (s +:+ t) = s +:+ before_pl t /\ from_pl (s +:+ t) = from_pl t.
Proof.
  induction s as [|a s IH]; [now split|].
  cbn [isIPText]. intros [Ha Hs]%andb_true_iff. apply isIPChar_not_pl in Ha.
  destruct (IH Hs) as [IH1 IH2].
  change (String a s +:+ t) with (String a (s +:+ t)).
  cbn [before_pl from_pl]. rewrite Ha, IH1, IH2. now split.
Qed.

Lemma convertToFirewallProtocol_ok (P : Z) (p : string) :
  convertToFirewallProtocol P = (p, None) ->
  (P = FirewallRule_TCP /\ p = "tcp"%string)
  \/ (P = FirewallRule_UDP /\ p = "udp"%string)
  \/ (P = FirewallRule_ICMP /\ p = "icmp"%string)
  \/ (P = FirewallRule_ALL /\ p = "all"%string).
Proof.
  unfold convertToFirewallProtocol.
  destruct (Z.eqb_spec P FirewallRule_TCP); [intros [= <-]; auto|].
  destruct (Z.eqb_spec P FirewallRule_UDP); [intros [= <-]; auto|].
  destruct (Z.eqb_spec P FirewallRule_ICMP); [intros [= <-]; auto|].
  destruct (Z.eqb_spec P FirewallRule_ALL); [intros [= <-]; auto 6|].
  discriminate.
Qed.

Lemma convertFirewallAction_ok (A a : Z) :
  convertFirewallAction A = (a, None) ->
  a = A /\ (A = FirewallRule_ACCEPT \/ A = FirewallRule_DROP).
Proof.
  unfold convertFirewallAction.
  destruct (Z.eqb_spec A FirewallRule_ACCEPT); [intros [= <-]; subst; auto|].
  destruct (Z.eqb_spec A FirewallRule_DROP); [intros [= <-]; subst; auto|].
  discriminate.
Qed.

Lemma protocol_name_cut (P : Z) (p t : string) :
  convertToFirewallProtocol P = (p, None) ->
  (P = FirewallRule_TCP /\ before_pl (p +:+ t) = "tc"%string
   /\ from_pl (p +:+ t) = String "p" t)
  \/ (P = FirewallRule_UDP /\ before_pl (p +:+ t) = "ud"%string
      /\ from_pl (p +:+ t) = String "p" t)
  \/ (P = FirewallRule_ICMP /\ before_pl (p +:+ t) = "icm"%string
      /\ from_pl (p +:+ t) = String "p" t)
  \/ (P = FirewallRule_ALL /\ before_pl (p +:+ t) = "a"%string
      /\ from_pl (p +:+ t) = String "l" (String "l" t)).
Proof.
  intros [[-> ->]|[[-> ->]|[[-> ->]|[-> ->]]]]%convertToFirewallProtocol_ok;
    [left | right; left | right; right; left | right; right; right];
    repeat split; reflexivity.
Qed.

Lemma append_two s (a b : ascii) :
  s +:+ String a (String b "") = (s +:+ String a "") +:+ String b "".
Proof. now rewrite append_assoc_r. Qed.

Lemma append_three s (a b c : ascii) :
  s +:+ String a (String b (String c ""))
  = ((s +:+ String a "") +:+ String b "") +:+ String c "".
Proof. now rewrite !append_assoc_r. Qed.

(** The protocol name ends the part of the identifier that holds a
    letter p or l. *)
Lemma protocol_cut (s1 s2 t1 t2 : string) (P1 P2 : Z) (p1 p2 : string) :
  isIPText s1 = true -> isIPText s2 = true ->
  convertToFirewallProtocol P1 = (p1, None) ->
  convertToFirewallProtocol P2 = (p2, None) ->
  s1 +:+ (p1 +:+ t1) = s2 +:+ (p2 +:+ t2) ->
  s1 = s2 /\ P1 = P2 /\ t1 = t2.
Proof.
  intros H1 H2 HP1 HP2 E.
  pose proof (f_equal before_pl E) as Eb. pose proof (f_equal from_pl E) as Ef.
  rewrite (proj1 (cut_after_ip s1 _ H1)), (proj1 (cut_after_ip s2 _ H2)) in Eb.
  rewrite (proj2 (cut_after_ip s1 _ H1)), (proj2 (cut_after_ip s2 _ H2)) in Ef.
  clear E.
  destruct (protocol_name_cut P1 p1 t1 HP1)
    as [(-> & B1 & F1)|[(-> & B1 & F1)|[(-> & B1 & F1)|(-> & B1 & F1)]]];
    destruct (protocol_name_cut P2 p2 t2 HP2)
      as [(-> & B2 & F2)|[(-> & B2 & F2)|[(-> & B2 & F2)|(-> & B2 & F2)]]];
    rewrite B1, B2 in Eb; rewrite F1, F2 in Ef;
    try discriminate Ef;
    injection Ef as Ef;
    rewrite ?append_three, ?append_two in Eb;
    apply append_last in Eb as [Eb Ec]; try discriminate Ec;
    repeat (apply append_last in Eb as [Eb _]);
    auto.
Qed.

Lemma Itoa_nonempty (z : Z) : strconv.Itoa z <> ""%string.
Proof.
  intros E. pose proof (Itoa_parse z) as H. rewrite E in H. discriminate H.
Qed.

Lemma flags_cut (d1 d2 a1 a2 : Z) (x1 x2 : string) :
  d1 = FirewallRule_IN \/ d1 = FirewallRule_OUT ->
  d2 = FirewallRule_IN \/ d2 = FirewallRule_OUT ->
  a1 = FirewallRule_ACCEPT \/ a1 = FirewallRule_DROP ->
  a2 = FirewallRule_ACCEPT \/ a2 = FirewallRule_DROP ->
  strconv.Itoa d1 +:+ (strconv.Itoa a1 +:+ x1)
  = strconv.Itoa d2 +:+ (strconv.Itoa a2 +:+ x2) ->
  d1 = d2 /\ a1 = a2 /\ x1 = x2.
Proof.
  intros [-> | ->] [-> | ->] [-> | ->] [-> | ->] E;
    change (strconv.Itoa FirewallRule_IN) with "0"%string in E;
    change (strconv.Itoa FirewallRule_OUT) with "1"%string in E;
    change (strconv.Itoa FirewallRule_ACCEPT) with "0"%string in E;
    change (strconv.Itoa FirewallRule_DROP) with "1"%string in E;
    rewrite !append_cons in E; try discriminate E;
    injection E as E; auto.
Qed.

Lemma ruleIDString_parts (ip : IP) (proto : string) (direction : Z)
    (port : option firewall.Port) (action : Z) :
  ruleIDString ip proto direction port action ""
  = net.IP_String ip +:+ (proto +:+ (strconv.Itoa direction
                                      +:+ (strconv.Itoa action +:+ portText port))).
Proof.
  unfold ruleIDString. destruct port as [p|]; cbn [portText]; [|reflexivity].
  rewrite !append_assoc_r. reflexivity.
Qed.

Lemma getRuleID_inj (ip ip' : IP) (proto proto' : string) (direction direction' : Z)
    (port port' : option firewall.Port) (action action' : Z) :
  getRuleID ip proto direction port action ""
  = getRuleID ip' proto' direction' port' action' "" ->
  ruleIDString ip proto direction port action ""
  = ruleIDString ip' proto' direction' port' action' "".
Proof.
  unfold getRuleID, md5.Sum, md5.New. intros E.
  apply hex_encode_inj, app_inv_tail in E. now apply list_byte_of_string_inj.
Qed.

(** What a successful translation says about the rule. *)
Lemma translate_ok r (ip : IP) (protocol : string) (action : Z)
    (port : option firewall.Port) (ruleID : string) :
  translate r = inl (ip, protocol, action, port, ruleID) ->
  net.ParseIP (PeerIP r) = Some ip
  /\ convertToFirewallProtocol (Protocol r) = (protocol, None)
  /\ convertFirewallAction (Action r) = (action, None)
  /\ (Port r = ""%string /\ port = None
      \/ exists v, Port r <> ""%string /\ strconv.Atoi (Port r) = Some v
           /\ port = Some {| firewall.IsRange := false; firewall.Values := [v] |})
  /\ ruleID = getRuleID ip protocol (Direction r) port action "".
Proof.
  unfold translate.
  destruct (net.ParseIP (PeerIP r)) as [ip0|]; [|discriminate].
  destruct (convertToFirewallProtocol (Protocol r)) as [p [e|]]; [discriminate|].
  destruct (convertFirewallAction (Action r)) as [a [e|]]; [discriminate|].
  destruct (String.eqb_spec (Port r) "") as [Hp|Hp]; cbn [negb].
  - intros [= <- <- <- <- <-]. repeat split; auto.
  - destruct (strconv.Atoi (Port r)) as [v|]; [|discriminate].
    intros [= <- <- <- <- <-]. repeat split; eauto.
Qed.

(** X16.  Rule IDs tell rules apart.  Two rules with direction IN or OUT
    that [protoRuleToFirewallRule] translates to the same rule ID have the
    same peer address text, the same protocol, the same direction, the
    same action and the same port, provided the text of a parsed address
    is made of hexadecimal digits, dots and colons. *)
Theorem same_ID_same_rule (r1 r2 : FirewallRule) (ip1 ip2 : IP)
    (protocol1 protocol2 : string) (action1 action2 : Z)
    (port1 port2 : option firewall.Port) (ruleID : string) :
  translate r1 = inl (ip1, protocol1, action1, port1, ruleID) ->
  translate r2 = inl (ip2, protocol2, action2, port2, ruleID) ->
  Direction r1 = FirewallRule_IN \/ Direction r1 = FirewallRule_OUT ->
  Direction r2 = FirewallRule_IN \/ Direction r2 = FirewallRule_OUT ->
  isIPText (net.IP_String ip1) = true ->
  isIPText (net.IP_String ip2) = true ->
  net.IP_String ip1 = net.IP_String ip2
  /\ Protocol r1 = Protocol r2
  /\ Direction r1 = Direction r2
  /\ Action r1 = Action r2
  /\ port1 = port2.
Proof.
  intros (_ & HP1 & HA1 & Hport1 & Hid1)%translate_ok
         (_ & HP2 & HA2 & Hport2 & Hid2)%translate_ok Hd1 Hd2 Hip1 Hip2.
  rewrite Hid1 in Hid2. apply getRuleID_inj in Hid2.
  rewrite !ruleIDString_parts in Hid2.
  destruct (protocol_cut _ _ _ _ _ _ _ _ Hip1 Hip2 HP1 HP2 Hid2) as (Eip & EP & Et).
  apply convertFirewallAction_ok in HA1 as [-> HA1].
  apply convertFirewallAction_ok in HA2 as [-> HA2].
  destruct (flags_cut _ _ _ _ _ _ Hd1 Hd2 HA1 HA2 Et) as (Ed & Ea & Ex).
  split; [exact Eip | split; [exact EP | split; [exact Ed | split; [exact Ea|]]]].
  destruct Hport1 as [[_ ->]|(v1 & _ & _ & ->)], Hport2 as [[_ ->]|(v2 & _ & _ & ->)].
  - reflexivity.
  - exfalso. symmetry in Ex. now apply Itoa_nonempty in Ex.
  - exfalso. now apply Itoa_nonempty in Ex.
  - apply Itoa_inj in Ex. now subst.
Qed.

End IDs.

Section ClosedIDs.
Import testenv examples.

Lemma same_ID_same_rule_witness :
  let r1 := rule "10.0.0.1" FirewallRule_IN FirewallRule_ACCEPT FirewallRule_TCP "80" in
  let r2 := rule "10.0.0.1" FirewallRule_IN FirewallRule_ACCEPT FirewallRule_TCP "+80" in
  let id := getRuleID [10; 0; 0; 1] "tcp" FirewallRule_IN (Some port80)
              firewall.ActionAccept "" in
  (translate r1 = inl ([10; 0; 0; 1], "tcp"%string, firewall.ActionAccept, Some port80, id))
  /\ (translate r2 = inl ([10; 0; 0; 1], "tcp"%string, firewall.ActionAccept, Some port80, id))
  /\ (Protocol r1 = Protocol r2).
Proof.
  intros r1 r2 id.
  assert (H1 : translate r1
               = inl ([10; 0; 0; 1], "tcp"%string, firewall.ActionAccept, Some port80, id))
    by (vm_compute; reflexivity).
  assert (H2 : translate r2
               = inl ([10; 0; 0; 1], "tcp"%string, firewall.ActionAccept, Some port80, id))
    by (vm_compute; reflexivity).
  split; [exact H1 | split; [exact H2|]].
  refine (proj1 (proj2 (same_ID_same_rule r1 r2 _ _ _ _ _ _ _ _ id H1 H2 _ _ _ _))).
  - left. reflexivity.
  - left. reflexivity.
  - vm_compute. reflexivity.
  - vm_compute. reflexivity.
Defined.

End ClosedIDs.

(* ===================================================================== *)
(** ** The first call on a new manager *)
(* ===================================================================== *)

Section NewManager.
Context {IP Rule B : Type} {ipOps : net.IPOps IP}
  {fwOps : firewall.Manager IP Rule B}.

Implicit Types (s : loopState IP Rule B) (r : FirewallRule).

(** The loop only appends to the list of the rules it reached. *)
Lemma installRules_named_prefix (all rules : list FirewallRule) :
  forall s, exists more,
    ls_named (installRules all rules s) = ls_named s ++ more.
Proof.
  induction rules as [|r rest IH]; intros s.
  - exists []. now rewrite app_nil_r.
  - rewrite installRules_cons. cbv zeta.
    destruct (protoRuleToFirewallRule _ r _ (ls_fw s)) as [w [[pairID rulePair]|err]];
      cbn [fst snd].
    + match goal with |- context [installRules all rest ?s1] =>
        destruct (IH s1) as (more & ->) end.
      cbn [ls_named]. rewrite <- app_assoc. eauto.
    + cbn [ls_named]. eauto.
Qed.

(** X17.  A manager made by [NewDefaultManager] holds no pair and its
    counter is zero.  Its first call with a backend deletes no old pair, and
    the first rule of the list gets the IP-set name nb0000001. *)
Theorem new_manager_first_call (b : B) (networkMap : NetworkMap) :
  let d : DefaultManager Rule B := NewDefaultManager (Some b) in
  let r := ApplyFiltering_run (IP := IP) d networkMap in
  rulesPairs d = ∅ /\ ipsetCounter d = 0
  /\ deleted Stale (r_events r) = []
  /\ forall rule rest, effectiveRules networkMap = rule :: rest ->
       exists more, r_named r = (rule, "nb0000001"%string) :: more.
Proof.
  intros d r. subst r. split; [reflexivity | split; [reflexivity | split]].
  - destruct (run_deleted_stale (IP := IP) d networkMap)
      as (groups & _ & HG & ->); [now exists b|].
    destruct groups as [|[id hs] groups]; [reflexivity|]. exfalso.
    destruct (proj1 (HG id hs)) as [H _]; [now left|].
    unfold d in H. cbn [NewDefaultManager rulesPairs] in H.
    now rewrite lookup_empty in H.
  - intros rule rest Hrules.
    destruct (run_parts (IP := IP) d b networkMap eq_refl) as (_ & -> & _).
    cbv zeta. rewrite Hrules, installRules_cons. cbv zeta.
    assert (Hname : (ipsetNameFor (getRuleGroupingSelector rule)
                       (loopStart (IP := IP) d b)).1
                    = "nb0000001"%string).
    { unfold ipsetNameFor, d.
      cbn [loopStart NewDefaultManager ls_ipsets ls_counter ipsetCounter].
      rewrite lookup_empty. reflexivity. }
    rewrite Hname.
    destruct (protoRuleToFirewallRule _ rule _ _) as [w [[pairID rulePair]|err]];
      cbn [fst snd].
    + match goal with |- context [installRules ?a rest ?s1] =>
        destruct (installRules_named_prefix a rest s1) as (more & ->) end.
      cbn [ls_named loopStart app]. eauto.
    + cbn [ls_named loopStart app]. eauto.
Qed.

End NewManager.
